(** * The SSH session core of open-remote-control

    A shallow embedding of the server's SSH layer:
    - [SSHConnection] and [SSHManager]   (server/dist/ssh/sshManager.js)
    - [SSHHandler]                       (server/dist/ssh/sshHandler.js)
    - [AuthManager.validateToken]        (server/dist/websocket/auth.js)

    JavaScript objects live in stores indexed by their identity; the ssh2
    client, its channels and the net servers are the environment, whose
    events ('ready', 'error', 'close', the shell callback, 'listening')
    are the inputs of a step function next to the client's messages. *)

From stdpp Require Import base option list gmap strings pretty.

Local Open Scope string_scope.
Local Open Scope list_scope.

(** ** JavaScript values used by the code *)

(** Object identities: positions in the stores. *)
Abbreviation ConnRef := nat (only parsing).
Abbreviation StreamRef := nat (only parsing).
Abbreviation ServerRef := nat (only parsing).
Abbreviation PromiseRef := nat (only parsing).
Abbreviation ReqRef := nat (only parsing).
Abbreviation WsRef := nat (only parsing).

(** Truthiness of an optional string property: [undefined] and the empty string are
    falsy. *)
Definition truthy (v : option string) : bool :=
  match v with
  | Some s => negb (bool_decide (s = EmptyString))
  | None => false
  end.

(** [v || d] for an optional string. *)
Definition or_default (v : option string) (d : string) : string :=
  match v with
  | Some s => if bool_decide (s = EmptyString) then d else s
  | None => d
  end.

(** [v || d] for an optional number: [undefined] and [0] are falsy. *)
Definition or_defaultZ (v : option Z) (d : Z) : Z :=
  match v with
  | Some n => if bool_decide (n = 0%Z) then d else n
  | None => d
  end.

(** ** [Map]: keys in insertion order *)

Module JSMap.
Section JSMap.
Context {K V : Type} `{EqDecision K}.

Fixpoint get (k : K) (m : list (K * V)) : option V :=
  match m with
  | [] => None
  | (k', v) :: m' => if decide (k = k') then Some v else get k m'
  end.

Definition has (k : K) (m : list (K * V)) : bool :=
  match get k m with Some _ => true | None => false end.

(** [set] on a present key replaces the value in place; a new key goes
    to the end. *)
Fixpoint set (k : K) (v : V) (m : list (K * V)) : list (K * V) :=
  match m with
  | [] => [(k, v)]
  | (k', v') :: m' =>
      if decide (k = k') then (k, v) :: m' else (k', v') :: set k v m'
  end.

Definition delete (k : K) (m : list (K * V)) : list (K * V) :=
  filter (λ kv, kv.1 ≠ k) m.

Definition keys (m : list (K * V)) : list K := m.*1.
Definition values (m : list (K * V)) : list V := m.*2.

(** [m.values().next().value] *)
Definition first_value (m : list (K * V)) : option V := head (values m).
End JSMap.
End JSMap.

(** ** Messages *)

(** Server to client (types.ts). *)
Inductive ServerMessage :=
  | ssh_connect_response (success : bool) (message : option string)
  | ssh_shell_started (sessionId : string)
  | ssh_output (sessionId : string) (output : string)
  | ssh_shell_closed (sessionId : string) (success : option bool)
  | ssh_list_shells_response (shells : list string)
  | ssh_status (status : string) (message : string)
  | ssh_port_forward_response (success : bool) (localPort : Z)
      (message : option string).

Record ConnectData := {
  cd_host : string;
  cd_port : Z;
  cd_username : string;
  cd_privateKey : option string;
  cd_password : option string;
}.

Record StartShellData := {
  ss_sessionId : option string;
  ss_cols : option Z;
  ss_rows : option Z;
}.

(** [ssh_input] data is an object, or in the legacy format the input
    string itself. *)
Inductive InputData :=
  | InputObj (sessionId : option string) (input : option string)
  | InputLegacy (input : string).

Record ResizeData := {
  rs_sessionId : option string;
  rs_cols : Z;
  rs_rows : Z;
}.

Record PortForwardData := {
  pf_localPort : Z;
  pf_remoteHost : string;
  pf_remotePort : Z;
}.

(** Client to server; the constructor is the message's [type], [data] is
    optional where the handler reads it with [?.]. *)
Inductive ClientMessage :=
  | ssh_connect (data : ConnectData)
  | ssh_start_shell (data : option StartShellData)
  | ssh_input (data : option InputData)
  | ssh_resize (data : ResizeData)
  | ssh_disconnect
  | ssh_close_shell (sessionId : option string)
  | ssh_list_shells
  | ssh_port_forward (data : PortForwardData)
  | ssh_stop_port_forward (localPort : Z)
  | ssh_unknown (type : string).

(** ** Promises and the handlers' continuations *)

Inductive PromiseState :=
  | Pending
  | Fulfilled
  | Rejected (message : string).

(** What a handler does after its [await]: the rest of the [try] block on
    fulfilment, the [catch] block on rejection. *)
Inductive Cont :=
  | AfterConnect (ws : WsRef)
  | AfterStartShell (ws : WsRef) (sessionId : string)
  | AfterPortForward (ws : WsRef) (localPort : Z).

Record Promise := mkPromise {
  p_state : PromiseState;
  p_awaiter : option Cont;
}.

(** ** The environment's objects *)

(** The closures [startShell] is called with, by their captured
    variables: [onData] sends [ssh_output], [onClose] sends
    [ssh_shell_closed]. *)
Inductive DataCallback := OutputTo (ws : WsRef) (sessionId : string).
Inductive CloseCallback := ClosedTo (ws : WsRef) (sessionId : string).

(** An ssh2 channel with the listeners [startShell] registers on it:
    the chunks given to [write] ([None] for [undefined]), the window as
    (rows, cols), the calls of [close], and whether 'close' was emitted. *)
Record Stream := mkStream {
  st_owner : ConnRef;
  st_sessionId : string;
  st_onData : DataCallback;
  st_onClose : CloseCallback;
  st_written : list (option string);
  st_window : option (Z * Z);
  st_closeCalls : nat;
  st_closed : bool;
}.

(** A net server created by [setupPortForward]: [Binding] from [listen]
    until its 'listening' or its 'error' event. The bridging of accepted
    sockets through [forwardOut] touches neither map and is left out. *)
Inductive ServerState := Binding | Listening | Failed | Closed.

Record Server := mkServer {
  sv_owner : ConnRef;
  sv_config : PortForwardData;
  sv_promise : PromiseRef;
  sv_state : ServerState;
  sv_closeCalls : nat;
}.

(** The options handed to [client.connect]. *)
Record ConnectionConfig := mkConnectionConfig {
  cc_host : string;
  cc_port : Z;
  cc_username : string;
  cc_readyTimeout : Z;
  cc_keepaliveInterval : Z;
  cc_keepaliveCountMax : Z;
  cc_privateKey : option string;
  cc_password : option string;
}.

(** The ssh2 client of one connection: the promises captured by the
    listeners of each [connect] call, the [connect] and [end] calls. *)
Record Client := mkClient {
  cl_listeners : list PromiseRef;
  cl_connectCalls : list ConnectionConfig;
  cl_endCalls : nat;
}.

Record SSHConnection := mkSSHConnection {
  shells : list (string * StreamRef);
  portForwards : gmap Z ServerRef;
  connected : bool;
  client : Client;
}.

(** A pending [client.shell(opts, callback)] call. *)
Record ShellReq := mkShellReq {
  rq_this : ConnRef;
  rq_sessionId : string;
  rq_onData : DataCallback;
  rq_onClose : CloseCallback;
  rq_cols : Z;
  rq_rows : Z;
  rq_promise : PromiseRef;
  rq_answered : bool;
}.

(** The stores of the instances, [sshManager.connections], the store of
    promises, the pending shell requests, and what [sendFn] has sent. *)
Record World := mkWorld {
  conns : list SSHConnection;
  connections : gmap string ConnRef;
  streams : list Stream;
  servers : list Server;
  promises : list Promise;
  shellReqs : list ShellReq;
  outbox : list (WsRef * ServerMessage);
}.

Definition initial : World :=
  mkWorld [] ∅ [] [] [] [] [].

Definition set_conns (f : list SSHConnection → list SSHConnection) (w : World) :=
  mkWorld (f (conns w)) (connections w) (streams w) (servers w) (promises w)
    (shellReqs w) (outbox w).
Definition set_connections (f : gmap string ConnRef → gmap string ConnRef)
    (w : World) :=
  mkWorld (conns w) (f (connections w)) (streams w) (servers w) (promises w)
    (shellReqs w) (outbox w).
Definition set_streams (f : list Stream → list Stream) (w : World) :=
  mkWorld (conns w) (connections w) (f (streams w)) (servers w) (promises w)
    (shellReqs w) (outbox w).
Definition set_servers (f : list Server → list Server) (w : World) :=
  mkWorld (conns w) (connections w) (streams w) (f (servers w)) (promises w)
    (shellReqs w) (outbox w).
Definition set_promises (f : list Promise → list Promise) (w : World) :=
  mkWorld (conns w) (connections w) (streams w) (servers w) (f (promises w))
    (shellReqs w) (outbox w).
Definition set_shellReqs (f : list ShellReq → list ShellReq) (w : World) :=
  mkWorld (conns w) (connections w) (streams w) (servers w) (promises w)
    (f (shellReqs w)) (outbox w).
Definition set_outbox
    (f : list (WsRef * ServerMessage) → list (WsRef * ServerMessage))
    (w : World) :=
  mkWorld (conns w) (connections w) (streams w) (servers w) (promises w)
    (shellReqs w) (f (outbox w)).

(** Field updates of one object in its store. *)
Definition upd_conn (this : ConnRef) (f : SSHConnection → SSHConnection) :=
  set_conns (alter f this).
Definition upd_stream (s : StreamRef) (f : Stream → Stream) :=
  set_streams (alter f s).
Definition upd_server (s : ServerRef) (f : Server → Server) :=
  set_servers (alter f s).

Definition set_shells (f : list (string * StreamRef) → list (string * StreamRef))
    (c : SSHConnection) :=
  mkSSHConnection (f (shells c)) (portForwards c) (connected c) (client c).
Definition set_portForwards (f : gmap Z ServerRef → gmap Z ServerRef)
    (c : SSHConnection) :=
  mkSSHConnection (shells c) (f (portForwards c)) (connected c) (client c).
Definition set_connected (b : bool) (c : SSHConnection) :=
  mkSSHConnection (shells c) (portForwards c) b (client c).
Definition set_client (f : Client → Client) (c : SSHConnection) :=
  mkSSHConnection (shells c) (portForwards c) (connected c) (f (client c)).

(** [this.sendFn(ws, message)] *)
Definition sendFn (ws : WsRef) (m : ServerMessage) : World → World :=
  set_outbox (λ o, o ++ [(ws, m)]).

Definition on_fulfilled (k : Cont) : World → World :=
  match k with
  | AfterConnect ws => sendFn ws (ssh_connect_response true None)
  | AfterStartShell ws sessionId => sendFn ws (ssh_shell_started sessionId)
  | AfterPortForward ws localPort =>
      sendFn ws (ssh_port_forward_response true localPort None)
  end.

Definition on_rejected (k : Cont) (message : string) : World → World :=
  match k with
  | AfterConnect ws => sendFn ws (ssh_connect_response false (Some message))
  | AfterStartShell ws _ => sendFn ws (ssh_status "error" message)
  | AfterPortForward ws localPort =>
      sendFn ws (ssh_port_forward_response false localPort (Some message))
  end.

(** [new Promise(...)]: the fresh promise is pending. *)
Definition new_promise (w : World) : PromiseRef * World :=
  (length (promises w), set_promises (λ ps, ps ++ [mkPromise Pending None]) w).

Definition promise_state (p : PromiseRef) (w : World) : option PromiseState :=
  p_state <$> promises w !! p.

(** Settling a settled promise does nothing; settling a pending one runs
    the awaiting handler's continuation. *)
Definition resolve (p : PromiseRef) (w : World) : World :=
  match promises w !! p with
  | Some (mkPromise Pending k) =>
      let w1 := set_promises (<[p := mkPromise Fulfilled k]>) w in
      match k with Some k => on_fulfilled k w1 | None => w1 end
  | _ => w
  end.

Definition reject (p : PromiseRef) (message : string) (w : World) : World :=
  match promises w !! p with
  | Some (mkPromise Pending k) =>
      let w1 := set_promises (<[p := mkPromise (Rejected message) k]>) w in
      match k with Some k => on_rejected k message w1 | None => w1 end
  | _ => w
  end.

(** [await p] in a handler whose continuation is [k]. *)
Definition await (p : PromiseRef) (k : Cont) (w : World) : World :=
  match promises w !! p with
  | Some (mkPromise Pending _) =>
      set_promises (<[p := mkPromise Pending (Some k)]>) w
  | Some (mkPromise Fulfilled _) => on_fulfilled k w
  | Some (mkPromise (Rejected message) _) => on_rejected k message w
  | None => w
  end.

(** ** SSHConnection (sshManager.js) *)

(** [new SSHConnection()] *)
Definition new_SSHConnection : SSHConnection :=
  mkSSHConnection [] ∅ false (mkClient [] [] 0).

(** What ssh2 and net do to their objects when the code calls them.
    [stream_write] records the chunk handed to [write]; the chunk [None]
    is [undefined], which a real channel refuses by throwing, so what is
    said of the input path is said for data that [has_input]. *)
Definition stream_write (data : option string) (s : Stream) : Stream :=
  mkStream (st_owner s) (st_sessionId s) (st_onData s) (st_onClose s)
    (st_written s ++ [data]) (st_window s) (st_closeCalls s) (st_closed s).
Definition stream_setWindow (rows cols : Z) (s : Stream) : Stream :=
  mkStream (st_owner s) (st_sessionId s) (st_onData s) (st_onClose s)
    (st_written s) (Some (rows, cols)) (st_closeCalls s) (st_closed s).
Definition stream_close (s : Stream) : Stream :=
  mkStream (st_owner s) (st_sessionId s) (st_onData s) (st_onClose s)
    (st_written s) (st_window s) (S (st_closeCalls s)) (st_closed s).
Definition stream_closed (s : Stream) : Stream :=
  mkStream (st_owner s) (st_sessionId s) (st_onData s) (st_onClose s)
    (st_written s) (st_window s) (st_closeCalls s) true.
Definition server_close (s : Server) : Server :=
  mkServer (sv_owner s) (sv_config s) (sv_promise s) Closed
    (S (sv_closeCalls s)).
Definition server_set_state (st : ServerState) (s : Server) : Server :=
  mkServer (sv_owner s) (sv_config s) (sv_promise s) st (sv_closeCalls s).
Definition client_end (c : Client) : Client :=
  mkClient (cl_listeners c) (cl_connectCalls c) (S (cl_endCalls c)).

Module SSHConnection.

(** The [connectionConfig] object built in [connect]. *)
Definition connectionConfig (config : ConnectData) : ConnectionConfig :=
  mkConnectionConfig (cd_host config) (cd_port config) (cd_username config)
    30000 10000 3
    (if truthy (cd_privateKey config) then cd_privateKey config else None)
    (if truthy (cd_privateKey config) then None
     else if truthy (cd_password config) then cd_password config else None).

(** [connect]: registers the 'ready', 'error' and 'close' listeners, which
    capture the new promise, and calls [client.connect]. The call is taken
    to return, as it does when [connect_returns]; where it throws, the
    promise is rejected inside [connect], which is not modelled. *)
Definition connect (this : ConnRef) (config : ConnectData) (w : World)
    : PromiseRef * World :=
  let '(p, w) := new_promise w in
  (p, upd_conn this (set_client (λ cl,
        mkClient (cl_listeners cl ++ [p])
          (cl_connectCalls cl ++ [connectionConfig config])
          (cl_endCalls cl))) w).

(** The three listeners of one [connect] call. *)
Definition on_ready (this : ConnRef) (p : PromiseRef) (w : World) : World :=
  resolve p (upd_conn this (set_connected true) w).
Definition on_error (this : ConnRef) (err : string) (p : PromiseRef)
    (w : World) : World :=
  reject p err (upd_conn this (set_connected false) w).
Definition on_close (this : ConnRef) (p : PromiseRef) (w : World) : World :=
  upd_conn this (set_connected false) w.

Definition startShell (this : ConnRef) (sessionId : string)
    (onData : DataCallback) (onClose : CloseCallback) (cols rows : Z)
    (w : World) : PromiseRef * World :=
  let '(p, w) := new_promise w in
  match conns w !! this with
  | Some c =>
      if negb (connected c) then (p, reject p "SSH not connected" w)
      else if JSMap.has sessionId (shells c) then
        (p, reject p ("Shell session " +:+ sessionId +:+ " already exists") w)
      else
        (p, set_shellReqs (λ rs, rs ++
              [mkShellReq this sessionId onData onClose cols rows p false]) w)
  | None => (p, w)
  end.

(** The callback given to [client.shell]: [err] is the failure reason,
    or the channel is a new object, its terminal sized as requested. *)
Definition shell_callback (r : ShellReq) (err : option string) (w : World)
    : World :=
  match err with
  | Some message => reject (rq_promise r) message w
  | None =>
      let stream := length (streams w) in
      let w := set_streams (λ ss, ss ++
                 [mkStream (rq_this r) (rq_sessionId r) (rq_onData r)
                    (rq_onClose r) [] (Some (rq_rows r, rq_cols r)) 0 false])
                 w in
      let w := upd_conn (rq_this r)
                 (set_shells (JSMap.set (rq_sessionId r) stream)) w in
      resolve (rq_promise r) w
  end.

(** The stream's 'data' and 'close' listeners ([stderr] data goes the same
    way as 'data'). *)
Definition run_onData (cb : DataCallback) (data : string) : World → World :=
  match cb with
  | OutputTo ws sessionId => sendFn ws (ssh_output sessionId data)
  end.
Definition run_onClose (cb : CloseCallback) : World → World :=
  match cb with
  | ClosedTo ws sessionId => sendFn ws (ssh_shell_closed sessionId None)
  end.
Definition stream_on_data (s : Stream) (data : string) : World → World :=
  run_onData (st_onData s) data.
Definition stream_on_close (s : Stream) (w : World) : World :=
  run_onClose (st_onClose s)
    (upd_conn (st_owner s) (set_shells (JSMap.delete (st_sessionId s))) w).

Definition writeToShell (this : ConnRef) (sessionId : string)
    (data : option string) (w : World) : bool * World :=
  match conns w !! this with
  | Some c =>
      match JSMap.get sessionId (shells c) with
      | Some shell => (true, upd_stream shell (stream_write data) w)
      | None => (false, w)
      end
  | None => (false, w)
  end.

Definition resizeShell (this : ConnRef) (sessionId : string) (cols rows : Z)
    (w : World) : bool * World :=
  match conns w !! this with
  | Some c =>
      match JSMap.get sessionId (shells c) with
      | Some shell => (true, upd_stream shell (stream_setWindow rows cols) w)
      | None => (false, w)
      end
  | None => (false, w)
  end.

Definition closeShell (this : ConnRef) (sessionId : string) (w : World)
    : bool * World :=
  match conns w !! this with
  | Some c =>
      match JSMap.get sessionId (shells c) with
      | Some shell =>
          let w := upd_stream shell stream_close w in
          (true, upd_conn this (set_shells (JSMap.delete sessionId)) w)
      | None => (false, w)
      end
  | None => (false, w)
  end.

Definition getActiveShells (this : ConnRef) (w : World) : list string :=
  match conns w !! this with
  | Some c => JSMap.keys (shells c)
  | None => []
  end.

Definition hasShell (this : ConnRef) (sessionId : string) (w : World) : bool :=
  match conns w !! this with
  | Some c => JSMap.has sessionId (shells c)
  | None => false
  end.

(** Legacy: the first shell of the map. *)
Definition write (this : ConnRef) (data : option string) (w : World) : World :=
  match conns w !! this with
  | Some c =>
      match JSMap.first_value (shells c) with
      | Some firstShell => upd_stream firstShell (stream_write data) w
      | None => w
      end
  | None => w
  end.

Definition resize (this : ConnRef) (cols rows : Z) (w : World) : World :=
  match conns w !! this with
  | Some c =>
      match JSMap.first_value (shells c) with
      | Some firstShell => upd_stream firstShell (stream_setWindow rows cols) w
      | None => w
      end
  | None => w
  end.

(** [setupPortForward]: after the two checks a server is created and asked
    to listen; it is registered only by the 'listening' callback.
    [server.listen] is taken to return, as it does for a [valid_port];
    for another port it throws and the promise is rejected inside
    [setupPortForward], which is not modelled. *)
Definition setupPortForward (this : ConnRef) (config : PortForwardData)
    (w : World) : PromiseRef * World :=
  let '(p, w) := new_promise w in
  match conns w !! this with
  | Some c =>
      if negb (connected c) then (p, reject p "SSH not connected" w)
      else if bool_decide (is_Some (portForwards c !! pf_localPort config)) then
        (p, reject p ("Port " +:+ pretty (pf_localPort config) +:+
                      " is already forwarded") w)
      else
        (p, set_servers (λ ss, ss ++ [mkServer this config p Binding 0]) w)
  | None => (p, w)
  end.

(** The server's 'error' listener and the callback of [listen]. *)
Definition server_on_error (s : Server) (err : string) : World → World :=
  reject (sv_promise s) err.
Definition server_on_listening (server : ServerRef) (s : Server) (w : World)
    : World :=
  resolve (sv_promise s)
    (upd_conn (sv_owner s)
       (set_portForwards (<[pf_localPort (sv_config s) := server]>)) w).

Definition stopPortForward (this : ConnRef) (localPort : Z) (w : World)
    : World :=
  match conns w !! this with
  | Some c =>
      match portForwards c !! localPort with
      | Some server =>
          let w := upd_server server server_close w in
          upd_conn this (set_portForwards (delete localPort)) w
      | None => w
      end
  | None => w
  end.

Definition close_all_shells (m : list (string * StreamRef)) (w : World)
    : World :=
  foldl (λ w kv, upd_stream kv.2 stream_close w) w m.
Definition close_all_servers (m : gmap Z ServerRef) (w : World) : World :=
  foldl (λ w kv, upd_server kv.2 server_close w) w (map_to_list m).

Definition disconnect (this : ConnRef) (w : World) : World :=
  match conns w !! this with
  | Some c =>
      let w := close_all_shells (shells c) w in
      let w := upd_conn this (set_shells (λ _, [])) w in
      let w := close_all_servers (portForwards c) w in
      let w := upd_conn this (set_portForwards (λ _, ∅)) w in
      if connected c then
        upd_conn this (set_connected false)
          (upd_conn this (set_client client_end) w)
      else w
  | None => w
  end.

Definition isConnected (this : ConnRef) (w : World) : bool :=
  match conns w !! this with
  | Some c => connected c
  | None => false
  end.

End SSHConnection.

(** ** SSHManager (sshManager.js); [connections] is the singleton's map. *)

Module SSHManager.

Definition getConnection (clientId : string) (w : World) : ConnRef * World :=
  match connections w !! clientId with
  | Some connection => (connection, w)
  | None =>
      let connection := length (conns w) in
      let w := set_conns (λ cs, cs ++ [new_SSHConnection]) w in
      (connection, set_connections (<[clientId := connection]>) w)
  end.

Definition hasConnection (clientId : string) (w : World) : bool :=
  bool_decide (is_Some (connections w !! clientId)).

Definition removeConnection (clientId : string) (w : World) : World :=
  match connections w !! clientId with
  | Some connection =>
      set_connections (delete clientId)
        (SSHConnection.disconnect connection w)
  | None => w
  end.

Definition cleanup (w : World) : World :=
  set_connections (λ _, ∅)
    (foldl (λ w kv, SSHConnection.disconnect kv.2 w) w
       (map_to_list (connections w))).

End SSHManager.

(** ** SSHHandler (sshHandler.js) *)

(** How a handler call ends: it returns, or a [TypeError] escapes it. *)
Inductive Outcome := Returned | Threw.

(** The value of [message.data?.input || message.data] in [handleInput]. *)
Inductive InputValue :=
  | IVString (s : string)
  | IVObject (input : option string)
  | IVUndefined.

Module SSHHandler.

Definition handleConnect (ws : WsRef) (clientId : string) (data : ConnectData)
    (w : World) : World :=
  let '(connection, w) := SSHManager.getConnection clientId w in
  let '(p, w) := SSHConnection.connect connection data w in
  await p (AfterConnect ws) w.

Definition handleStartShell (ws : WsRef) (clientId : string)
    (data : option StartShellData) (w : World) : World :=
  let '(connection, w) := SSHManager.getConnection clientId w in
  if negb (SSHConnection.isConnected connection w) then
    sendFn ws (ssh_status "error" "SSH not connected") w
  else
    let sessionId := or_default (data ≫= ss_sessionId) "default" in
    let cols := or_defaultZ (data ≫= ss_cols) 80 in
    let rows := or_defaultZ (data ≫= ss_rows) 24 in
    let '(p, w) := SSHConnection.startShell connection sessionId
                     (OutputTo ws sessionId) (ClosedTo ws sessionId)
                     cols rows w in
    await p (AfterStartShell ws sessionId) w.

(** [message.data?.sessionId] and [message.data?.input || message.data]
    for the two shapes of [ssh_input] data. *)
Definition input_sessionId (data : option InputData) : option string :=
  match data with
  | Some (InputObj sessionId _) => sessionId
  | _ => None
  end.
Definition input_value (data : option InputData) : InputValue :=
  match data with
  | Some (InputObj _ input) =>
      if truthy input then IVString (default EmptyString input) else IVObject input
  | Some (InputLegacy s) => IVString s
  | None => IVUndefined
  end.

(** [typeof input === 'string' ? input : input.input]; reading [.input]
    of [undefined] throws. *)
Definition input_chunk (input : InputValue) : option (option string) :=
  match input with
  | IVString s => Some (Some s)
  | IVObject i => Some i
  | IVUndefined => None
  end.

Definition handleInput (clientId : string) (data : option InputData)
    (w : World) : Outcome * World :=
  let '(connection, w) := SSHManager.getConnection clientId w in
  if SSHConnection.isConnected connection w then
    let sessionId := or_default (input_sessionId data) "default" in
    let input := input_value data in
    match input_chunk input with
    | Some chunk =>
        let '(written, w1) :=
          SSHConnection.writeToShell connection sessionId chunk w in
        if negb written then (Returned, SSHConnection.write connection chunk w1)
        else (Returned, w1)
    | None => (Threw, w)
    end
  else (Returned, w).

Definition handleResize (clientId : string) (data : ResizeData) (w : World)
    : World :=
  let '(connection, w) := SSHManager.getConnection clientId w in
  if SSHConnection.isConnected connection w then
    if truthy (rs_sessionId data) then
      (SSHConnection.resizeShell connection (default EmptyString (rs_sessionId data))
         (rs_cols data) (rs_rows data) w).2
    else SSHConnection.resize connection (rs_cols data) (rs_rows data) w
  else w.

Definition handleCloseShell (ws : WsRef) (clientId : string)
    (sessionId : option string) (w : World) : World :=
  let '(connection, w) := SSHManager.getConnection clientId w in
  if truthy sessionId && SSHConnection.isConnected connection w then
    let '(closed, w) :=
      SSHConnection.closeShell connection (default EmptyString sessionId) w in
    sendFn ws (ssh_shell_closed (default EmptyString sessionId) (Some closed)) w
  else w.

Definition handleListShells (ws : WsRef) (clientId : string) (w : World)
    : World :=
  let '(connection, w) := SSHManager.getConnection clientId w in
  let shells :=
    if SSHConnection.isConnected connection w
    then SSHConnection.getActiveShells connection w else [] in
  sendFn ws (ssh_list_shells_response shells) w.

Definition handleDisconnect (ws : WsRef) (clientId : string) (w : World)
    : World :=
  sendFn ws (ssh_status "disconnected" "Disconnected")
    (SSHManager.removeConnection clientId w).

Definition handlePortForward (ws : WsRef) (clientId : string)
    (data : PortForwardData) (w : World) : World :=
  let '(connection, w) := SSHManager.getConnection clientId w in
  if negb (SSHConnection.isConnected connection w) then
    sendFn ws (ssh_port_forward_response false (pf_localPort data)
                 (Some "SSH not connected")) w
  else
    let '(p, w) := SSHConnection.setupPortForward connection data w in
    await p (AfterPortForward ws (pf_localPort data)) w.

Definition handleStopPortForward (ws : WsRef) (clientId : string)
    (localPort : Z) (w : World) : World :=
  let '(connection, w) := SSHManager.getConnection clientId w in
  let w :=
    if SSHConnection.isConnected connection w
    then SSHConnection.stopPortForward connection localPort w else w in
  sendFn ws (ssh_port_forward_response true localPort
               (Some "Port forward stopped")) w.

(** [handle]: the [switch] on [message.type]; an unknown type is logged. *)
Definition handle (ws : WsRef) (clientId : string) (message : ClientMessage)
    (w : World) : Outcome * World :=
  match message with
  | ssh_connect data => (Returned, handleConnect ws clientId data w)
  | ssh_start_shell data => (Returned, handleStartShell ws clientId data w)
  | ssh_input data => handleInput clientId data w
  | ssh_resize data => (Returned, handleResize clientId data w)
  | ssh_disconnect => (Returned, handleDisconnect ws clientId w)
  | ssh_close_shell sessionId =>
      (Returned, handleCloseShell ws clientId sessionId w)
  | ssh_list_shells => (Returned, handleListShells ws clientId w)
  | ssh_port_forward data => (Returned, handlePortForward ws clientId data w)
  | ssh_stop_port_forward localPort =>
      (Returned, handleStopPortForward ws clientId localPort w)
  | ssh_unknown _ => (Returned, w)
  end.

Definition cleanup (clientId : string) (w : World) : World :=
  SSHManager.removeConnection clientId w.

End SSHHandler.

(** ** AuthManager (auth.js); [authToken] is [CONFIG.authToken], the token
    is a string or missing. *)

Module AuthManager.

Definition validateToken (authToken : string) (token : option string) : bool :=
  if bool_decide (authToken = EmptyString) then true
  else bool_decide (token = Some authToken).

End AuthManager.

(** ** Events *)

(** The server reacts to one event at a time: a client message, an event
    of an ssh2 client, the answer to a [client.shell] call, an event of a
    channel or of a net server, or the loss of a client's transport. *)
Inductive Event :=
  | Message (ws : WsRef) (clientId : string) (message : ClientMessage)
  | ClientReady (c : ConnRef)
  | ClientError (c : ConnRef) (err : string)
  | ClientClose (c : ConnRef)
  | ShellAnswer (r : ReqRef) (err : option string)
  | StreamData (s : StreamRef) (data : string)
  | StreamClose (s : StreamRef)
  | ServerListening (s : ServerRef)
  | ServerError (s : ServerRef) (err : string)
  | TransportClose (clientId : string).

Definition listeners_of (c : ConnRef) (w : World) : list PromiseRef :=
  match conns w !! c with
  | Some conn => cl_listeners (client conn)
  | None => []
  end.

Definition mark_answered (r : ShellReq) : ShellReq :=
  mkShellReq (rq_this r) (rq_sessionId r) (rq_onData r) (rq_onClose r)
    (rq_cols r) (rq_rows r) (rq_promise r) true.

(** The listeners of an event of a client run in registration order. *)
Definition emit_ready (this : ConnRef) (l : list PromiseRef) (w : World)
    : World :=
  foldl (λ w p, SSHConnection.on_ready this p w) w l.
Definition emit_error (this : ConnRef) (err : string) (l : list PromiseRef)
    (w : World) : World :=
  foldl (λ w p, SSHConnection.on_error this err p w) w l.
Definition emit_close (this : ConnRef) (l : list PromiseRef) (w : World)
    : World :=
  foldl (λ w p, SSHConnection.on_close this p w) w l.

(** A [client.shell] call is answered once, a channel emits 'close' once
    and no data after it, a server emits 'listening' only while binding. *)
Definition step (e : Event) (w : World) : World :=
  match e with
  | Message ws clientId message => (SSHHandler.handle ws clientId message w).2
  | ClientReady c => emit_ready c (listeners_of c w) w
  | ClientError c err => emit_error c err (listeners_of c w) w
  | ClientClose c => emit_close c (listeners_of c w) w
  | ShellAnswer r err =>
      match shellReqs w !! r with
      | Some rq =>
          if rq_answered rq then w
          else SSHConnection.shell_callback rq err
                 (set_shellReqs (alter mark_answered r) w)
      | None => w
      end
  | StreamData s data =>
      match streams w !! s with
      | Some st =>
          if st_closed st then w else SSHConnection.stream_on_data st data w
      | None => w
      end
  | StreamClose s =>
      match streams w !! s with
      | Some st =>
          if st_closed st then w
          else SSHConnection.stream_on_close st (upd_stream s stream_closed w)
      | None => w
      end
  | ServerListening s =>
      match servers w !! s with
      | Some sv =>
          match sv_state sv with
          | Binding =>
              SSHConnection.server_on_listening s sv
                (upd_server s (server_set_state Listening) w)
          | _ => w
          end
      | None => w
      end
  | ServerError s err =>
      match servers w !! s with
      | Some sv =>
          SSHConnection.server_on_error sv err
            (match sv_state sv with
             | Binding => upd_server s (server_set_state Failed) w
             | _ => w
             end)
      | None => w
      end
  | TransportClose clientId => SSHHandler.cleanup clientId w
  end.

Definition run (es : list Event) (w : World) : World :=
  foldl (λ w e, step e w) w es.

(** ** Well-formed worlds *)

(** The registry only holds instances of the store. *)
Definition manager_wf (w : World) : Prop :=
  ∀ (clientId : string) (c : ConnRef),
    connections w !! clientId = Some c → c < length (conns w).

(** Every entry of a shell map is the stream that was opened for that
    connection under that session id. *)
Definition shells_wf (w : World) : Prop :=
  ∀ (c : ConnRef) (conn : SSHConnection) (sessionId : string) (s : StreamRef),
    conns w !! c = Some conn →
    JSMap.get sessionId (shells conn) = Some s →
    ∃ st, streams w !! s = Some st ∧ st_owner st = c ∧
          st_sessionId st = sessionId.

(** A server whose listener has been closed. *)
Definition server_closed (s : ServerRef) (w : World) : Prop :=
  ∃ sv, servers w !! s = Some sv ∧ sv_state sv = Closed.

(** The closures of the handler: the [onClose] of a shell request, and of
    the stream opened for it, notifies the request's own session id. *)
Definition req_ok (r : ShellReq) : Prop :=
  ∃ ws, rq_onClose r = ClosedTo ws (rq_sessionId r).
Definition stream_ok (st : Stream) : Prop :=
  ∃ ws, st_onClose st = ClosedTo ws (st_sessionId st).

(** ** Counting closures and their notifications *)

Fixpoint count {A} (f : A → bool) (l : list A) : nat :=
  match l with
  | [] => 0
  | x :: l => (if f x then 1 else 0) + count f l
  end.

(** [ssh_shell_closed] messages for a session: all of them, those sent by
    [onClose] (no [success] field) and those sent by [handleCloseShell]. *)
Definition is_shell_closed (sessionId : string) (m : WsRef * ServerMessage)
    : bool :=
  match m.2 with
  | ssh_shell_closed s _ => bool_decide (s = sessionId)
  | _ => false
  end.
Definition is_onClose_notification (sessionId : string)
    (m : WsRef * ServerMessage) : bool :=
  match m.2 with
  | ssh_shell_closed s None => bool_decide (s = sessionId)
  | _ => false
  end.
Definition is_close_response (sessionId : string) (m : WsRef * ServerMessage)
    : bool :=
  match m.2 with
  | ssh_shell_closed s (Some _) => bool_decide (s = sessionId)
  | _ => false
  end.

(** A stream of the session whose 'close' event has been emitted. *)
Definition closed_stream (sessionId : string) (st : Stream) : bool :=
  st_closed st && bool_decide (st_sessionId st = sessionId).

Definition closures (sessionId : string) (w : World) : nat :=
  count (closed_stream sessionId) (streams w).
Definition shell_closed_messages (sessionId : string) (w : World) : nat :=
  count (is_shell_closed sessionId) (outbox w).
Definition onClose_notifications (sessionId : string) (w : World) : nat :=
  count (is_onClose_notification sessionId) (outbox w).
Definition close_responses (sessionId : string) (w : World) : nat :=
  count (is_close_response sessionId) (outbox w).

Record Inv (w : World) : Prop := mkInv {
  inv_manager : manager_wf w;
  inv_shells : shells_wf w;
  inv_reqs : Forall req_ok (shellReqs w);
  inv_streams : Forall stream_ok (streams w);
  inv_count : ∀ sessionId,
    onClose_notifications sessionId w = closures sessionId w;
}.

(** ** Example runs *)

Definition example_login : ConnectData :=
  {| cd_host := "example.org"; cd_port := 22; cd_username := "dev";
     cd_privateKey := None; cd_password := Some "secret" |}.

Definition start (sessionId : string) : ClientMessage :=
  ssh_start_shell (Some {| ss_sessionId := Some sessionId;
                           ss_cols := None; ss_rows := None |}).

(** Client "client_1" connects and opens the shells "a" and "b". *)
Definition two_shells : list Event :=
  [ Message 1 "client_1" (ssh_connect example_login); ClientReady 0;
    Message 1 "client_1" (start "a"); ShellAnswer 0 None;
    Message 1 "client_1" (start "b"); ShellAnswer 1 None ].

(** The connection of "client_1" after that run. *)
Definition two_shells_conn : SSHConnection :=
  Eval vm_compute in
    default new_SSHConnection (conns (run two_shells initial) !! 0).
(** Then it closes shell "a", and the channel of "a" closes. *)
Definition explicit_close : list Event :=
  two_shells ++
  [ Message 1 "client_1" (ssh_close_shell (Some "a")); StreamClose 0 ].

(** ** Further runs *)

(** After [two_shells], shell "a" is closed by request and opened again
    before the old channel of "a" reports its closure. *)
Definition reopened : list Event :=
  two_shells ++
  [ Message 1 "client_1" (ssh_close_shell (Some "a"));
    Message 1 "client_1" (start "a"); ShellAnswer 2 None ].

(** A connection without shell, forward or live client. *)
Definition torn_down (c : ConnRef) (w : World) : Prop :=
  ∃ conn, conns w !! c = Some conn ∧ shells conn = [] ∧
          portForwards conn = ∅ ∧ connected conn = false.


(** ** Further invariants *)

(** Session ids are unique within a shell map. *)
Definition sessions_unique (w : World) : Prop :=
  ∀ (c : ConnRef) (conn : SSHConnection),
    conns w !! c = Some conn → NoDup (JSMap.keys (shells conn)).

(** Distinct clients have distinct instances. *)
Definition registry_injective (w : World) : Prop :=
  ∀ (clientId1 clientId2 : string) (c : ConnRef),
    connections w !! clientId1 = Some c →
    connections w !! clientId2 = Some c → clientId1 = clientId2.

(** Every shell of a shell map is live: its channel has not emitted
    'close' and its [close] has not been called. *)
Definition shells_live (w : World) : Prop :=
  ∀ (c : ConnRef) (conn : SSHConnection) (sessionId : string) (s : StreamRef),
    conns w !! c = Some conn →
    JSMap.get sessionId (shells conn) = Some s →
    ∃ st, streams w !! s = Some st ∧ st_closed st = false ∧
          st_closeCalls st = 0.

(** Every entry of a forward map is a listening server created for that
    connection and that local port. *)
Definition forwards_wf (w : World) : Prop :=
  ∀ (c : ConnRef) (conn : SSHConnection) (localPort : Z) (s : ServerRef),
    conns w !! c = Some conn →
    portForwards conn !! localPort = Some s →
    ∃ sv, servers w !! s = Some sv ∧ sv_owner sv = c ∧
          pf_localPort (sv_config sv) = localPort ∧ sv_state sv = Listening.

Record Inv2 (w : World) : Prop := mkInv2 {
  inv_unique : sessions_unique w;
  inv_injective : registry_injective w;
  inv_live : shells_live w;
  inv_forwards : forwards_wf w;
}.


(** After [two_shells], the client forwards local port 9000, and the
    listener is bound. *)
Definition forwarding : list Event :=
  two_shells ++
  [ Message 1 "client_1"
      (ssh_port_forward {| pf_localPort := 9000; pf_remoteHost := "127.0.0.1";
                           pf_remotePort := 80 |});
    ServerListening 0 ].

Definition forwarding_conn : SSHConnection :=
  Eval vm_compute in
    default new_SSHConnection (conns (run forwarding initial) !! 0).


(** [w'] differs from [w] only in what belongs to the connection [this]:
    the registry, the other instances, and the channels and servers of
    the other instances are the same. *)
Definition untouched_by (this : ConnRef) (w w' : World) : Prop :=
  connections w' = connections w ∧
  (∀ c, c ≠ this → conns w' !! c = conns w !! c) ∧
  (∀ s st, streams w !! s = Some st → st_owner st ≠ this →
           streams w' !! s = Some st) ∧
  (∀ s sv, servers w !! s = Some sv → sv_owner sv ≠ this →
           servers w' !! s = Some sv).


(** A promise that has been fulfilled or rejected. *)
Definition settled (p : PromiseRef) (w : World) : Prop :=
  ∃ st, promise_state p w = Some st ∧ st ≠ Pending.


(** The callbacks of a shell request, and of the channel opened for it,
    send to one and the same socket under the request's own session id. *)
Definition req_routes (r : ShellReq) : Prop :=
  ∃ ws, rq_onData r = OutputTo ws (rq_sessionId r) ∧
        rq_onClose r = ClosedTo ws (rq_sessionId r).
Definition stream_routes (st : Stream) : Prop :=
  ∃ ws, st_onData st = OutputTo ws (st_sessionId st) ∧
        st_onClose st = ClosedTo ws (st_sessionId st).

Definition Inv3 (w : World) : Prop :=
  Forall req_routes (shellReqs w) ∧ Forall stream_routes (streams w).


(** After [two_shells], a second client "client_2" connects on its own
    socket and opens a shell that is also called "a". *)
Definition two_clients : list Event :=
  two_shells ++
  [ Message 2 "client_2" (ssh_connect example_login); ClientReady 1;
    Message 2 "client_2" (start "a"); ShellAnswer 2 None ].

(** A first connection attempt of "client_1" that the server refuses. *)
Definition refused : list Event :=
  [ Message 1 "client_1" (ssh_connect example_login);
    ClientError 0 "ECONNREFUSED" ].

Definition refused_conn : SSHConnection :=
  Eval vm_compute in
    default new_SSHConnection (conns (run refused initial) !! 0).

Definition example_forward : PortForwardData :=
  {| pf_localPort := 9000; pf_remoteHost := "127.0.0.1"; pf_remotePort := 80 |}.


(** ** What the libraries refuse *)

(** The ports [net] takes: [server.listen] and [socket.connect] throw
    ERR_SOCKET_BAD_PORT for a number outside this range. *)
Definition valid_port (port : Z) : Prop := (0 ≤ port < 65536)%Z.

(** Configurations on which [client.connect] returns: password or no
    credential, a user name, a port [net] takes. On a private key that
    ssh2 cannot parse, on an empty user name and on a port out of range
    it throws inside the executor of [connect], and the promise is
    rejected before any event of the client. *)
Definition connect_returns (config : ConnectData) : Prop :=
  truthy (cd_privateKey config) = false ∧
  cd_username config ≠ EmptyString ∧
  valid_port (cd_port config).

(** [ssh_input] data that, when it is an object, has an [input] field;
    without it the chunk handed to [write] is [undefined], which a
    channel refuses by throwing. *)
Definition has_input (data : option InputData) : Prop :=
  ∀ sessionId, data ≠ Some (InputObj sessionId None).

(** * Properties *)

(** ** Stores and updates *)

Lemma alter_fixed {A} (f : A → A) (i : nat) (l : list A) (x : A) :
  l !! i = Some x → f x = x → alter f i l = l.
Proof.
  intros Hl Hf. apply list_eq. intros j.
  destruct (decide (i = j)) as [<-|Hne].
  - rewrite list_lookup_alter_eq, Hl. simpl. by rewrite Hf.
  - by rewrite list_lookup_alter_ne.
Qed.

Lemma upd_conn_fixed this f w c :
  conns w !! this = Some c → f c = c → upd_conn this f w = w.
Proof.
  intros Hc Hf. destruct w. unfold upd_conn, set_conns. simpl in *.
  by rewrite (alter_fixed f this _ c).
Qed.

Lemma conns_upd_conn this f w :
  conns (upd_conn this f w) = alter f this (conns w).
Proof. reflexivity. Qed.

Lemma lookup_upd_conn this f w c :
  conns w !! this = Some c → conns (upd_conn this f w) !! this = Some (f c).
Proof. intros H. rewrite conns_upd_conn, list_lookup_alter_eq, H. done. Qed.

(** ** [JSMap] *)

Section JSMap_facts.
Context {K V : Type} `{EqDecision K}.
Implicit Types (k : K) (v : V) (m : list (K * V)).

Lemma get_set_eq k v m : JSMap.get k (JSMap.set k v m) = Some v.
Proof.
  induction m as [|[k' v'] m IH]; simpl.
  - by rewrite decide_True.
  - destruct (decide (k = k')) as [->|Hne]; simpl.
    + by rewrite decide_True.
    + by rewrite decide_False.
Qed.

Lemma get_set_ne k k' v m :
  k ≠ k' → JSMap.get k' (JSMap.set k v m) = JSMap.get k' m.
Proof.
  intros Hne. induction m as [|[k0 v0] m IH]; simpl.
  - by rewrite decide_False.
  - destruct (decide (k = k0)) as [->|Hne0]; simpl.
    + by rewrite !decide_False.
    + by rewrite IH.
Qed.

Lemma get_delete_eq k m : JSMap.get k (JSMap.delete k m) = None.
Proof.
  unfold JSMap.delete. induction m as [|[k' v'] m IH]; [done|].
  rewrite filter_cons. simpl. destruct (decide (k' ≠ k)) as [Hne|Heq]; simpl.
  - by rewrite decide_False.
  - done.
Qed.

Lemma get_delete_ne k k' m :
  k ≠ k' → JSMap.get k' (JSMap.delete k m) = JSMap.get k' m.
Proof.
  intros Hne. unfold JSMap.delete.
  induction m as [|[k0 v0] m IH]; [done|].
  rewrite filter_cons. simpl. destruct (decide (k0 ≠ k)) as [Hne0|Heq]; simpl.
  - by rewrite IH.
  - apply dec_stable in Heq as ->. by rewrite decide_False.
Qed.

Lemma get_Some_keys k v m : JSMap.get k m = Some v → k ∈ JSMap.keys m.
Proof.
  unfold JSMap.keys. induction m as [|[k' v'] m IH]; simpl; [done|].
  destruct (decide (k = k')) as [->|Hne]; intros Hg.
  - apply list_elem_of_here.
  - apply list_elem_of_further. auto.
Qed.

Lemma has_true k m : JSMap.has k m = true ↔ is_Some (JSMap.get k m).
Proof.
  unfold JSMap.has. destruct (JSMap.get k m); split; intros Hx; try done.
Qed.
End JSMap_facts.

(** ** AuthManager *)

(** C8. With no secret configured every token is accepted; with a secret
    configured a token is accepted exactly when it is that secret. *)
Theorem validateToken_spec (authToken : string) (token : option string) :
  (authToken = EmptyString → AuthManager.validateToken authToken token = true) ∧
  (authToken ≠ EmptyString →
     (AuthManager.validateToken authToken token = true ↔ token = Some authToken)).
Proof.
  unfold AuthManager.validateToken. split; intros Ha.
  - by rewrite bool_decide_true.
  - rewrite bool_decide_false by done. by rewrite bool_decide_eq_true.
Qed.

Lemma validateToken_spec_witness :
  (EmptyString = EmptyString → AuthManager.validateToken EmptyString (Some "any-token") = true) ∧
  ("test-token" ≠ EmptyString →
     (AuthManager.validateToken "test-token" (Some "wrong-token") = true ↔
      Some "wrong-token" = Some "test-token")).
Proof.
  split.
  - apply (validateToken_spec EmptyString (Some "any-token")).
  - apply (validateToken_spec "test-token" (Some "wrong-token")).
Defined.

(** ** SSHManager *)

Lemma conns_close_all_shells m w :
  conns (SSHConnection.close_all_shells m w) = conns w.
Proof.
  unfold SSHConnection.close_all_shells.
  revert w. induction m as [|kv m IH]; intros w; simpl; [done|].
  by rewrite IH.
Qed.

Lemma conns_close_all_servers m w :
  conns (SSHConnection.close_all_servers m w) = conns w.
Proof.
  unfold SSHConnection.close_all_servers.
  generalize (map_to_list m). intros l.
  revert w. induction l as [|kv l IH]; intros w; simpl; [done|].
  by rewrite IH.
Qed.

Lemma connections_close_all_shells m w :
  connections (SSHConnection.close_all_shells m w) = connections w.
Proof.
  unfold SSHConnection.close_all_shells.
  revert w. induction m as [|kv m IH]; intros w; simpl; [done|].
  by rewrite IH.
Qed.

Lemma connections_close_all_servers m w :
  connections (SSHConnection.close_all_servers m w) = connections w.
Proof.
  unfold SSHConnection.close_all_servers.
  generalize (map_to_list m). intros l.
  revert w. induction l as [|kv l IH]; intros w; simpl; [done|].
  by rewrite IH.
Qed.

(** What [disconnect] leaves of the connection: nothing but its client. *)
Lemma conns_disconnect this w c :
  conns w !! this = Some c →
  conns (SSHConnection.disconnect this w) =
    <[this := mkSSHConnection [] ∅ false
                (if connected c then client_end (client c) else client c)]>
      (conns w).
Proof.
  intros Hc. unfold SSHConnection.disconnect. rewrite Hc.
  assert (Hlt : this < length (conns w)) by by eapply lookup_lt_Some.
  apply list_eq. intros j.
  destruct (connected c) eqn:Hcon; rewrite ?conns_upd_conn,
    conns_close_all_servers, conns_upd_conn, conns_close_all_shells;
    (destruct (decide (this = j)) as [<-|Hne];
     [ rewrite list_lookup_insert_eq by done;
       rewrite ?list_lookup_alter_eq, Hc; simpl;
       unfold set_connected, set_client, set_portForwards, set_shells; simpl;
       by rewrite ?Hcon
     | by rewrite list_lookup_insert_ne, ?list_lookup_alter_ne by done ]).
Qed.

Lemma length_conns_disconnect this w :
  length (conns (SSHConnection.disconnect this w)) = length (conns w).
Proof.
  destruct (conns w !! this) as [c|] eqn:Hc.
  - rewrite (conns_disconnect this w c Hc). by rewrite length_insert.
  - unfold SSHConnection.disconnect. by rewrite Hc.
Qed.

Lemma connections_disconnect this w :
  connections (SSHConnection.disconnect this w) = connections w.
Proof.
  unfold SSHConnection.disconnect. destruct (conns w !! this) as [c|]; [|done].
  destruct (connected c); simpl;
    by rewrite connections_close_all_servers; simpl;
       rewrite connections_close_all_shells.
Qed.

Lemma getConnection_present clientId w c :
  connections w !! clientId = Some c →
  SSHManager.getConnection clientId w = (c, w).
Proof. intros H. unfold SSHManager.getConnection. by rewrite H. Qed.

Lemma getConnection_absent clientId w :
  connections w !! clientId = None →
  SSHManager.getConnection clientId w =
    (length (conns w),
     set_connections (<[clientId := length (conns w)]>)
       (set_conns (λ cs, cs ++ [new_SSHConnection]) w)).
Proof. intros H. unfold SSHManager.getConnection. by rewrite H. Qed.

Lemma connections_removeConnection clientId w :
  connections (SSHManager.removeConnection clientId w) !! clientId = None.
Proof.
  unfold SSHManager.removeConnection.
  destruct (connections w !! clientId) as [c|] eqn:Hc; [|done].
  simpl. apply lookup_delete_eq.
Qed.

Lemma length_conns_removeConnection clientId w :
  length (conns (SSHManager.removeConnection clientId w)) = length (conns w).
Proof.
  unfold SSHManager.removeConnection.
  destruct (connections w !! clientId) as [c|]; [|done].
  simpl. apply length_conns_disconnect.
Qed.

(** C1. Two successive [getConnection] calls for a client return the same
    instance and the second changes nothing; after [removeConnection] the
    next [getConnection] returns a new instance, different from the first
    and from every instance that existed, unconnected, with no shell and no
    port forward. *)
Theorem getConnection_instance (clientId : string) (w : World) :
  manager_wf w →
  let r1 := SSHManager.getConnection clientId w in
  let r2 := SSHManager.getConnection clientId r1.2 in
  let r3 := SSHManager.getConnection clientId
              (SSHManager.removeConnection clientId r2.2) in
  (r2.1 = r1.1 ∧ r2.2 = r1.2) ∧
  r3.1 ≠ r1.1 ∧
  (∀ c : ConnRef, is_Some (conns r2.2 !! c) → r3.1 ≠ c) ∧
  SSHConnection.isConnected r3.1 r3.2 = false ∧
  ∃ c3, conns r3.2 !! r3.1 = Some c3 ∧ connected c3 = false ∧
        shells c3 = [] ∧ portForwards c3 = ∅.
Proof.
  intros Hwf r1 r2 r3.
  assert (Hr1 : connections r1.2 !! clientId = Some r1.1).
  { subst r1. unfold SSHManager.getConnection.
    destruct (connections w !! clientId) as [c|] eqn:Hc; simpl; [done|].
    apply lookup_insert_eq. }
  assert (Hlt : r1.1 < length (conns r1.2)).
  { subst r1. unfold SSHManager.getConnection.
    destruct (connections w !! clientId) as [c|] eqn:Hc; simpl.
    - by eapply Hwf.
    - rewrite length_app. simpl. lia. }
  assert (Hr2 : r2 = r1).
  { subst r2. rewrite (getConnection_present _ _ _ Hr1). by destruct r1. }
  assert (Hr3 : r3 = (length (conns r2.2),
     set_connections (<[clientId := length (conns r2.2)]>)
       (set_conns (λ cs, cs ++ [new_SSHConnection])
          (SSHManager.removeConnection clientId r2.2)))).
  { subst r3. rewrite getConnection_absent
      by apply connections_removeConnection.
    by rewrite length_conns_removeConnection. }
  clearbody r3 r2. subst r3 r2. simpl.
  assert (Hnew : (conns (SSHManager.removeConnection clientId r1.2)
                  ++ [new_SSHConnection]) !! length (conns r1.2)
                 = Some new_SSHConnection).
  { rewrite lookup_app_r by (rewrite length_conns_removeConnection; lia).
    by rewrite length_conns_removeConnection, Nat.sub_diag. }
  split; [done|]. split; [lia|]. split; [|split].
  - intros c [x Hx] Heq. apply lookup_lt_Some in Hx. lia.
  - unfold SSHConnection.isConnected. simpl. by rewrite Hnew.
  - by exists new_SSHConnection.
Qed.


(** ** Promises *)

Lemma promise_state_new w :
  promise_state (new_promise w).1 (new_promise w).2 = Some Pending.
Proof.
  unfold promise_state, new_promise. simpl.
  by rewrite lookup_app_r, Nat.sub_diag by lia.
Qed.

(** Rejecting the promise just created, before anything awaits it, only
    records the rejection. *)
Lemma reject_new_promise message w :
  reject (new_promise w).1 message (new_promise w).2 =
    set_promises (λ ps, ps ++ [mkPromise (Rejected message) None]) w.
Proof.
  unfold reject, new_promise. simpl.
  rewrite lookup_app_r, Nat.sub_diag by lia. simpl.
  destruct w. unfold set_promises. simpl. f_equal.
  rewrite insert_app_r_alt, Nat.sub_diag by lia. done.
Qed.

Lemma promise_state_rejected_new message w :
  promise_state (length (promises w))
    (set_promises (λ ps, ps ++ [mkPromise (Rejected message) None]) w) =
  Some (Rejected message).
Proof.
  unfold promise_state. simpl. by rewrite lookup_app_r, Nat.sub_diag by lia.
Qed.

(** ** SSHConnection: the failures of [startShell] and [setupPortForward] *)

(** C3. [startShell] on a connection that is not connected, or for a
    session id already in the shell map, returns a promise that is already
    rejected; no shell is requested, and the shell map and every stream are
    as before: the rejected promise is the only change. *)
Theorem startShell_fails (this : ConnRef) (sessionId : string)
    (onData : DataCallback) (onClose : CloseCallback) (cols rows : Z)
    (w : World) (c : SSHConnection) :
  conns w !! this = Some c →
  connected c = false ∨ JSMap.has sessionId (shells c) = true →
  let r := SSHConnection.startShell this sessionId onData onClose cols rows w in
  let message :=
    if connected c then "Shell session " +:+ sessionId +:+ " already exists"
    else "SSH not connected" in
  promise_state r.1 r.2 = Some (Rejected message) ∧
  r.2 = set_promises (λ ps, ps ++ [mkPromise (Rejected message) None]) w ∧
  conns r.2 = conns w ∧ streams r.2 = streams w ∧
  shellReqs r.2 = shellReqs w.
Proof.
  intros Hc Hfail r message.
  assert (Hr : r = (length (promises w),
            set_promises (λ ps, ps ++ [mkPromise (Rejected message) None]) w)).
  { subst r message. unfold SSHConnection.startShell.
    pose proof (reject_new_promise "SSH not connected" w) as Hn.
    pose proof (reject_new_promise
      ("Shell session " +:+ sessionId +:+ " already exists") w) as Hd.
    unfold new_promise in *. simpl in *. rewrite Hc.
    destruct (connected c) eqn:Hcon; simpl.
    - destruct Hfail as [?|Hhas]; [done|]. rewrite Hhas. by rewrite Hd.
    - by rewrite Hn. }
  clearbody r. subst r. simpl.
  split; [apply promise_state_rejected_new|done].
Qed.

(** C4. [setupPortForward] on a connection that is not connected, or for a
    local port already in the forward map, returns a rejected promise and
    creates no server; when the checks pass and the bind fails (the
    server's 'error' event), the promise is rejected with that error, and a
    later 'listening' event is not possible. In all three cases the
    connection, and so its forward map, is as before the call. *)
Theorem setupPortForward_fails (this : ConnRef) (config : PortForwardData)
    (w : World) (c : SSHConnection) :
  conns w !! this = Some c →
  let r := SSHConnection.setupPortForward this config w in
  (connected c = false ∨ is_Some (portForwards c !! pf_localPort config) →
     (∃ message, promise_state r.1 r.2 = Some (Rejected message)) ∧
     conns r.2 = conns w ∧ servers r.2 = servers w) ∧
  (connected c = true → portForwards c !! pf_localPort config = None →
     ∀ err : string,
       let w' := step (ServerError (length (servers w)) err) r.2 in
       promise_state r.1 w' = Some (Rejected err) ∧
       conns w' = conns w ∧
       step (ServerListening (length (servers w))) w' = w').
Proof.
  intros Hc r. split.
  - intros Hfail.
    assert (Hr : ∃ message, r = (length (promises w),
       set_promises (λ ps, ps ++ [mkPromise (Rejected message) None]) w)).
    { subst r. unfold SSHConnection.setupPortForward.
      pose proof (reject_new_promise "SSH not connected" w) as Hn.
      pose proof (reject_new_promise
        ("Port " +:+ pretty (pf_localPort config) +:+ " is already forwarded")
        w) as Hd.
      unfold new_promise in *. simpl in *. rewrite Hc.
      destruct (connected c) eqn:Hcon; simpl.
      - destruct Hfail as [?|Hhas]; [done|].
        rewrite bool_decide_true by done. rewrite Hd. by eexists.
      - rewrite Hn. by eexists. }
    destruct Hr as [message Hr]. clearbody r. subst r. simpl.
    split; [|done]. exists message. apply promise_state_rejected_new.
  - intros Hcon Hfree err.
    assert (Hr : r = (length (promises w),
       set_servers (λ ss, ss ++ [mkServer this config (length (promises w))
                                   Binding 0])
         (set_promises (λ ps, ps ++ [mkPromise Pending None]) w))).
    { subst r. unfold SSHConnection.setupPortForward, new_promise. simpl.
      rewrite Hc, Hcon. simpl. rewrite bool_decide_false; [done|].
      rewrite Hfree. by intros [? ?]. }
    clearbody r. subst r. simpl.
    rewrite lookup_app_r, Nat.sub_diag by lia. simpl.
    unfold SSHConnection.server_on_error, reject. simpl.
    rewrite lookup_app_r, Nat.sub_diag by lia. simpl.
    split; [|split; [done|]].
    + unfold promise_state. simpl.
      rewrite insert_app_r_alt, Nat.sub_diag by lia. simpl.
      by rewrite lookup_app_r, Nat.sub_diag by lia.
    + rewrite list_lookup_alter_eq.
      rewrite lookup_app_r, Nat.sub_diag by lia. done.
Qed.

Lemma conns_reject p message w : conns (reject p message w) = conns w.
Proof.
  unfold reject. destruct (promises w !! p) as [[[] [k|]]|]; try done;
    by destruct k.
Qed.

Lemma conns_resolve p w : conns (resolve p w) = conns w.
Proof.
  unfold resolve. destruct (promises w !! p) as [[[] [k|]]|]; try done;
    by destruct k.
Qed.

(** A server's 'error' event never touches a connection: whatever the
    state of the server, nothing is registered by it. *)
Lemma conns_step_ServerError s err w :
  conns (step (ServerError s err) w) = conns w.
Proof.
  simpl. destruct (servers w !! s) as [sv|]; [|done].
  unfold SSHConnection.server_on_error. rewrite conns_reject.
  by destruct (sv_state sv).
Qed.

(** ** SSHConnection: [disconnect] *)

Lemma close_all_shells_nil w : SSHConnection.close_all_shells [] w = w.
Proof. done. Qed.

Lemma close_all_servers_empty w : SSHConnection.close_all_servers ∅ w = w.
Proof. unfold SSHConnection.close_all_servers. by rewrite map_to_list_empty. Qed.

(** On a connection with no shell, no forward and [connected = false],
    [disconnect] changes nothing at all. *)
Lemma disconnect_torn_down this w c :
  conns w !! this = Some c →
  shells c = [] → portForwards c = ∅ → connected c = false →
  SSHConnection.disconnect this w = w.
Proof.
  intros Hc Hs Hp Hcon. unfold SSHConnection.disconnect.
  rewrite Hc, Hs, Hp, Hcon, close_all_shells_nil.
  rewrite (upd_conn_fixed this _ w c), close_all_servers_empty; try done.
  - apply (upd_conn_fixed this _ w c); [done|].
    destruct c; unfold set_portForwards; simpl in *; by subst.
  - destruct c; unfold set_shells; simpl in *; by subst.
Qed.

Lemma servers_close_all_shells m w :
  servers (SSHConnection.close_all_shells m w) = servers w.
Proof.
  unfold SSHConnection.close_all_shells.
  revert w. induction m as [|kv m IH]; intros w; simpl; [done|].
  by rewrite IH.
Qed.

Lemma close_servers_keeps_closed (l : list (Z * ServerRef)) s w :
  server_closed s w →
  server_closed s (foldl (λ w kv, upd_server kv.2 server_close w) w l).
Proof.
  revert w. induction l as [|kv l IH]; intros w Hs; simpl; [done|].
  apply IH. destruct Hs as (sv & Hsv & Hst). unfold server_closed. simpl.
  destruct (decide (kv.2 = s)) as [->|Hne].
  - exists (server_close sv). by rewrite list_lookup_alter_eq, Hsv.
  - exists sv. by rewrite list_lookup_alter_ne.
Qed.

Lemma close_servers_closes (l : list (Z * ServerRef)) lp s w :
  (lp, s) ∈ l → s < length (servers w) →
  server_closed s (foldl (λ w kv, upd_server kv.2 server_close w) w l).
Proof.
  revert w. induction l as [|kv l IH]; intros w Hin Hlt.
  - by apply elem_of_nil in Hin.
  - simpl. apply elem_of_cons in Hin as [<-|Hin].
    + apply close_servers_keeps_closed. unfold server_closed. simpl.
      destruct (lookup_lt_is_Some_2 (servers w) s Hlt) as [sv Hsv].
      exists (server_close sv). by rewrite list_lookup_alter_eq, Hsv.
    + apply IH; [done|]. simpl. by rewrite length_alter.
Qed.

(** The listener of every forward of the connection is closed by
    [disconnect]. *)
Lemma disconnect_closes_servers this w c lp s :
  conns w !! this = Some c → portForwards c !! lp = Some s →
  s < length (servers w) →
  server_closed s (SSHConnection.disconnect this w).
Proof.
  intros Hc Hs Hlt.
  assert (Hcl : server_closed s
    (SSHConnection.close_all_servers (portForwards c)
       (upd_conn this (set_shells (λ _, []))
          (SSHConnection.close_all_shells (shells c) w)))).
  { apply (close_servers_closes _ lp).
    - by apply elem_of_map_to_list.
    - simpl. by rewrite servers_close_all_shells. }
  unfold SSHConnection.disconnect. rewrite Hc.
  by destruct (connected c).
Qed.

(** C2. After [disconnect], [isConnected] is false, [getActiveShells] is
    empty and the forward map is empty, the listeners of its forwards
    being closed; a second [disconnect] changes nothing, and on a
    connection that was never connected (as created) [disconnect] changes
    nothing. The model's [disconnect] is total: the code has no failing
    path. *)
Theorem disconnect_teardown (this : ConnRef) (w : World) (c : SSHConnection) :
  conns w !! this = Some c →
  let w' := SSHConnection.disconnect this w in
  SSHConnection.isConnected this w' = false ∧
  SSHConnection.getActiveShells this w' = [] ∧
  (∃ c', conns w' !! this = Some c' ∧ portForwards c' = ∅ ∧ shells c' = [] ∧
         connected c' = false) ∧
  SSHConnection.disconnect this w' = w' ∧
  (c = new_SSHConnection → w' = w) ∧
  (∀ (localPort : Z) (server : ServerRef),
     portForwards c !! localPort = Some server →
     server < length (servers w) → server_closed server w').
Proof.
  intros Hc w'.
  assert (Hlt : this < length (conns w)) by by eapply lookup_lt_Some.
  assert (Hc' : conns w' !! this =
    Some (mkSSHConnection [] ∅ false
            (if connected c then client_end (client c) else client c))).
  { subst w'. rewrite (conns_disconnect this w c Hc).
    by rewrite list_lookup_insert_eq. }
  split; [|split; [|split; [|split; [|split]]]].
  - unfold SSHConnection.isConnected. by rewrite Hc'.
  - unfold SSHConnection.getActiveShells. by rewrite Hc'.
  - eexists. split; [exact Hc'|done].
  - by eapply disconnect_torn_down.
  - intros ->. subst w'. by eapply disconnect_torn_down.
  - intros localPort server Hs Hsv. by eapply disconnect_closes_servers.
Qed.

(** ** SSHConnection: [closeShell] and the sibling sessions *)

Lemma closeShell_present this sessionId w c s :
  conns w !! this = Some c → JSMap.get sessionId (shells c) = Some s →
  SSHConnection.closeShell this sessionId w =
    (true, upd_conn this (set_shells (JSMap.delete sessionId))
             (upd_stream s stream_close w)).
Proof. intros Hc Hs. unfold SSHConnection.closeShell. by rewrite Hc, Hs. Qed.

Lemma closeShell_absent this sessionId w c :
  conns w !! this = Some c → JSMap.get sessionId (shells c) = None →
  SSHConnection.closeShell this sessionId w = (false, w).
Proof. intros Hc Hs. unfold SSHConnection.closeShell. by rewrite Hc, Hs. Qed.

(** C7. [closeShell sessionId] leaves every other session of the
    connection in the shell map with its stream, in [getActiveShells] and
    writable: [writeToShell] returns true and hands the data to that
    stream, which [closeShell] did not touch. The forward map, the
    connected flag and the servers are unchanged. *)
Theorem closeShell_frame (this : ConnRef) (sessionId other : string)
    (w : World) (c : SSHConnection) (s' : StreamRef) (data : option string) :
  shells_wf w →
  conns w !! this = Some c →
  other ≠ sessionId →
  JSMap.get other (shells c) = Some s' →
  let w' := (SSHConnection.closeShell this sessionId w).2 in
  (∃ c', conns w' !! this = Some c' ∧
         JSMap.get other (shells c') = Some s' ∧
         portForwards c' = portForwards c ∧ connected c' = connected c) ∧
  other ∈ SSHConnection.getActiveShells this w' ∧
  streams w' !! s' = streams w !! s' ∧
  servers w' = servers w ∧
  SSHConnection.writeToShell this other data w' =
    (true, upd_stream s' (stream_write data) w').
Proof.
  intros Hwf Hc Hne Hs' w'.
  assert (Hc' : ∃ c', conns w' !! this = Some c' ∧
     JSMap.get other (shells c') = Some s' ∧
     portForwards c' = portForwards c ∧ connected c' = connected c).
  { subst w'. destruct (JSMap.get sessionId (shells c)) as [s|] eqn:Hs.
    - rewrite (closeShell_present _ _ _ _ _ Hc Hs). simpl.
      eexists. split; [by rewrite list_lookup_alter_eq, Hc|].
      simpl. by rewrite get_delete_ne.
    - rewrite (closeShell_absent _ _ _ _ Hc Hs). simpl. by exists c. }
  destruct Hc' as (c' & Hc' & Hget & Hpf & Hcon).
  split; [by exists c'|]. split; [|split; [|split]].
  - unfold SSHConnection.getActiveShells. rewrite Hc'.
    by eapply get_Some_keys.
  - subst w'. destruct (JSMap.get sessionId (shells c)) as [s|] eqn:Hs.
    + rewrite (closeShell_present _ _ _ _ _ Hc Hs). simpl.
      apply list_lookup_alter_ne. intros ->.
      destruct (Hwf _ _ _ _ Hc Hs) as (st & Hst & _ & Hsid).
      destruct (Hwf _ _ _ _ Hc Hs') as (st' & Hst' & _ & Hsid').
      congruence.
    + by rewrite (closeShell_absent _ _ _ _ Hc Hs).
  - subst w'. destruct (JSMap.get sessionId (shells c)) as [s|] eqn:Hs.
    + by rewrite (closeShell_present _ _ _ _ _ Hc Hs).
    + by rewrite (closeShell_absent _ _ _ _ Hc Hs).
  - unfold SSHConnection.writeToShell. by rewrite Hc', Hget.
Qed.

(** ** SSHConnection: [connect] *)

Lemma promises_on_rejected k message w :
  promises (on_rejected k message w) = promises w.
Proof. by destruct k. Qed.

Lemma promises_on_fulfilled k w : promises (on_fulfilled k w) = promises w.
Proof. by destruct k. Qed.

(** [reject q] settles [q] if it is pending and no other promise. *)
Lemma promise_state_reject p q message w :
  promise_state p (reject q message w) =
    match promise_state p w with
    | Some Pending => if decide (q = p) then Some (Rejected message)
                      else Some Pending
    | st => st
    end.
Proof.
  unfold reject, promise_state.
  destruct (promises w !! q) as [[st k]|] eqn:Hq.
  - assert (Hlt : q < length (promises w)) by by eapply lookup_lt_Some.
    destruct st.
    + assert (Hins : promises (match k with
          | Some k0 => on_rejected k0 message
                         (set_promises <[q:=mkPromise (Rejected message) k]> w)
          | None => set_promises <[q:=mkPromise (Rejected message) k]> w
          end) = <[q:=mkPromise (Rejected message) k]> (promises w)).
      { destruct k; [by rewrite promises_on_rejected|done]. }
      rewrite Hins. destruct (decide (q = p)) as [->|Hne].
      * rewrite list_lookup_insert_eq by done. rewrite Hq. simpl.
        by rewrite ?decide_True.
      * rewrite list_lookup_insert_ne by done.
        destruct (promises w !! p) as [[[] ?]|]; simpl; try done.
    + destruct (promises w !! p) as [[[] ?]|] eqn:Hp; simpl; try done.
      destruct (decide (q = p)) as [->|]; [congruence|done].
    + destruct (promises w !! p) as [[[] ?]|] eqn:Hp; simpl; try done.
      destruct (decide (q = p)) as [->|]; [congruence|done].
  - destruct (promises w !! p) as [[[] ?]|] eqn:Hp; simpl; try done.
    destruct (decide (q = p)) as [->|]; [congruence|done].
Qed.

Section client_error.
Variables (this : ConnRef) (err : string) (p : PromiseRef).

Lemma on_error_state q w :
promise_state p (SSHConnection.on_error this err q w) =
  match promise_state p w with
  | Some Pending => if decide (q = p) then Some (Rejected err)
                    else Some Pending
  | st => st
  end.
Proof. unfold SSHConnection.on_error. by rewrite promise_state_reject. Qed.

Lemma emit_error_state l w :
promise_state p w = Some Pending ∨ promise_state p w = Some (Rejected err) →
promise_state p (emit_error this err l w) = Some Pending ∨
promise_state p (emit_error this err l w) = Some (Rejected err).
Proof.
unfold emit_error.
revert w. induction l as [|q l IH]; intros w Hw; simpl; [done|].
apply IH. rewrite on_error_state.
destruct Hw as [-> | ->]; [|by right].
destruct (decide (q = p)); [by right|by left].
Qed.

Lemma emit_error_rejects l w :
promise_state p w = Some Pending →
promise_state p (emit_error this err (l ++ [p]) w) = Some (Rejected err).
Proof.
intros Hw. unfold emit_error. rewrite foldl_app. simpl.
rewrite on_error_state.
destruct (emit_error_state l w (or_introl Hw)) as [H|H];
  unfold emit_error in H; rewrite H; [by rewrite ?decide_True|done].
Qed.

Lemma emit_error_length l w :
length (conns (emit_error this err l w)) = length (conns w).
Proof.
unfold emit_error.
revert w. induction l as [|q l IH]; intros w; simpl; [done|].
rewrite IH. unfold SSHConnection.on_error.
by rewrite conns_reject, conns_upd_conn, length_alter.
Qed.

Lemma emit_error_disconnected l w :
this < length (conns w) →
SSHConnection.isConnected this (emit_error this err (l ++ [p]) w) = false.
Proof.
intros Hlt. pose proof (emit_error_length l w) as Hlen.
unfold emit_error in *. rewrite foldl_app. simpl.
unfold SSHConnection.isConnected.
unfold SSHConnection.on_error at 1.
rewrite conns_reject, conns_upd_conn, list_lookup_alter_eq.
destruct (lookup_lt_is_Some_2 (conns (foldl
  (λ w q, SSHConnection.on_error this err q w) w l)) this) as [c Hc];
  [lia|].
by rewrite Hc.
Qed.
End client_error.

(** ** SSHHandler: [handleInput] and [handleCloseShell] *)

Lemma input_chunk_value sessionId input :
  SSHHandler.input_chunk
    (SSHHandler.input_value (Some (InputObj sessionId (Some input)))) =
  Some (Some input).
Proof.
  unfold SSHHandler.input_value, truthy. simpl.
  by destruct (bool_decide (input = EmptyString)).
Qed.

(** C10. An [ssh_input] whose session id is not in the shell map of a
    connected connection with an open shell is written, by the legacy
    fallback, to the first shell of the map, which belongs to another
    session; nothing else changes. *)
Theorem handleInput_unknown_session (clientId sessionId input first : string)
    (w : World) (connection : ConnRef) (c : SSHConnection) (firstShell : StreamRef)
    (rest : list (string * StreamRef)) (st : Stream) :
  connections w !! clientId = Some connection →
  conns w !! connection = Some c →
  connected c = true →
  shells c = (first, firstShell) :: rest →
  streams w !! firstShell = Some st →
  sessionId ≠ EmptyString →
  JSMap.get sessionId (shells c) = None →
  let r := SSHHandler.handleInput clientId
             (Some (InputObj (Some sessionId) (Some input))) w in
  (SSHConnection.writeToShell connection sessionId (Some input) w).1 = false ∧
  first ≠ sessionId ∧
  r = (Returned, upd_stream firstShell (stream_write (Some input)) w) ∧
  streams r.2 !! firstShell = Some (stream_write (Some input) st) ∧
  st_written (stream_write (Some input) st) = st_written st ++ [Some input].
Proof.
  intros Hconn Hc Hcon Hshells Hst Hne Hget r.
  assert (Hw : SSHConnection.writeToShell connection sessionId (Some input) w
               = (false, w)).
  { unfold SSHConnection.writeToShell. by rewrite Hc, Hget. }
  assert (Hfirst : first ≠ sessionId).
  { intros ->. rewrite Hshells in Hget. simpl in Hget.
    by rewrite decide_True in Hget. }
  assert (Hr : r = (Returned,
                    upd_stream firstShell (stream_write (Some input)) w)).
  { subst r. unfold SSHHandler.handleInput.
    rewrite (getConnection_present _ _ _ Hconn).
    unfold SSHConnection.isConnected. rewrite Hc, Hcon.
    rewrite input_chunk_value. simpl.
    rewrite bool_decide_false by done. rewrite Hw. simpl.
    unfold SSHConnection.write. by rewrite Hc, Hshells. }
  rewrite Hw. clearbody r. subst r. simpl.
  repeat split; try done.
  by rewrite list_lookup_alter_eq, Hst.
Qed.

(** Without a session id, or on a connection that is not connected,
    [handleCloseShell] sends nothing. *)
Lemma handleCloseShell_silent ws clientId sessionId w :
  truthy sessionId = false ∨
  SSHConnection.isConnected (SSHManager.getConnection clientId w).1
    (SSHManager.getConnection clientId w).2 = false →
  outbox (SSHHandler.handleCloseShell ws clientId sessionId w) = outbox w.
Proof.
  intros Hsilent. unfold SSHHandler.handleCloseShell.
  destruct (SSHManager.getConnection clientId w) as [connection w1] eqn:Hg.
  assert (Ho : outbox w1 = outbox w).
  { unfold SSHManager.getConnection in Hg.
    destruct (connections w !! clientId); by simplify_eq. }
  simpl in Hsilent.
  destruct Hsilent as [-> | ->]; simpl; [done|].
  by rewrite andb_false_r.
Qed.

(** The other handlers answer on a connection that is not connected:
    [handleStartShell] with an error status, [handleListShells] with the
    empty list. *)
Lemma handleStartShell_not_connected ws clientId data w :
  SSHConnection.isConnected (SSHManager.getConnection clientId w).1
    (SSHManager.getConnection clientId w).2 = false →
  outbox (SSHHandler.handleStartShell ws clientId data w) =
    outbox w ++ [(ws, ssh_status "error" "SSH not connected")].
Proof.
  intros Hn. unfold SSHHandler.handleStartShell.
  destruct (SSHManager.getConnection clientId w) as [connection w1] eqn:Hg.
  assert (Ho : outbox w1 = outbox w).
  { unfold SSHManager.getConnection in Hg.
    destruct (connections w !! clientId); by simplify_eq. }
  simpl in Hn. rewrite Hn. simpl. by rewrite Ho.
Qed.

Lemma handleListShells_not_connected ws clientId w :
  SSHConnection.isConnected (SSHManager.getConnection clientId w).1
    (SSHManager.getConnection clientId w).2 = false →
  outbox (SSHHandler.handleListShells ws clientId w) =
    outbox w ++ [(ws, ssh_list_shells_response [])].
Proof.
  intros Hn. unfold SSHHandler.handleListShells.
  destruct (SSHManager.getConnection clientId w) as [connection w1] eqn:Hg.
  assert (Ho : outbox w1 = outbox w).
  { unfold SSHManager.getConnection in Hg.
    destruct (connections w !! clientId); by simplify_eq. }
  simpl in Hn. rewrite Hn. simpl. by rewrite Ho.
Qed.

(** C6. An [ssh_close_shell] request for session "s1" from a client whose
    connection was never connected gets no reply at all, where
    [ssh_start_shell] and [ssh_list_shells] in the same state are
    answered. *)
Theorem close_shell_not_connected_no_reply :
  outbox (SSHHandler.handle 1 "client_1" (ssh_close_shell (Some "s1"))
            initial).2 = [] ∧
  outbox (SSHHandler.handle 1 "client_1" (ssh_start_shell None) initial).2 =
    [(1, ssh_status "error" "SSH not connected")] ∧
  outbox (SSHHandler.handle 1 "client_1" ssh_list_shells initial).2 =
    [(1, ssh_list_shells_response [])].
Proof. repeat split; vm_compute; reflexivity. Qed.

(** ** The invariant of reachable worlds *)

Lemma count_app {A} (f : A → bool) (l1 l2 : list A) :
  count f (l1 ++ l2) = count f l1 + count f l2.
Proof. induction l1 as [|x l1 IH]; simpl; [done|]. rewrite IH. lia. Qed.

Lemma count_alter {A} (f : A → bool) (g : A → A) (i : nat) (l : list A) :
  (∀ x, f (g x) = f x) → count f (alter g i l) = count f l.
Proof.
  intros Hg. revert i. induction l as [|x l IH]; intros [|i]; simpl; try done.
  - by rewrite Hg.
  - f_equal. apply IH.
Qed.

Lemma count_alter_new {A} (f : A → bool) (g : A → A) (i : nat) (l : list A) x :
  l !! i = Some x → f x = false →
  count f (alter g i l) = (if f (g x) then 1 else 0) + count f l.
Proof.
  revert i. induction l as [|y l IH]; intros [|i] Hi Hx; simplify_eq/=.
  - by rewrite Hx.
  - specialize (IH i Hi Hx). simpl in IH. rewrite IH. lia.
Qed.

Lemma get_delete_Some {K V} `{EqDecision K} (k k' : K) (v : V) m :
  JSMap.get k' (JSMap.delete k m) = Some v → JSMap.get k' m = Some v.
Proof.
  destruct (decide (k = k')) as [->|Hne].
  - by rewrite get_delete_eq.
  - by rewrite get_delete_ne.
Qed.

Lemma get_set_Some {K V} `{EqDecision K} (k k' : K) (v v' : V) m :
  JSMap.get k' (JSMap.set k v m) = Some v' →
  (k' = k ∧ v' = v) ∨ JSMap.get k' m = Some v'.
Proof.
  destruct (decide (k = k')) as [->|Hne].
  - rewrite get_set_eq. intros [= ->]. by left.
  - rewrite get_set_ne by done. by right.
Qed.

Lemma Inv_initial : Inv initial.
Proof. split; done. Qed.

Lemma Inv_set_promises f w : Inv w → Inv (set_promises f w).
Proof. intros [H1 H2 H3 H4 H5]. by split. Qed.

Lemma Inv_set_servers f w : Inv w → Inv (set_servers f w).
Proof. intros [H1 H2 H3 H4 H5]. by split. Qed.

Lemma Inv_upd_server s f w : Inv w → Inv (upd_server s f w).
Proof. apply Inv_set_servers. Qed.

Lemma Inv_sendFn ws m w :
  (∀ s, m ≠ ssh_shell_closed s None) → Inv w → Inv (sendFn ws m w).
Proof.
  intros Hm [H1 H2 H3 H4 H5]. split; try done.
  intros sessionId. specialize (H5 sessionId).
  unfold onClose_notifications, closures in *. simpl.
  rewrite count_app, H5. simpl.
  unfold is_onClose_notification. simpl.
  destruct m as [| | | s [b|] | | |]; try lia. by destruct (Hm s).
Qed.

Lemma Inv_upd_conn this f w :
  (∀ c sessionId s, JSMap.get sessionId (shells (f c)) = Some s →
                    JSMap.get sessionId (shells c) = Some s) →
  Inv w → Inv (upd_conn this f w).
Proof.
  intros Hf [H1 H2 H3 H4 H5]. split; try done.
  - intros clientId c Hc. simpl. rewrite length_alter. by eapply H1.
  - intros c conn sessionId s. simpl.
    destruct (decide (this = c)) as [->|Hne].
    + rewrite list_lookup_alter_eq. intros Hc Hs.
      apply fmap_Some in Hc as (c0 & Hc0 & ->). eauto.
    + rewrite list_lookup_alter_ne by done. apply H2.
Qed.

Lemma Inv_upd_stream s g w :
  (∀ st, st_owner (g st) = st_owner st ∧ st_sessionId (g st) = st_sessionId st ∧
         st_onClose (g st) = st_onClose st ∧ st_closed (g st) = st_closed st) →
  Inv w → Inv (upd_stream s g w).
Proof.
  intros Hg [H1 H2 H3 H4 H5]. split; try done.
  - intros c conn sessionId s0 Hc Hs. simpl.
    destruct (H2 c conn sessionId s0 Hc Hs) as (st & Hst & Ho & Hsid).
    destruct (decide (s = s0)) as [->|Hne].
    + exists (g st). rewrite list_lookup_alter_eq, Hst.
      destruct (Hg st) as (-> & -> & _). done.
    + exists st. by rewrite list_lookup_alter_ne.
  - simpl. apply Forall_alter; [done|]. intros st Hst [ws Hws].
    exists ws. destruct (Hg st) as (_ & -> & -> & _). done.
  - intros sessionId. specialize (H5 sessionId).
    unfold onClose_notifications, closures in *. simpl. rewrite H5.
    symmetry. apply count_alter. intros st. unfold closed_stream.
    destruct (Hg st) as (_ & -> & _ & ->). done.
Qed.

Lemma Inv_on_fulfilled k w : Inv w → Inv (on_fulfilled k w).
Proof. destruct k; apply Inv_sendFn; done. Qed.

Lemma Inv_on_rejected k message w : Inv w → Inv (on_rejected k message w).
Proof. destruct k; apply Inv_sendFn; done. Qed.

Lemma Inv_resolve p w : Inv w → Inv (resolve p w).
Proof.
  intros H. unfold resolve.
  destruct (promises w !! p) as [[[] [k|]]|]; try done.
  - by apply Inv_on_fulfilled, Inv_set_promises.
  - by apply Inv_set_promises.
Qed.

Lemma Inv_reject p message w : Inv w → Inv (reject p message w).
Proof.
  intros H. unfold reject.
  destruct (promises w !! p) as [[[] [k|]]|]; try done.
  - by apply Inv_on_rejected, Inv_set_promises.
  - by apply Inv_set_promises.
Qed.

Lemma Inv_await p k w : Inv w → Inv (await p k w).
Proof.
  intros H. unfold await.
  destruct (promises w !! p) as [[[] ?]|]; try done.
  - by apply Inv_set_promises.
  - by apply Inv_on_fulfilled.
  - by apply Inv_on_rejected.
Qed.

Lemma Inv_stream_write s data w :
  Inv w → Inv (upd_stream s (stream_write data) w).
Proof. by apply Inv_upd_stream. Qed.

Lemma Inv_stream_setWindow s rows cols w :
  Inv w → Inv (upd_stream s (stream_setWindow rows cols) w).
Proof. by apply Inv_upd_stream. Qed.

Lemma Inv_stream_close s w : Inv w → Inv (upd_stream s stream_close w).
Proof. by apply Inv_upd_stream. Qed.

Lemma Inv_set_connected this b w :
  Inv w → Inv (upd_conn this (set_connected b) w).
Proof. by apply Inv_upd_conn. Qed.

Lemma Inv_set_client this f w : Inv w → Inv (upd_conn this (set_client f) w).
Proof. by apply Inv_upd_conn. Qed.

Lemma Inv_set_portForwards this f w :
  Inv w → Inv (upd_conn this (set_portForwards f) w).
Proof. by apply Inv_upd_conn. Qed.

Lemma Inv_delete_shell this sessionId w :
  Inv w → Inv (upd_conn this (set_shells (JSMap.delete sessionId)) w).
Proof.
  apply Inv_upd_conn. intros c sid s. simpl. apply get_delete_Some.
Qed.

Lemma Inv_clear_shells this w :
  Inv w → Inv (upd_conn this (set_shells (λ _, [])) w).
Proof. by apply Inv_upd_conn. Qed.

Lemma Inv_getConnection clientId w :
  Inv w → Inv (SSHManager.getConnection clientId w).2.
Proof.
  intros H. unfold SSHManager.getConnection.
  destruct (connections w !! clientId) as [c|] eqn:Hc; [done|].
  destruct H as [H1 H2 H3 H4 H5]. split; try done; simpl.
  - intros clientId' c. simpl. rewrite length_app. simpl.
    destruct (decide (clientId = clientId')) as [->|Hne].
    + rewrite lookup_insert_eq. intros [= <-]. lia.
    + rewrite lookup_insert_ne by done. intros Hc'.
      specialize (H1 _ _ Hc'). lia.
  - intros c conn sessionId s. simpl. intros Hconn Hs.
    apply lookup_app_Some in Hconn as [Hconn|[_ Hconn]].
    + by eapply H2.
    + apply list_lookup_singleton_Some in Hconn as [_ <-]. done.
Qed.

Lemma Inv_connect this config w :
  Inv w → Inv (SSHConnection.connect this config w).2.
Proof.
  intros H. unfold SSHConnection.connect, new_promise. simpl.
  by apply Inv_set_client, Inv_set_promises.
Qed.

Lemma Inv_startShell this sessionId onData ws cols rows w :
  Inv w →
  Inv (SSHConnection.startShell this sessionId onData (ClosedTo ws sessionId)
         cols rows w).2.
Proof.
  intros H. unfold SSHConnection.startShell, new_promise. simpl.
  destruct (conns w !! this) as [c|]; simpl; [|by apply Inv_set_promises].
  destruct (connected c); simpl; [|by apply Inv_reject, Inv_set_promises].
  destruct (JSMap.has sessionId (shells c)); simpl;
    [by apply Inv_reject, Inv_set_promises|].
  destruct H as [H1 H2 H3 H4 H5]. split; try done. simpl.
  apply Forall_app. split; [done|]. constructor; [|done]. by exists ws.
Qed.

Lemma Inv_setupPortForward this config w :
  Inv w → Inv (SSHConnection.setupPortForward this config w).2.
Proof.
  intros H. unfold SSHConnection.setupPortForward, new_promise. simpl.
  destruct (conns w !! this) as [c|]; simpl; [|by apply Inv_set_promises].
  destruct (connected c); simpl; [|by apply Inv_reject, Inv_set_promises].
  case_bool_decide; simpl.
  - by apply Inv_reject, Inv_set_promises.
  - by apply Inv_set_servers, Inv_set_promises.
Qed.

Lemma Inv_writeToShell this sessionId data w :
  Inv w → Inv (SSHConnection.writeToShell this sessionId data w).2.
Proof.
  intros H. unfold SSHConnection.writeToShell.
  destruct (conns w !! this) as [c|]; [|done].
  destruct (JSMap.get sessionId (shells c)); [|done].
  by apply Inv_stream_write.
Qed.

Lemma Inv_resizeShell this sessionId cols rows w :
  Inv w → Inv (SSHConnection.resizeShell this sessionId cols rows w).2.
Proof.
  intros H. unfold SSHConnection.resizeShell.
  destruct (conns w !! this) as [c|]; [|done].
  destruct (JSMap.get sessionId (shells c)); [|done].
  by apply Inv_stream_setWindow.
Qed.

Lemma Inv_closeShell this sessionId w :
  Inv w → Inv (SSHConnection.closeShell this sessionId w).2.
Proof.
  intros H. unfold SSHConnection.closeShell.
  destruct (conns w !! this) as [c|]; [|done].
  destruct (JSMap.get sessionId (shells c)); [|done].
  by apply Inv_delete_shell, Inv_stream_close.
Qed.

Lemma Inv_write this data w : Inv w → Inv (SSHConnection.write this data w).
Proof.
  intros H. unfold SSHConnection.write.
  destruct (conns w !! this) as [c|]; [|done].
  destruct (JSMap.first_value (shells c)); [|done].
  by apply Inv_stream_write.
Qed.

Lemma Inv_resize this cols rows w :
  Inv w → Inv (SSHConnection.resize this cols rows w).
Proof.
  intros H. unfold SSHConnection.resize.
  destruct (conns w !! this) as [c|]; [|done].
  destruct (JSMap.first_value (shells c)); [|done].
  by apply Inv_stream_setWindow.
Qed.

Lemma Inv_stopPortForward this localPort w :
  Inv w → Inv (SSHConnection.stopPortForward this localPort w).
Proof.
  intros H. unfold SSHConnection.stopPortForward.
  destruct (conns w !! this) as [c|]; [|done].
  destruct (portForwards c !! localPort); [|done].
  by apply Inv_set_portForwards, Inv_upd_server.
Qed.

Lemma Inv_close_all_shells m w :
  Inv w → Inv (SSHConnection.close_all_shells m w).
Proof.
  unfold SSHConnection.close_all_shells. revert w.
  induction m as [|kv m IH]; intros w H; simpl; [done|].
  by apply IH, Inv_stream_close.
Qed.

Lemma Inv_close_all_servers m w :
  Inv w → Inv (SSHConnection.close_all_servers m w).
Proof.
  unfold SSHConnection.close_all_servers. generalize (map_to_list m).
  intros l. revert w. induction l as [|kv l IH]; intros w H; simpl; [done|].
  by apply IH, Inv_upd_server.
Qed.

Lemma Inv_disconnect this w : Inv w → Inv (SSHConnection.disconnect this w).
Proof.
  intros H. unfold SSHConnection.disconnect.
  destruct (conns w !! this) as [c|]; [|done].
  assert (Inv (upd_conn this (set_portForwards (λ _, ∅))
                 (SSHConnection.close_all_servers (portForwards c)
                    (upd_conn this (set_shells (λ _, []))
                       (SSHConnection.close_all_shells (shells c) w))))).
  { by apply Inv_set_portForwards, Inv_close_all_servers, Inv_clear_shells,
      Inv_close_all_shells. }
  destruct (connected c); [|done].
  by apply Inv_set_connected, Inv_set_client.
Qed.

Lemma Inv_removeConnection clientId w :
  Inv w → Inv (SSHManager.removeConnection clientId w).
Proof.
  intros H. unfold SSHManager.removeConnection.
  destruct (connections w !! clientId) as [c|]; [|done].
  apply (Inv_disconnect c) in H. destruct H as [H1 H2 H3 H4 H5].
  split; try done. intros clientId' c'. simpl.
  intros Hc'. apply lookup_delete_Some in Hc' as [_ Hc']. by eapply H1.
Qed.

(** The handlers. *)

Lemma Inv_handleConnect ws clientId data w :
  Inv w → Inv (SSHHandler.handleConnect ws clientId data w).
Proof.
  intros H. unfold SSHHandler.handleConnect.
  pose proof (Inv_getConnection clientId w H) as H1.
  destruct (SSHManager.getConnection clientId w) as [connection w1].
  pose proof (Inv_connect connection data w1 H1) as H2.
  destruct (SSHConnection.connect connection data w1) as [p w2].
  by apply Inv_await.
Qed.

Lemma Inv_handleStartShell ws clientId data w :
  Inv w → Inv (SSHHandler.handleStartShell ws clientId data w).
Proof.
  intros H. unfold SSHHandler.handleStartShell.
  pose proof (Inv_getConnection clientId w H) as H1.
  destruct (SSHManager.getConnection clientId w) as [connection w1].
  simpl in H1. destruct (SSHConnection.isConnected connection w1); simpl.
  - match goal with
    | |- context [SSHConnection.startShell ?a ?b ?c (ClosedTo ?d ?b) ?e ?f ?g] =>
        pose proof (Inv_startShell a b c d e f g H1) as H2;
        destruct (SSHConnection.startShell a b c (ClosedTo d b) e f g)
          as [p w2]
    end.
    by apply Inv_await.
  - by apply Inv_sendFn.
Qed.

Lemma Inv_handleInput clientId data w :
  Inv w → Inv (SSHHandler.handleInput clientId data w).2.
Proof.
  intros H. unfold SSHHandler.handleInput.
  pose proof (Inv_getConnection clientId w H) as H1.
  destruct (SSHManager.getConnection clientId w) as [connection w1].
  simpl in H1. destruct (SSHConnection.isConnected connection w1); [|done].
  destruct (SSHHandler.input_chunk _) as [chunk|]; [|done].
  match goal with
  | |- context [SSHConnection.writeToShell ?a ?b ?c ?d] =>
      pose proof (Inv_writeToShell a b c d H1) as H2;
      destruct (SSHConnection.writeToShell a b c d) as [written w2]
  end.
  destruct written; simpl; [done|]. by apply Inv_write.
Qed.

Lemma Inv_handleResize clientId data w :
  Inv w → Inv (SSHHandler.handleResize clientId data w).
Proof.
  intros H. unfold SSHHandler.handleResize.
  pose proof (Inv_getConnection clientId w H) as H1.
  destruct (SSHManager.getConnection clientId w) as [connection w1].
  simpl in H1. destruct (SSHConnection.isConnected connection w1); [|done].
  destruct (truthy (rs_sessionId data)).
  - by apply Inv_resizeShell.
  - by apply Inv_resize.
Qed.

Lemma Inv_handleCloseShell ws clientId sessionId w :
  Inv w → Inv (SSHHandler.handleCloseShell ws clientId sessionId w).
Proof.
  intros H. unfold SSHHandler.handleCloseShell.
  pose proof (Inv_getConnection clientId w H) as H1.
  destruct (SSHManager.getConnection clientId w) as [connection w1].
  simpl in H1.
  destruct (truthy sessionId && SSHConnection.isConnected connection w1);
    [|done].
  pose proof (Inv_closeShell connection (default EmptyString sessionId) w1 H1) as H2.
  destruct (SSHConnection.closeShell connection (default EmptyString sessionId) w1)
    as [closed w2].
  by apply Inv_sendFn.
Qed.

Lemma Inv_handleListShells ws clientId w :
  Inv w → Inv (SSHHandler.handleListShells ws clientId w).
Proof.
  intros H. unfold SSHHandler.handleListShells.
  pose proof (Inv_getConnection clientId w H) as H1.
  destruct (SSHManager.getConnection clientId w) as [connection w1].
  by apply Inv_sendFn.
Qed.

Lemma Inv_handleDisconnect ws clientId w :
  Inv w → Inv (SSHHandler.handleDisconnect ws clientId w).
Proof.
  intros H. unfold SSHHandler.handleDisconnect.
  by apply Inv_sendFn, Inv_removeConnection.
Qed.

Lemma Inv_handlePortForward ws clientId data w :
  Inv w → Inv (SSHHandler.handlePortForward ws clientId data w).
Proof.
  intros H. unfold SSHHandler.handlePortForward.
  pose proof (Inv_getConnection clientId w H) as H1.
  destruct (SSHManager.getConnection clientId w) as [connection w1].
  simpl in H1. destruct (SSHConnection.isConnected connection w1); simpl.
  - pose proof (Inv_setupPortForward connection data w1 H1) as H2.
    destruct (SSHConnection.setupPortForward connection data w1) as [p w2].
    by apply Inv_await.
  - by apply Inv_sendFn.
Qed.

Lemma Inv_handleStopPortForward ws clientId localPort w :
  Inv w → Inv (SSHHandler.handleStopPortForward ws clientId localPort w).
Proof.
  intros H. unfold SSHHandler.handleStopPortForward.
  pose proof (Inv_getConnection clientId w H) as H1.
  destruct (SSHManager.getConnection clientId w) as [connection w1].
  simpl in H1. apply Inv_sendFn; [done|].
  destruct (SSHConnection.isConnected connection w1); [|done].
  by apply Inv_stopPortForward.
Qed.

Lemma Inv_handle ws clientId message w :
  Inv w → Inv (SSHHandler.handle ws clientId message w).2.
Proof.
  intros H. destruct message; simpl; try done.
  - by apply Inv_handleConnect.
  - by apply Inv_handleStartShell.
  - by apply Inv_handleInput.
  - by apply Inv_handleResize.
  - by apply Inv_handleDisconnect.
  - by apply Inv_handleCloseShell.
  - by apply Inv_handleListShells.
  - by apply Inv_handlePortForward.
  - by apply Inv_handleStopPortForward.
Qed.

(** The events of the environment. *)

Lemma Inv_emit_ready this l w : Inv w → Inv (emit_ready this l w).
Proof.
  unfold emit_ready. revert w.
  induction l as [|p l IH]; intros w H; simpl; [done|].
  by apply IH, Inv_resolve, Inv_set_connected.
Qed.

Lemma Inv_emit_error this err l w : Inv w → Inv (emit_error this err l w).
Proof.
  unfold emit_error. revert w.
  induction l as [|p l IH]; intros w H; simpl; [done|].
  by apply IH, Inv_reject, Inv_set_connected.
Qed.

Lemma Inv_emit_close this l w : Inv w → Inv (emit_close this l w).
Proof.
  unfold emit_close. revert w.
  induction l as [|p l IH]; intros w H; simpl; [done|].
  by apply IH, Inv_set_connected.
Qed.

Lemma Inv_mark_answered r w :
  Inv w → Inv (set_shellReqs (alter mark_answered r) w).
Proof.
  intros [H1 H2 H3 H4 H5]. split; try done. simpl.
  apply Forall_alter; [done|]. by intros rq _ [ws Hws]; exists ws.
Qed.

(** A new stream: registered under its session id, not closed. *)
Lemma Inv_shell_callback rq err w :
  req_ok rq → Inv w → Inv (SSHConnection.shell_callback rq err w).
Proof.
  intros [ws Hrq] H. unfold SSHConnection.shell_callback.
  destruct err as [message|]; [by apply Inv_reject|].
  apply Inv_resolve. destruct H as [H1 H2 H3 H4 H5]. split; try done.
  - intros clientId c Hc. simpl. rewrite length_alter. by eapply H1.
  - intros c conn sessionId s. simpl. intros Hc Hs.
    assert (Hold : ∀ conn0, conns w !! c = Some conn0 →
              JSMap.get sessionId (shells conn0) = Some s →
              ∃ st, (streams w ++
                [mkStream (rq_this rq) (rq_sessionId rq) (rq_onData rq)
                   (rq_onClose rq) [] (Some (rq_rows rq, rq_cols rq)) 0 false])
                !! s = Some st ∧ st_owner st = c ∧ st_sessionId st = sessionId).
    { intros conn0 Hc0 Hget.
      destruct (H2 _ _ _ _ Hc0 Hget) as (st & Hst & Ho & Hsid).
      exists st. split; [|done]. by apply lookup_app_l_Some. }
    destruct (decide (rq_this rq = c)) as [<-|Hne].
    + rewrite list_lookup_alter_eq in Hc.
      apply fmap_Some in Hc as (c0 & Hc0 & ->). simpl in Hs.
      apply get_set_Some in Hs as [[-> ->]|Hs].
      * eexists. split; [by rewrite lookup_app_r, Nat.sub_diag by lia|done].
      * by apply (Hold c0).
    + rewrite list_lookup_alter_ne in Hc by done. by apply (Hold conn).
  - simpl. apply Forall_app. split; [done|]. constructor; [|done].
    by exists ws.
  - intros sessionId. specialize (H5 sessionId).
    unfold onClose_notifications, closures in *. simpl.
    rewrite count_app, H5. simpl. lia.
Qed.

Lemma Inv_stream_on_data st data w :
  Inv w → Inv (SSHConnection.stream_on_data st data w).
Proof.
  intros H. unfold SSHConnection.stream_on_data, SSHConnection.run_onData.
  destruct (st_onData st). by apply Inv_sendFn.
Qed.

(** A stream's 'close' event: one more closure of its session, one more
    notification for it. *)
Lemma Inv_stream_on_close s st w :
  streams w !! s = Some st → st_closed st = false →
  Inv w → Inv (SSHConnection.stream_on_close st (upd_stream s stream_closed w)).
Proof.
  intros Hst Hopen H.
  assert (Hok : stream_ok st).
  { destruct H as [_ _ _ H4 _]. rewrite Forall_lookup in H4. by eapply H4. }
  destruct Hok as [ws Hws].
  apply (Inv_delete_shell (st_owner st) (st_sessionId st)) in H.
  unfold SSHConnection.stream_on_close, SSHConnection.run_onClose.
  rewrite Hws.
  change (upd_conn (st_owner st) (set_shells (JSMap.delete (st_sessionId st)))
            (upd_stream s stream_closed w))
    with (upd_stream s stream_closed
            (upd_conn (st_owner st)
               (set_shells (JSMap.delete (st_sessionId st))) w)).
  set (w0 := upd_conn _ _ w) in *.
  assert (Hst0 : streams w0 !! s = Some st) by done.
  clearbody w0. destruct H as [H1 H2 H3 H4 H5]. split; try done.
  - intros c conn sessionId s0 Hc Hs. simpl.
    destruct (H2 c conn sessionId s0 Hc Hs) as (st0 & Hs0 & Ho & Hsid).
    destruct (decide (s = s0)) as [->|Hne].
    + exists (stream_closed st0). by rewrite list_lookup_alter_eq, Hs0.
    + exists st0. by rewrite list_lookup_alter_ne.
  - simpl. apply Forall_alter; [done|]. by intros st0 _ [ws0 Hws0]; exists ws0.
  - intros sessionId. specialize (H5 sessionId).
    unfold onClose_notifications, closures in *. simpl.
    rewrite count_app, H5. simpl.
    rewrite (count_alter_new _ _ _ _ st Hst0)
      by (unfold closed_stream; by rewrite Hopen).
    unfold is_onClose_notification, closed_stream. simpl. lia.
Qed.

Lemma Inv_server_on_listening s sv w :
  Inv w → Inv (SSHConnection.server_on_listening s sv w).
Proof.
  intros H. unfold SSHConnection.server_on_listening.
  by apply Inv_resolve, Inv_set_portForwards.
Qed.

Lemma Inv_step e w : Inv w → Inv (step e w).
Proof.
  intros H. destruct e; simpl.
  - by apply Inv_handle.
  - by apply Inv_emit_ready.
  - by apply Inv_emit_error.
  - by apply Inv_emit_close.
  - destruct (shellReqs w !! r) as [rq|] eqn:Hrq; [|done].
    destruct (rq_answered rq); [done|].
    apply Inv_shell_callback; [|by apply Inv_mark_answered].
    destruct H as [_ _ H3 _ _]. rewrite Forall_lookup in H3. by eapply H3.
  - destruct (streams w !! s) as [st|]; [|done].
    destruct (st_closed st); [done|]. by apply Inv_stream_on_data.
  - destruct (streams w !! s) as [st|] eqn:Hst; [|done].
    destruct (st_closed st) eqn:Hopen; [done|]. by apply Inv_stream_on_close.
  - destruct (servers w !! s) as [sv|]; [|done].
    destruct (sv_state sv); try done.
    by apply Inv_server_on_listening, Inv_upd_server.
  - destruct (servers w !! s) as [sv|]; [|done].
    unfold SSHConnection.server_on_error. apply Inv_reject.
    destruct (sv_state sv); try done. by apply Inv_upd_server.
  - by apply Inv_removeConnection.
Qed.

(** Every world reached from the initial one satisfies the invariant. *)
Lemma Inv_run es : Inv (run es initial).
Proof.
  unfold run. generalize Inv_initial. generalize initial.
  induction es as [|e es IH]; intros w H; simpl; [done|].
  by apply IH, Inv_step.
Qed.

(** ** Closure notifications *)

Lemma count_split {A} (f g h : A → bool) (l : list A) :
  (∀ x, f x = g x || h x) → (∀ x, g x && h x = false) →
  count f l = count g l + count h l.
Proof.
  intros Hf Hgh. induction l as [|x l IH]; simpl; [done|].
  rewrite IH, Hf. specialize (Hgh x). destruct (g x), (h x); simpl in *; lia.
Qed.

Lemma shell_closed_messages_split sessionId w :
  shell_closed_messages sessionId w =
    onClose_notifications sessionId w + close_responses sessionId w.
Proof.
  apply count_split; intros [ws m];
    unfold is_shell_closed, is_onClose_notification, is_close_response; simpl;
    destruct m as [| | | s [b|] | | |]; simpl; try done;
    by destruct (bool_decide (s = sessionId)).
Qed.

Lemma outbox_getConnection clientId w :
  outbox (SSHManager.getConnection clientId w).2 = outbox w.
Proof.
  unfold SSHManager.getConnection. by destruct (connections w !! clientId).
Qed.

(** The one message [handleCloseShell] sends, if any: the response with
    [success] telling whether the session was in the shell map. *)
Lemma outbox_handleCloseShell ws clientId sessionId w :
  let g := SSHManager.getConnection clientId w in
  outbox (SSHHandler.handleCloseShell ws clientId sessionId w) =
    outbox w ++
    (if truthy sessionId && SSHConnection.isConnected g.1 g.2
     then [(ws, ssh_shell_closed (default EmptyString sessionId)
                  (Some (SSHConnection.hasShell g.1 (default EmptyString sessionId) g.2)))]
     else []).
Proof.
  intros g. subst g. unfold SSHHandler.handleCloseShell.
  pose proof (outbox_getConnection clientId w) as Ho.
  destruct (SSHManager.getConnection clientId w) as [connection w1].
  simpl in *.
  destruct (truthy sessionId && SSHConnection.isConnected connection w1);
    [|by rewrite Ho, app_nil_r].
  unfold SSHConnection.closeShell, SSHConnection.hasShell, JSMap.has.
  destruct (conns w1 !! connection) as [c|]; simpl; [|by rewrite Ho].
  destruct (JSMap.get (default EmptyString sessionId) (shells c)); simpl; by rewrite Ho.
Qed.

(** C5, as stated, fails: in the run [explicit_close] the session "a" is
    closed once, by an [ssh_close_shell] request, and the client is sent two
    [ssh_shell_closed] messages for "a": the handler's response and the
    [onClose] notification. *)
Lemma explicit_close_two_messages :
  closures "a" (run explicit_close initial) = 1 ∧
  shell_closed_messages "a" (run explicit_close initial) = 2 ∧
  outbox (run explicit_close initial) =
    [ (1, ssh_connect_response true None); (1, ssh_shell_started "a");
      (1, ssh_shell_started "b"); (1, ssh_shell_closed "a" (Some true));
      (1, ssh_shell_closed "a" None) ] ∧
  ¬ (∀ sessionId,
       shell_closed_messages sessionId (run explicit_close initial) =
       closures sessionId (run explicit_close initial)).
Proof.
  assert (H1 : closures "a" (run explicit_close initial) = 1)
    by (vm_compute; reflexivity).
  assert (H2 : shell_closed_messages "a" (run explicit_close initial) = 2)
    by (vm_compute; reflexivity).
  split; [done|]. split; [done|]. split; [vm_compute; reflexivity|].
  intros H. specialize (H "a"). rewrite H1, H2 in H. done.
Qed.

(** C5, amended. In every reachable world and for every session id, the
    [onClose] notifications sent are as many as the closures of streams of
    that session: each closure is notified by [onClose] exactly once. The
    [ssh_shell_closed] messages in all are these notifications and the
    responses of [handleCloseShell], which answers every request with a
    session id on a connected connection by one [ssh_shell_closed] with
    [success], and sends nothing otherwise. *)
Theorem onClose_notifies_once (es : list Event) (sessionId : string) :
  let w := run es initial in
  onClose_notifications sessionId w = closures sessionId w ∧
  shell_closed_messages sessionId w =
    closures sessionId w + close_responses sessionId w ∧
  ∀ (ws : WsRef) (clientId : string) (requested : option string),
    let g := SSHManager.getConnection clientId w in
    outbox (SSHHandler.handleCloseShell ws clientId requested w) =
      outbox w ++
      (if truthy requested && SSHConnection.isConnected g.1 g.2
       then [(ws, ssh_shell_closed (default EmptyString requested)
                    (Some (SSHConnection.hasShell g.1 (default EmptyString requested)
                             g.2)))]
       else []).
Proof.
  intros w. pose proof (inv_count w (Inv_run es) sessionId) as Hc.
  split; [done|]. split.
  - by rewrite shell_closed_messages_split, Hc.
  - intros ws clientId requested. apply outbox_handleCloseShell.
Qed.

(** ** The theorems at the run [two_shells] *)

Lemma two_shells_conn_lookup :
  conns (run two_shells initial) !! 0 = Some two_shells_conn.
Proof. vm_compute. reflexivity. Defined.

Lemma getConnection_instance_witness :
  manager_wf (run two_shells initial) ∧
  let r1 := SSHManager.getConnection "client_1" (run two_shells initial) in
  let r3 := SSHManager.getConnection "client_1"
              (SSHManager.removeConnection "client_1"
                 (SSHManager.getConnection "client_1" r1.2).2) in
  r3.1 ≠ r1.1.
Proof.
  pose proof (inv_manager _ (Inv_run two_shells)) as Hwf.
  split; [exact Hwf|].
  exact (proj1 (proj2
    (getConnection_instance "client_1" (run two_shells initial) Hwf))).
Defined.

Lemma disconnect_teardown_witness :
  conns (run two_shells initial) !! 0 = Some two_shells_conn ∧
  SSHConnection.getActiveShells 0
    (SSHConnection.disconnect 0 (run two_shells initial)) = [] ∧
  SSHConnection.disconnect 0
    (SSHConnection.disconnect 0 (run two_shells initial)) =
  SSHConnection.disconnect 0 (run two_shells initial).
Proof.
  pose proof (disconnect_teardown 0 (run two_shells initial) two_shells_conn
                two_shells_conn_lookup) as H.
  split; [exact two_shells_conn_lookup|].
  split; [exact (proj1 (proj2 H))|exact (proj1 (proj2 (proj2 (proj2 H))))].
Defined.

Lemma startShell_fails_witness :
  conns (run two_shells initial) !! 0 = Some two_shells_conn ∧
  (connected two_shells_conn = false ∨
   JSMap.has "a" (shells two_shells_conn) = true) ∧
  let r := SSHConnection.startShell 0 "a" (OutputTo 1 "a") (ClosedTo 1 "a")
             80 24 (run two_shells initial) in
  promise_state r.1 r.2 = Some (Rejected "Shell session a already exists") ∧
  conns r.2 = conns (run two_shells initial).
Proof.
  assert (Hdup : connected two_shells_conn = false ∨
                 JSMap.has "a" (shells two_shells_conn) = true)
    by (right; vm_compute; reflexivity).
  pose proof (startShell_fails 0 "a" (OutputTo 1 "a") (ClosedTo 1 "a") 80 24
                (run two_shells initial) two_shells_conn
                two_shells_conn_lookup Hdup) as H.
  split; [exact two_shells_conn_lookup|]. split; [exact Hdup|].
  split; [exact (proj1 H)|exact (proj1 (proj2 (proj2 H)))].
Defined.

Lemma setupPortForward_fails_witness :
  conns (run two_shells initial) !! 0 = Some two_shells_conn ∧
  let config := {| pf_localPort := 9000; pf_remoteHost := "127.0.0.1";
                   pf_remotePort := 80 |} in
  let r := SSHConnection.setupPortForward 0 config (run two_shells initial) in
  let w' := step (ServerError 0 "listen EADDRINUSE") r.2 in
  promise_state r.1 w' = Some (Rejected "listen EADDRINUSE") ∧
  conns w' = conns (run two_shells initial).
Proof.
  split; [exact two_shells_conn_lookup|].
  intros config r w'.
  assert (Hcon : connected two_shells_conn = true) by reflexivity.
  assert (Hfree : portForwards two_shells_conn !! pf_localPort config = None)
    by (vm_compute; reflexivity).
  pose proof (proj2 (setupPortForward_fails 0 config (run two_shells initial)
                       two_shells_conn two_shells_conn_lookup)
                Hcon Hfree "listen EADDRINUSE") as H.
  split; [exact (proj1 H)|exact (proj1 (proj2 H))].
Defined.

Lemma closeShell_frame_witness :
  shells_wf (run two_shells initial) ∧
  conns (run two_shells initial) !! 0 = Some two_shells_conn ∧
  "b" ≠ "a" ∧
  JSMap.get "b" (shells two_shells_conn) = Some 1 ∧
  let w' := (SSHConnection.closeShell 0 "a" (run two_shells initial)).2 in
  "b" ∈ SSHConnection.getActiveShells 0 w' ∧
  SSHConnection.writeToShell 0 "b" (Some "ls") w' =
    (true, upd_stream 1 (stream_write (Some "ls")) w').
Proof.
  pose proof (inv_shells _ (Inv_run two_shells)) as Hwf.
  assert (Hne : "b" ≠ "a") by discriminate.
  assert (Hb : JSMap.get "b" (shells two_shells_conn) = Some 1)
    by reflexivity.
  pose proof (closeShell_frame 0 "a" "b" (run two_shells initial)
                two_shells_conn 1 (Some "ls") Hwf two_shells_conn_lookup
                Hne Hb) as H.
  split; [exact Hwf|]. split; [exact two_shells_conn_lookup|].
  split; [exact Hne|]. split; [exact Hb|].
  split; [exact (proj1 (proj2 H))|exact (proj2 (proj2 (proj2 (proj2 H))))].
Defined.

Lemma handleInput_unknown_session_witness :
  connections (run two_shells initial) !! "client_1" = Some 0 ∧
  JSMap.get "zz" (shells two_shells_conn) = None ∧
  SSHHandler.handleInput "client_1" (Some (InputObj (Some "zz") (Some "ls")))
    (run two_shells initial) =
  (Returned, upd_stream 0 (stream_write (Some "ls")) (run two_shells initial)).
Proof.
  assert (Hreg : connections (run two_shells initial) !! "client_1" = Some 0)
    by (vm_compute; reflexivity).
  assert (Hget : JSMap.get "zz" (shells two_shells_conn) = None)
    by reflexivity.
  assert (Hst : streams (run two_shells initial) !! 0 =
     Some (mkStream 0 "a" (OutputTo 1 "a") (ClosedTo 1 "a") []
             (Some (24, 80)%Z) 0 false)) by (vm_compute; reflexivity).
  assert (Hne : "zz" ≠ EmptyString) by discriminate.
  split; [exact Hreg|]. split; [exact Hget|].
  exact (proj1 (proj2 (proj2
    (handleInput_unknown_session "client_1" "zz" "ls" "a"
       (run two_shells initial) 0 two_shells_conn 0 [("b", 1)] _
       Hreg two_shells_conn_lookup eq_refl eq_refl Hst Hne Hget)))).
Defined.

(** * Further properties of the SSH layer *)

(** ** Shell sessions: unknown ids, opening, closing *)

(** [writeToShell], [resizeShell] and [closeShell] for a session id that
    is not in the shell map return false and change nothing. *)
Theorem unknown_session_noop (this : ConnRef) (sessionId : string)
    (data : option string) (cols rows : Z) (w : World) (c : SSHConnection) :
  conns w !! this = Some c →
  JSMap.get sessionId (shells c) = None →
  SSHConnection.writeToShell this sessionId data w = (false, w) ∧
  SSHConnection.resizeShell this sessionId cols rows w = (false, w) ∧
  SSHConnection.closeShell this sessionId w = (false, w) ∧
  SSHConnection.hasShell this sessionId w = false.
Proof.
  intros Hc Hs.
  unfold SSHConnection.writeToShell, SSHConnection.resizeShell,
    SSHConnection.closeShell, SSHConnection.hasShell, JSMap.has.
  by rewrite Hc, Hs.
Qed.

Lemma set_absent {K V} `{EqDecision K} (k : K) (v : V) (m : list (K * V)) :
  JSMap.get k m = None → JSMap.set k v m = m ++ [(k, v)].
Proof.
  induction m as [|[k' v'] m IH]; simpl; [done|].
  destruct (decide (k = k')); [done|]. intros Hg. by rewrite IH.
Qed.

Lemma keys_delete_not_in {K V} `{EqDecision K} (k : K) (m : list (K * V)) :
  k ∉ JSMap.keys (JSMap.delete k m).
Proof.
  unfold JSMap.keys, JSMap.delete. intros Hin.
  apply list_elem_of_fmap in Hin as ([k' v] & Hk & Hin). simpl in Hk. subst k'.
  apply list_elem_of_filter in Hin as [Hne _]. by apply Hne.
Qed.

Lemma startShell_passes this sessionId onData onClose cols rows w c :
  conns w !! this = Some c → connected c = true →
  JSMap.get sessionId (shells c) = None →
  SSHConnection.startShell this sessionId onData onClose cols rows w =
    (length (promises w),
     set_shellReqs (λ rs, rs ++
         [mkShellReq this sessionId onData onClose cols rows
            (length (promises w)) false])
       (set_promises (λ ps, ps ++ [mkPromise Pending None]) w)).
Proof.
  intros Hc Hcon Hs. unfold SSHConnection.startShell, new_promise, JSMap.has.
  simpl. by rewrite Hc, Hcon, Hs.
Qed.

(** A shell request that passes the checks and is granted by the remote
    side: the promise, pending until then, is fulfilled; the session is
    appended to [getActiveShells], [hasShell] holds and [writeToShell]
    accepts data; the channel is new, sized as requested, and a second
    answer to the same request is ignored. *)
Theorem startShell_granted (this : ConnRef) (sessionId : string)
    (onData : DataCallback) (onClose : CloseCallback) (cols rows : Z)
    (data : option string) (w : World) (c : SSHConnection) :
  conns w !! this = Some c →
  connected c = true →
  JSMap.get sessionId (shells c) = None →
  let r := SSHConnection.startShell this sessionId onData onClose cols rows w in
  let w' := step (ShellAnswer (length (shellReqs w)) None) r.2 in
  promise_state r.1 r.2 = Some Pending ∧
  promise_state r.1 w' = Some Fulfilled ∧
  SSHConnection.hasShell this sessionId w' = true ∧
  SSHConnection.getActiveShells this w' =
    SSHConnection.getActiveShells this w ++ [sessionId] ∧
  streams w' = streams w ++
    [mkStream this sessionId onData onClose [] (Some (rows, cols)) 0 false] ∧
  (SSHConnection.writeToShell this sessionId data w').1 = true ∧
  (∀ err, step (ShellAnswer (length (shellReqs w)) err) w' = w').
Proof.
  intros Hc Hcon Hs r w'.
  assert (Hlt : this < length (conns w)) by by eapply lookup_lt_Some.
  subst w' r. rewrite (startShell_passes _ _ _ _ _ _ _ _ Hc Hcon Hs). simpl.
  rewrite lookup_app_r, Nat.sub_diag by lia. simpl.
  unfold SSHConnection.shell_callback, resolve. simpl.
  rewrite lookup_app_r, Nat.sub_diag by lia. simpl.
  unfold promise_state, SSHConnection.hasShell,
    SSHConnection.getActiveShells, SSHConnection.writeToShell, JSMap.has.
  simpl. rewrite !list_lookup_alter_eq, Hc. simpl.
  rewrite get_set_eq, (set_absent _ _ _ Hs).
  rewrite lookup_app_r, Nat.sub_diag by lia. simpl.
  rewrite insert_app_r_alt, Nat.sub_diag by lia. simpl.
  rewrite lookup_app_r, Nat.sub_diag by lia. simpl.
  unfold JSMap.keys. rewrite fmap_app. simpl.
  repeat split; try done.
  intros err. by rewrite lookup_app_r, Nat.sub_diag by lia.
Qed.

(** A shell request that passes the checks and is refused by the remote
    side: the promise is rejected with the remote reason, and no
    connection and no channel has changed. *)
Theorem startShell_refused (this : ConnRef) (sessionId : string)
    (onData : DataCallback) (onClose : CloseCallback) (cols rows : Z)
    (err : string) (w : World) (c : SSHConnection) :
  conns w !! this = Some c →
  connected c = true →
  JSMap.get sessionId (shells c) = None →
  let r := SSHConnection.startShell this sessionId onData onClose cols rows w in
  let w' := step (ShellAnswer (length (shellReqs w)) (Some err)) r.2 in
  promise_state r.1 w' = Some (Rejected err) ∧
  conns w' = conns w ∧ streams w' = streams w ∧
  SSHConnection.hasShell this sessionId w' = false.
Proof.
  intros Hc Hcon Hs r w'.
  subst w' r. rewrite (startShell_passes _ _ _ _ _ _ _ _ Hc Hcon Hs). simpl.
  rewrite lookup_app_r, Nat.sub_diag by lia. simpl.
  unfold SSHConnection.shell_callback, reject. simpl.
  rewrite lookup_app_r, Nat.sub_diag by lia. simpl.
  unfold promise_state, SSHConnection.hasShell, JSMap.has. simpl.
  rewrite insert_app_r_alt, Nat.sub_diag by lia. simpl.
  rewrite lookup_app_r, Nat.sub_diag by lia. simpl.
  by rewrite Hc, Hs.
Qed.

(** [closeShell] returns whether the session was in the map; when it was,
    the channel's [close] is called once, the session leaves the map and
    [getActiveShells], and a second [closeShell] finds nothing. *)
Theorem closeShell_removes (this : ConnRef) (sessionId : string) (w : World)
    (c : SSHConnection) :
  conns w !! this = Some c →
  let r := SSHConnection.closeShell this sessionId w in
  SSHConnection.hasShell this sessionId w = r.1 ∧
  SSHConnection.hasShell this sessionId r.2 = false ∧
  (sessionId ∉ SSHConnection.getActiveShells this r.2) ∧
  SSHConnection.closeShell this sessionId r.2 = (false, r.2) ∧
  (∀ shell st, JSMap.get sessionId (shells c) = Some shell →
     streams w !! shell = Some st →
     streams r.2 !! shell = Some (stream_close st) ∧
     st_closeCalls (stream_close st) = S (st_closeCalls st)).
Proof.
  intros Hc r. subst r.
  unfold SSHConnection.hasShell, SSHConnection.getActiveShells, JSMap.has.
  destruct (JSMap.get sessionId (shells c)) as [shell|] eqn:Hs.
  - rewrite (closeShell_present _ _ _ _ _ Hc Hs). simpl.
    rewrite Hc, Hs, list_lookup_alter_eq, Hc. simpl.
    rewrite get_delete_eq.
    split; [done|]. split; [done|]. split; [apply keys_delete_not_in|].
    split.
    + unfold SSHConnection.closeShell. simpl.
      rewrite list_lookup_alter_eq, Hc. simpl. by rewrite get_delete_eq.
    + intros shell' st [= <-] Hst. by rewrite list_lookup_alter_eq, Hst.
  - rewrite (closeShell_absent _ _ _ _ Hc Hs). simpl. rewrite Hc, Hs.
    split; [done|]. split; [done|]. split.
    + intros Hin. unfold JSMap.keys in Hin.
      apply list_elem_of_fmap in Hin as ([k v] & -> & Hin).
      clear Hc. induction (shells c) as [|[k' v'] m IH]; simpl in *.
      * by apply elem_of_nil in Hin.
      * destruct (decide (k = k')) as [->|Hne]; [done|].
        apply elem_of_cons in Hin as [[=]|Hin]; [done|]. by apply IH.
    + split; [by apply (closeShell_absent _ _ _ c)|]. by intros shell st [=].
Qed.

(** A channel's 'close' event deletes the channel's session id from the
    shell map of its connection, whichever channel is registered under
    that id; only this channel is marked closed, [onClose] runs once, and a
    second 'close' of the same channel is ignored. *)
Theorem stream_close_event (s : StreamRef) (st : Stream) (w : World) :
  streams w !! s = Some st →
  st_closed st = false →
  let w' := step (StreamClose s) w in
  SSHConnection.hasShell (st_owner st) (st_sessionId st) w' = false ∧
  conns w' = alter (set_shells (JSMap.delete (st_sessionId st))) (st_owner st)
               (conns w) ∧
  streams w' = alter stream_closed s (streams w) ∧
  (∀ s', s' ≠ s → streams w' !! s' = streams w !! s') ∧
  outbox w' = outbox (SSHConnection.run_onClose (st_onClose st) w) ∧
  step (StreamClose s) w' = w'.
Proof.
  intros Hst Hopen w'. subst w'. simpl. rewrite Hst, Hopen.
  unfold SSHConnection.stream_on_close, SSHConnection.run_onClose,
    SSHConnection.hasShell, JSMap.has.
  destruct (st_onClose st) as [ws sid]. simpl.
  rewrite !list_lookup_alter_eq, Hst. simpl.
  split; [|split; [done|split; [done|split; [|done]]]].
  - destruct (conns w !! st_owner st) as [conn|]; simpl; [|done].
    by rewrite get_delete_eq.
  - intros s' Hne. by rewrite list_lookup_alter_ne.
Qed.

Lemma stream_close_event_witness :
  streams (run reopened initial) !! 0 =
    Some (mkStream 0 "a" (OutputTo 1 "a") (ClosedTo 1 "a") []
            (Some (24, 80)%Z) 1 false) ∧
  SSHConnection.getActiveShells 0 (run reopened initial) = ["b"; "a"] ∧
  let w' := step (StreamClose 0) (run reopened initial) in
  SSHConnection.hasShell 0 "a" w' = false ∧
  SSHConnection.getActiveShells 0 w' = ["b"] ∧
  streams w' !! 2 =
    Some (mkStream 0 "a" (OutputTo 1 "a") (ClosedTo 1 "a") []
            (Some (24, 80)%Z) 0 false).
Proof.
  assert (Hst : streams (run reopened initial) !! 0 =
    Some (mkStream 0 "a" (OutputTo 1 "a") (ClosedTo 1 "a") []
            (Some (24, 80)%Z) 1 false)) by (vm_compute; reflexivity).
  split; [exact Hst|]. split; [vm_compute; reflexivity|].
  split; [exact (proj1 (stream_close_event 0 _ (run reopened initial)
                          Hst eq_refl))|].
  split; vm_compute; reflexivity.
Defined.

(** ** Port forwards *)

Lemma setupPortForward_passes this config w c :
  conns w !! this = Some c → connected c = true →
  portForwards c !! pf_localPort config = None →
  SSHConnection.setupPortForward this config w =
    (length (promises w),
     set_servers (λ ss, ss ++
         [mkServer this config (length (promises w)) Binding 0])
       (set_promises (λ ps, ps ++ [mkPromise Pending None]) w)).
Proof.
  intros Hc Hcon Hfree. unfold SSHConnection.setupPortForward, new_promise.
  simpl. rewrite Hc, Hcon. simpl. rewrite bool_decide_false; [done|].
  rewrite Hfree. by intros [? ?].
Qed.

(** A forward of a port that [net] takes and that passes the checks is
    registered by the server's 'listening' event and by nothing before:
    then the promise is fulfilled, the forward map holds the listening
    server under the local port, and a further [setupPortForward] for
    that port is rejected. *)
Theorem setupPortForward_listening (this : ConnRef) (config : PortForwardData)
    (w : World) (c : SSHConnection) :
  conns w !! this = Some c →
  connected c = true →
  portForwards c !! pf_localPort config = None →
  valid_port (pf_localPort config) →
  let r := SSHConnection.setupPortForward this config w in
  let server := length (servers w) in
  let w' := step (ServerListening server) r.2 in
  conns r.2 = conns w ∧
  promise_state r.1 r.2 = Some Pending ∧
  promise_state r.1 w' = Some Fulfilled ∧
  conns w' !! this =
    Some (set_portForwards (<[pf_localPort config := server]>) c) ∧
  servers w' !! server = Some (mkServer this config r.1 Listening 0) ∧
  ∀ config', pf_localPort config' = pf_localPort config →
    let r' := SSHConnection.setupPortForward this config' w' in
    promise_state r'.1 r'.2 =
      Some (Rejected ("Port " +:+ pretty (pf_localPort config) +:+
                      " is already forwarded")) ∧
    conns r'.2 = conns w' ∧ servers r'.2 = servers w'.
Proof.
  intros Hc Hcon Hfree _ r server w'.
  assert (Hc' : conns w' !! this =
    Some (set_portForwards (<[pf_localPort config := server]>) c)).
  { subst w' r server.
    rewrite (setupPortForward_passes _ _ _ _ Hc Hcon Hfree). simpl.
    rewrite lookup_app_r, Nat.sub_diag by lia. simpl.
    unfold SSHConnection.server_on_listening. rewrite conns_resolve. simpl.
    by rewrite list_lookup_alter_eq, Hc. }
  split; [|split; [|split; [|split; [done|split]]]].
  - subst r. by rewrite (setupPortForward_passes _ _ _ _ Hc Hcon Hfree).
  - subst r. rewrite (setupPortForward_passes _ _ _ _ Hc Hcon Hfree).
    unfold promise_state. simpl. by rewrite lookup_app_r, Nat.sub_diag by lia.
  - subst w' r server.
    rewrite (setupPortForward_passes _ _ _ _ Hc Hcon Hfree). simpl.
    rewrite lookup_app_r, Nat.sub_diag by lia. simpl.
    unfold SSHConnection.server_on_listening, resolve, promise_state. simpl.
    rewrite lookup_app_r, Nat.sub_diag by lia. simpl.
    rewrite insert_app_r_alt, Nat.sub_diag by lia. simpl.
    by rewrite lookup_app_r, Nat.sub_diag by lia.
  - subst w' r server.
    rewrite (setupPortForward_passes _ _ _ _ Hc Hcon Hfree). simpl.
    rewrite lookup_app_r, Nat.sub_diag by lia. simpl.
    unfold SSHConnection.server_on_listening, resolve. simpl.
    rewrite lookup_app_r, Nat.sub_diag by lia. simpl.
    rewrite list_lookup_alter_eq.
    by rewrite lookup_app_r, Nat.sub_diag by lia.
  - intros config' Hport r'.
    assert (Hr' : r' = (length (promises w'),
       set_promises (λ ps, ps ++ [mkPromise
         (Rejected ("Port " +:+ pretty (pf_localPort config) +:+
                    " is already forwarded")) None]) w')).
    { subst r'. unfold SSHConnection.setupPortForward.
      pose proof (reject_new_promise
        ("Port " +:+ pretty (pf_localPort config') +:+ " is already forwarded")
        w') as Hd.
      unfold new_promise in *. simpl in *. rewrite Hc'. simpl.
      rewrite Hcon. simpl. rewrite bool_decide_true;
        [|rewrite Hport, lookup_insert_eq; by eexists].
      rewrite Hd. by rewrite Hport. }
    clearbody r'. subst r'. simpl.
    split; [apply promise_state_rejected_new|done].
Qed.

Lemma conns_stopPortForward this localPort w c :
  conns w !! this = Some c →
  conns (SSHConnection.stopPortForward this localPort w) !! this =
    Some (set_portForwards (delete localPort) c).
Proof.
  intros Hc. unfold SSHConnection.stopPortForward. rewrite Hc.
  destruct (portForwards c !! localPort) as [server|] eqn:Hs; simpl.
  - by rewrite list_lookup_alter_eq, Hc.
  - rewrite Hc. destruct c as [sh pf con cl]. unfold set_portForwards.
    simpl in *. by rewrite delete_id.
Qed.

Lemma stopPortForward_present this localPort w c server :
  conns w !! this = Some c → portForwards c !! localPort = Some server →
  SSHConnection.stopPortForward this localPort w =
    upd_conn this (set_portForwards (delete localPort))
      (upd_server server server_close w).
Proof.
  intros Hc Hs. unfold SSHConnection.stopPortForward. by rewrite Hc, Hs.
Qed.

Lemma listening_after_setup this config w c :
  conns w !! this = Some c → connected c = true →
  portForwards c !! pf_localPort config = None →
  step (ServerListening (length (servers w)))
    (SSHConnection.setupPortForward this config w).2 =
  resolve (length (promises w))
    (upd_conn this
       (set_portForwards (<[pf_localPort config := length (servers w)]>))
       (upd_server (length (servers w)) (server_set_state Listening)
          (set_servers (λ ss, ss ++
              [mkServer this config (length (promises w)) Binding 0])
             (set_promises (λ ps, ps ++ [mkPromise Pending None]) w)))).
Proof.
  intros Hc Hcon Hfree.
  rewrite (setupPortForward_passes _ _ _ _ Hc Hcon Hfree). simpl.
  by rewrite lookup_app_r, Nat.sub_diag by lia.
Qed.

(** [stopPortForward] closes the listener registered under the local
    port and deletes the entry, leaving the other forwards, the shells
    and the connected flag; for a port that is not forwarded it changes
    nothing, so stopping twice is stopping once. *)
Theorem stopPortForward_stops (this : ConnRef) (localPort : Z) (w : World)
    (c : SSHConnection) :
  conns w !! this = Some c →
  let w' := SSHConnection.stopPortForward this localPort w in
  conns w' !! this = Some (set_portForwards (delete localPort) c) ∧
  (portForwards c !! localPort = None → w' = w) ∧
  (∀ server, portForwards c !! localPort = Some server →
     servers w' = alter server_close server (servers w) ∧
     (server < length (servers w) → server_closed server w')) ∧
  SSHConnection.stopPortForward this localPort w' = w'.
Proof.
  intros Hc w'. subst w'. unfold SSHConnection.stopPortForward. rewrite Hc.
  destruct (portForwards c !! localPort) as [server|] eqn:Hs; simpl.
  - rewrite list_lookup_alter_eq, Hc. simpl. rewrite lookup_delete_eq.
    split; [done|]. split; [done|]. split; [|done].
    intros server' [= <-]. split; [done|]. intros Hlt.
    destruct (lookup_lt_is_Some_2 (servers w) server Hlt) as [sv Hsv].
    exists (server_close sv). simpl. by rewrite list_lookup_alter_eq, Hsv.
  - rewrite Hc, Hs. split; [|done].
    destruct c as [sh pf con cl]. unfold set_portForwards. simpl in *.
    by rewrite delete_id.
Qed.

(** Setting a forward up, letting it listen and stopping it leaves the
    connection as it was, with the listener closed, and the same port
    passes the checks of [setupPortForward] again. *)
Theorem forward_round_trip (this : ConnRef) (config : PortForwardData)
    (w : World) (c : SSHConnection) :
  conns w !! this = Some c →
  connected c = true →
  portForwards c !! pf_localPort config = None →
  let server := length (servers w) in
  let w1 := step (ServerListening server)
              (SSHConnection.setupPortForward this config w).2 in
  let w2 := SSHConnection.stopPortForward this (pf_localPort config) w1 in
  conns w2 = conns w ∧
  server_closed server w2 ∧
  servers (SSHConnection.setupPortForward this config w2).2 =
    servers w2 ++
    [mkServer this config (SSHConnection.setupPortForward this config w2).1
       Binding 0].
Proof.
  intros Hc Hcon Hfree server w1 w2.
  assert (Hw1 : w1 = resolve (length (promises w))
    (upd_conn this (set_portForwards (<[pf_localPort config := server]>))
       (upd_server server (server_set_state Listening)
          (set_servers (λ ss, ss ++
              [mkServer this config (length (promises w)) Binding 0])
             (set_promises (λ ps, ps ++ [mkPromise Pending None]) w)))))
    by by apply (listening_after_setup this config w c).
  assert (Hc1 : conns w1 !! this =
    Some (set_portForwards (<[pf_localPort config := server]>) c)).
  { rewrite Hw1, conns_resolve. simpl. by rewrite list_lookup_alter_eq, Hc. }
  assert (Hs1 : portForwards (set_portForwards
      (<[pf_localPort config := server]>) c) !! pf_localPort config
      = Some server) by (simpl; apply lookup_insert_eq).
  assert (Hw2 : w2 = upd_conn this (set_portForwards (delete (pf_localPort config)))
                       (upd_server server server_close w1))
    by exact (stopPortForward_present this (pf_localPort config) w1 _ server
                Hc1 Hs1).
  assert (Hback : set_portForwards (delete (pf_localPort config))
            (set_portForwards (<[pf_localPort config := server]>) c) = c).
  { destruct c as [sh pf con cl]. unfold set_portForwards. simpl in *.
    by rewrite delete_insert_id. }
  assert (Hconns : conns w2 = conns w).
  { rewrite Hw2. simpl. apply list_eq. intros i.
    destruct (decide (this = i)) as [<-|Hne].
    - by rewrite list_lookup_alter_eq, Hc1, Hc; simpl; rewrite Hback.
    - rewrite list_lookup_alter_ne by done.
      rewrite Hw1, conns_resolve. simpl. by rewrite list_lookup_alter_ne. }
  split; [done|]. split.
  - rewrite Hw2. unfold server_closed. simpl.
    assert (Hlt : server < length (servers w1)).
    { rewrite Hw1. unfold resolve. simpl.
      rewrite lookup_app_r, Nat.sub_diag by lia. simpl.
      rewrite length_alter, length_app. simpl. subst server. lia. }
    destruct (lookup_lt_is_Some_2 (servers w1) server Hlt) as [sv Hsv].
    exists (server_close sv). by rewrite list_lookup_alter_eq, Hsv.
  - assert (Hc2 : conns w2 !! this = Some c) by by rewrite Hconns.
    by rewrite (setupPortForward_passes _ _ _ _ Hc2 Hcon Hfree).
Qed.

(** ** The handlers of one-way messages *)

Lemma outbox_writeToShell this sessionId data w :
  outbox (SSHConnection.writeToShell this sessionId data w).2 = outbox w.
Proof.
  unfold SSHConnection.writeToShell.
  destruct (conns w !! this) as [c|]; [|done].
  by destruct (JSMap.get sessionId (shells c)).
Qed.

Lemma outbox_write this data w :
  outbox (SSHConnection.write this data w) = outbox w.
Proof.
  unfold SSHConnection.write.
  destruct (conns w !! this) as [c|]; [|done].
  by destruct (JSMap.first_value (shells c)).
Qed.

Lemma outbox_resizeShell this sessionId cols rows w :
  outbox (SSHConnection.resizeShell this sessionId cols rows w).2 = outbox w.
Proof.
  unfold SSHConnection.resizeShell.
  destruct (conns w !! this) as [c|]; [|done].
  by destruct (JSMap.get sessionId (shells c)).
Qed.

Lemma outbox_resize this cols rows w :
  outbox (SSHConnection.resize this cols rows w) = outbox w.
Proof.
  unfold SSHConnection.resize.
  destruct (conns w !! this) as [c|]; [|done].
  by destruct (JSMap.first_value (shells c)).
Qed.

(** [handleInput] and [handleResize] never send anything to the client,
    whatever the message and the state, and never settle or create a
    promise. *)
Theorem input_resize_silent (clientId : string) (input : option InputData)
    (size : ResizeData) (w : World) :
  outbox (SSHHandler.handleInput clientId input w).2 = outbox w ∧
  outbox (SSHHandler.handleResize clientId size w) = outbox w.
Proof.
  unfold SSHHandler.handleInput, SSHHandler.handleResize.
  pose proof (outbox_getConnection clientId w) as Ho.
  destruct (SSHManager.getConnection clientId w) as [connection w1].
  simpl in Ho. split.
  - destruct (SSHConnection.isConnected connection w1); [|done].
    destruct (SSHHandler.input_chunk _) as [chunk|]; [|done].
    match goal with
    | |- context [SSHConnection.writeToShell ?a ?b ?c ?d] =>
        pose proof (outbox_writeToShell a b c d) as Hw;
        destruct (SSHConnection.writeToShell a b c d) as [written w2]
    end.
    simpl in Hw. destruct written; simpl; [congruence|].
    rewrite outbox_write. congruence.
  - destruct (SSHConnection.isConnected connection w1); [|done].
    destruct (truthy (rs_sessionId size)).
    + rewrite outbox_resizeShell. done.
    + rewrite outbox_resize. done.
Qed.

Lemma input_chunk_None input :
  SSHHandler.input_chunk (SSHHandler.input_value input) = None ↔ input = None.
Proof.
  destruct input as [[sessionId [input|]|legacy]|]; simpl; try done.
  by destruct (bool_decide (input = EmptyString)).
Qed.

(** For data that, when an object, has an [input] field, [handleInput]
    throws exactly when the connection is connected and the message has
    no data; it has then written nothing. On a connection that is not
    connected the message is dropped without a trace. *)
Theorem handleInput_throws (clientId : string) (input : option InputData)
    (w : World) :
  has_input input →
  let g := SSHManager.getConnection clientId w in
  let r := SSHHandler.handleInput clientId input w in
  (r.1 = Threw ↔ input = None ∧ SSHConnection.isConnected g.1 g.2 = true) ∧
  (r.1 = Threw → r.2 = g.2) ∧
  (SSHConnection.isConnected g.1 g.2 = false → r = (Returned, g.2)).
Proof.
  intros _ g r. subst g r. unfold SSHHandler.handleInput.
  destruct (SSHManager.getConnection clientId w) as [connection w1]. simpl.
  destruct (SSHConnection.isConnected connection w1) eqn:Hcon.
  - pose proof (input_chunk_None input) as Hnone.
    destruct (SSHHandler.input_chunk (SSHHandler.input_value input))
      as [chunk|].
    + assert (Hin : input ≠ None) by (intros Hx; by apply Hnone in Hx).
      match goal with
      | |- context [SSHConnection.writeToShell ?a ?b ?c ?d] =>
          destruct (SSHConnection.writeToShell a b c d) as [[] w2]
      end; simpl; (split; [split; [done|by intros [? _]]|split; done]).
    + simpl. split; [split; [|done]|split; done].
      intros _. split; [by apply Hnone|done].
  - split; [split; [done|by intros [_ ?]]|split; done].
Qed.

(** The legacy format (the data is the input string itself), a missing
    session id, an empty one and "default" all address the session
    "default"; an empty input string is written like any other. *)
Theorem handleInput_default_session (clientId input : string) (w : World) :
  let written := SSHHandler.handleInput clientId
                   (Some (InputObj (Some "default") (Some input))) w in
  SSHHandler.handleInput clientId (Some (InputLegacy input)) w = written ∧
  SSHHandler.handleInput clientId (Some (InputObj None (Some input))) w
    = written ∧
  SSHHandler.handleInput clientId
    (Some (InputObj (Some EmptyString) (Some input))) w = written ∧
  ∀ sessionId,
    SSHHandler.input_chunk
      (SSHHandler.input_value (Some (InputObj sessionId (Some input)))) =
    Some (Some input).
Proof.
  intros written. subst written. unfold SSHHandler.handleInput.
  destruct (SSHManager.getConnection clientId w) as [connection w1].
  split; [|split; [|split; [|intros; apply input_chunk_value]]];
    (destruct (SSHConnection.isConnected connection w1); [|done]);
    rewrite (input_chunk_value (Some "default") input),
      ?(input_chunk_value None input),
      ?(input_chunk_value (Some EmptyString) input); done.
Qed.

(** [ssh_resize] with a session id that is not in the shell map is
    dropped: unlike [ssh_input] it has no fallback to the first shell.
    Without a session id it resizes the first shell of the map. *)
Theorem handleResize_sessions (clientId sessionId : string) (cols rows : Z)
    (w : World) (connection : ConnRef) (c : SSHConnection) :
  connections w !! clientId = Some connection →
  conns w !! connection = Some c →
  connected c = true →
  (sessionId ≠ EmptyString → JSMap.get sessionId (shells c) = None →
     SSHHandler.handleResize clientId
       {| rs_sessionId := Some sessionId; rs_cols := cols; rs_rows := rows |} w
     = w) ∧
  (∀ shell, sessionId ≠ EmptyString →
     JSMap.get sessionId (shells c) = Some shell →
     SSHHandler.handleResize clientId
       {| rs_sessionId := Some sessionId; rs_cols := cols; rs_rows := rows |} w
     = upd_stream shell (stream_setWindow rows cols) w) ∧
  (∀ first firstShell rest, shells c = (first, firstShell) :: rest →
     SSHHandler.handleResize clientId
       {| rs_sessionId := None; rs_cols := cols; rs_rows := rows |} w
     = upd_stream firstShell (stream_setWindow rows cols) w).
Proof.
  intros Hreg Hc Hcon. unfold SSHHandler.handleResize.
  rewrite (getConnection_present _ _ _ Hreg).
  unfold SSHConnection.isConnected. rewrite Hc, Hcon. simpl.
  split; [|split].
  - intros Hne Hs. rewrite bool_decide_false by done. simpl.
    unfold SSHConnection.resizeShell. by rewrite Hc, Hs.
  - intros shell Hne Hs. rewrite bool_decide_false by done. simpl.
    unfold SSHConnection.resizeShell. by rewrite Hc, Hs.
  - intros first firstShell rest Hsh.
    unfold SSHConnection.resize. by rewrite Hc, Hsh.
Qed.

(** ** Starting a shell and connecting, request to reply *)

(** Missing data, missing fields, an empty session id and zero columns or
    rows all give the request for session "default" at 80 by 24. *)
Theorem handleStartShell_defaults (ws : WsRef) (clientId : string) (w : World) :
  let explicit := SSHHandler.handleStartShell ws clientId
    (Some {| ss_sessionId := Some "default"; ss_cols := Some 80%Z;
             ss_rows := Some 24%Z |}) w in
  SSHHandler.handleStartShell ws clientId None w = explicit ∧
  SSHHandler.handleStartShell ws clientId
    (Some {| ss_sessionId := None; ss_cols := None; ss_rows := None |}) w
    = explicit ∧
  SSHHandler.handleStartShell ws clientId
    (Some {| ss_sessionId := Some EmptyString; ss_cols := Some 0%Z;
             ss_rows := Some 0%Z |}) w
    = explicit.
Proof. repeat split. Qed.

Lemma startShell_duplicate this sessionId onData onClose cols rows w c :
  conns w !! this = Some c → connected c = true →
  JSMap.has sessionId (shells c) = true →
  SSHConnection.startShell this sessionId onData onClose cols rows w =
    (length (promises w),
     set_promises (λ ps, ps ++
         [mkPromise (Rejected ("Shell session " +:+ sessionId +:+
                               " already exists")) None]) w).
Proof.
  intros Hc Hcon Hhas. unfold SSHConnection.startShell.
  pose proof (reject_new_promise
    ("Shell session " +:+ sessionId +:+ " already exists") w) as Hd.
  unfold new_promise in *. simpl in *. rewrite Hc, Hcon, Hhas. simpl.
  by rewrite Hd.
Qed.

(** On a connected connection every [ssh_start_shell] gets exactly one
    reply: at once an error status when the session id is taken, and
    otherwise nothing until the remote side answers, then
    [ssh_shell_started] or an error status with the remote reason. *)
Theorem handleStartShell_replies (ws : WsRef) (clientId : string)
    (data : option StartShellData) (w : World) (connection : ConnRef)
    (c : SSHConnection) :
  connections w !! clientId = Some connection →
  conns w !! connection = Some c →
  connected c = true →
  let sessionId := or_default (data ≫= ss_sessionId) "default" in
  let w1 := SSHHandler.handleStartShell ws clientId data w in
  let answer err := step (ShellAnswer (length (shellReqs w)) err) w1 in
  (JSMap.has sessionId (shells c) = true →
     outbox w1 = outbox w ++
       [(ws, ssh_status "error"
               ("Shell session " +:+ sessionId +:+ " already exists"))] ∧
     conns w1 = conns w ∧ shellReqs w1 = shellReqs w) ∧
  (JSMap.has sessionId (shells c) = false →
     outbox w1 = outbox w ∧
     outbox (answer None) = outbox w ++ [(ws, ssh_shell_started sessionId)] ∧
     SSHConnection.hasShell connection sessionId (answer None) = true ∧
     ∀ err, outbox (answer (Some err)) =
              outbox w ++ [(ws, ssh_status "error" err)]).
Proof.
  intros Hreg Hc Hcon sessionId w1 answer. subst answer w1.
  unfold SSHHandler.handleStartShell.
  rewrite (getConnection_present _ _ _ Hreg).
  unfold SSHConnection.isConnected. rewrite Hc, Hcon. simpl.
  fold sessionId. split.
  - intros Hhas.
    rewrite (startShell_duplicate _ _ _ _ _ _ _ _ Hc Hcon Hhas).
    unfold await. simpl. by rewrite lookup_app_r, Nat.sub_diag by lia.
  - intros Hhas.
    assert (Hs : JSMap.get sessionId (shells c) = None).
    { unfold JSMap.has in Hhas. by destruct (JSMap.get _ _). }
    rewrite (startShell_passes _ _ _ _ _ _ _ _ Hc Hcon Hs).
    unfold await. simpl.
    rewrite lookup_app_r, Nat.sub_diag by lia. simpl.
    rewrite lookup_app_r, Nat.sub_diag by lia. simpl.
    unfold SSHConnection.shell_callback, resolve, reject. simpl.
    rewrite insert_app_r_alt, Nat.sub_diag by lia. simpl.
    rewrite lookup_app_r, Nat.sub_diag by lia. simpl.
    unfold SSHConnection.hasShell, JSMap.has. simpl.
    rewrite list_lookup_alter_eq, Hc. simpl. rewrite get_set_eq.
    done.
Qed.

(** [connect] passes one credential at most: the private key when there
    is one, else the password when there is one; an empty string counts as
    none. Host, port and user name are passed on, with the keep-alive
    settings 10000 ms and 3. *)
Theorem connectionConfig_credentials (config : ConnectData) :
  let cc := SSHConnection.connectionConfig config in
  ¬ (is_Some (cc_privateKey cc) ∧ is_Some (cc_password cc)) ∧
  (truthy (cd_privateKey config) = true →
     cc_privateKey cc = cd_privateKey config ∧ cc_password cc = None) ∧
  (truthy (cd_privateKey config) = false →
     cc_privateKey cc = None ∧
     cc_password cc =
       if truthy (cd_password config) then cd_password config else None) ∧
  cc_privateKey cc ≠ Some EmptyString ∧ cc_password cc ≠ Some EmptyString ∧
  (cc_host cc, cc_port cc, cc_username cc) =
    (cd_host config, cd_port config, cd_username config) ∧
  (cc_keepaliveInterval cc, cc_keepaliveCountMax cc) = (10000%Z, 3%Z).
Proof.
  intros cc. subst cc. unfold SSHConnection.connectionConfig, truthy. simpl.
  destruct (cd_privateKey config) as [k|], (cd_password config) as [p|];
    simpl; repeat case_bool_decide; simpl; subst;
    repeat split; try done; try (by intros [[? ?] [? ?]]);
    try (by intros [= ->]).
Qed.

Lemma resolve_settled p w : settled p w → resolve p w = w.
Proof.
  intros (st & Hst & Hne). unfold resolve, promise_state in *.
  destruct (promises w !! p) as [[[] k]|]; simpl in *; try done.
  by injection Hst as <-.
Qed.

Lemma reject_settled p message w : settled p w → reject p message w = w.
Proof.
  intros (st & Hst & Hne). unfold reject, promise_state in *.
  destruct (promises w !! p) as [[[] k]|]; simpl in *; try done.
  by injection Hst as <-.
Qed.

Lemma alter_alter_const {A} (f g : A → A) (i : nat) (l : list A) :
  (∀ x, f (g x) = f x) → alter f i (alter g i l) = alter f i l.
Proof.
  intros Hf. apply list_eq. intros j. destruct (decide (i = j)) as [<-|Hne].
  - rewrite !list_lookup_alter_eq. destruct (l !! i); simpl; [|done].
    by rewrite Hf.
  - by rewrite !list_lookup_alter_ne.
Qed.

(** Listeners whose promises are settled only set the flag. *)
Lemma emit_ready_settled this l w :
  Forall (λ p, settled p w) l →
  emit_ready this l w =
    match l with [] => w | _ => upd_conn this (set_connected true) w end.
Proof.
  unfold emit_ready. revert w. induction l as [|p l IH]; intros w Hl; [done|].
  apply Forall_cons in Hl as [Hp Hl]. simpl.
  unfold SSHConnection.on_ready at 2.
  rewrite (resolve_settled p (upd_conn this (set_connected true) w)) by done.
  rewrite IH by done. destruct l; [done|].
  unfold upd_conn, set_conns. simpl. f_equal. by apply alter_alter_const.
Qed.

Lemma emit_error_settled this err l w :
  Forall (λ p, settled p w) l →
  emit_error this err l w =
    match l with [] => w | _ => upd_conn this (set_connected false) w end.
Proof.
  unfold emit_error. revert w. induction l as [|p l IH]; intros w Hl; [done|].
  apply Forall_cons in Hl as [Hp Hl]. simpl.
  unfold SSHConnection.on_error at 2.
  rewrite (reject_settled p err (upd_conn this (set_connected false) w))
    by done.
  rewrite IH by done. destruct l; [done|].
  unfold upd_conn, set_conns. simpl. f_equal. by apply alter_alter_const.
Qed.

(** An [ssh_connect] with a configuration on which [client.connect]
    returns, on a connection whose earlier connection attempts are
    settled, the first attempt or a retry, is answered exactly once, when
    the client reports: success after 'ready', which makes the connection
    connected, or failure with the error's message after 'error', which
    leaves it not connected. Nothing is sent before. *)
Theorem handleConnect_replies (ws : WsRef) (clientId : string)
    (data : ConnectData) (w : World) (c : SSHConnection) :
  connect_returns data →
  let g := SSHManager.getConnection clientId w in
  conns g.2 !! g.1 = Some c →
  Forall (λ p, settled p w) (cl_listeners (client c)) →
  let w1 := SSHHandler.handleConnect ws clientId data w in
  outbox w1 = outbox w ∧
  SSHConnection.isConnected g.1 w1 = connected c ∧
  outbox (step (ClientReady g.1) w1) =
    outbox w ++ [(ws, ssh_connect_response true None)] ∧
  SSHConnection.isConnected g.1 (step (ClientReady g.1) w1) = true ∧
  ∀ err,
    outbox (step (ClientError g.1 err) w1) =
      outbox w ++ [(ws, ssh_connect_response false (Some err))] ∧
    SSHConnection.isConnected g.1 (step (ClientError g.1 err) w1) = false.
Proof.
  intros _ g Hc Hl w1. subst w1 g. unfold SSHHandler.handleConnect.
  pose proof (outbox_getConnection clientId w) as Ho.
  assert (Hpr : promises (SSHManager.getConnection clientId w).2 = promises w).
  { unfold SSHManager.getConnection. by destruct (connections w !! clientId). }
  destruct (SSHManager.getConnection clientId w) as [connection w0].
  simpl in *.
  unfold SSHConnection.connect, new_promise, await. simpl.
  rewrite lookup_app_r, Nat.sub_diag by lia. simpl.
  set (p := length (promises w0)).
  set (w1 := set_promises _ (upd_conn _ _ _)).
  assert (Hc1 : conns w1 !! connection = Some (set_client (λ cl,
      mkClient (cl_listeners cl ++ [p])
        (cl_connectCalls cl ++ [SSHConnection.connectionConfig data])
        (cl_endCalls cl)) c)).
  { subst w1. simpl. by rewrite list_lookup_alter_eq, Hc. }
  assert (Hp1 : promises w1 !! p =
                Some (mkPromise Pending (Some (AfterConnect ws)))).
  { subst w1 p. simpl. rewrite insert_app_r_alt, Nat.sub_diag by lia.
    by rewrite lookup_app_r, Nat.sub_diag by lia. }
  assert (Hl1 : Forall (λ q, settled q w1) (cl_listeners (client c))).
  { eapply Forall_impl; [exact Hl|]. intros q (st & Hst & Hne).
    exists st. split; [|done]. unfold promise_state in *.
    assert (Hlt : q < length (promises w0)).
    { rewrite Hpr. destruct (promises w !! q) eqn:Hq; [|done].
      by eapply lookup_lt_Some. }
    subst w1 p. simpl. rewrite list_lookup_insert_ne by lia.
    by rewrite lookup_app_l, Hpr by done. }
  assert (Ho1 : outbox w1 = outbox w) by (subst w1; simpl; done).
  split; [done|]. split.
  { unfold SSHConnection.isConnected. by rewrite Hc1. }
  unfold listeners_of. rewrite Hc1. simpl.
  unfold emit_ready, emit_error. rewrite !foldl_app. simpl.
  fold (emit_ready connection (cl_listeners (client c)) w1).
  rewrite (emit_ready_settled _ _ _ Hl1).
  assert (Hready : ∀ w2, promises w2 = promises w1 → outbox w2 = outbox w →
    connection < length (conns w2) →
    outbox (SSHConnection.on_ready connection p w2) =
      outbox w ++ [(ws, ssh_connect_response true None)] ∧
    SSHConnection.isConnected connection
      (SSHConnection.on_ready connection p w2) = true).
  { intros w2 Hp2 Ho2 Hlt. unfold SSHConnection.on_ready, resolve. simpl.
    rewrite Hp2, Hp1. simpl. rewrite Ho2. split; [done|].
    unfold SSHConnection.isConnected. simpl. rewrite list_lookup_alter_eq.
    destruct (lookup_lt_is_Some_2 _ _ Hlt) as [c2 Hc2]. by rewrite Hc2. }
  assert (Herror : ∀ err w2, promises w2 = promises w1 → outbox w2 = outbox w →
    connection < length (conns w2) →
    outbox (SSHConnection.on_error connection err p w2) =
      outbox w ++ [(ws, ssh_connect_response false (Some err))] ∧
    SSHConnection.isConnected connection
      (SSHConnection.on_error connection err p w2) = false).
  { intros err w2 Hp2 Ho2 Hlt. unfold SSHConnection.on_error, reject. simpl.
    rewrite Hp2, Hp1. simpl. rewrite Ho2. split; [done|].
    unfold SSHConnection.isConnected. simpl. rewrite list_lookup_alter_eq.
    destruct (lookup_lt_is_Some_2 _ _ Hlt) as [c2 Hc2]. by rewrite Hc2. }
  assert (Hlt1 : connection < length (conns w1)) by by eapply lookup_lt_Some.
  assert (Hsame : ∀ b, let w2 := match cl_listeners (client c) with
                                 | [] => w1
                                 | _ => upd_conn connection (set_connected b) w1
                                 end in
            promises w2 = promises w1 ∧ outbox w2 = outbox w ∧
            connection < length (conns w2)).
  { assert (Hlt0 : connection < length (conns w0))
      by by eapply lookup_lt_Some.
    intros b. destruct (cl_listeners (client c)); simpl;
      rewrite ?length_alter; repeat split; done. }
  destruct (Hsame true) as (Hs1 & Hs2 & Hs3).
  destruct (Hready _ Hs1 Hs2 Hs3) as [Hr1 Hr2].
  split; [done|]. split; [done|].
  intros err. rewrite foldl_app. simpl.
  fold (emit_error connection err (cl_listeners (client c)) w1).
  rewrite (emit_error_settled _ _ _ _ Hl1).
  destruct (Hsame false) as (He1 & He2 & He3).
  by apply Herror.
Qed.

(** ** Tearing down: [ssh_disconnect], [cleanup], the remote 'close' *)

Lemma outbox_close_all_shells m w :
  outbox (SSHConnection.close_all_shells m w) = outbox w.
Proof.
  unfold SSHConnection.close_all_shells.
  revert w. induction m as [|kv m IH]; intros w; simpl; [done|].
  by rewrite IH.
Qed.

Lemma outbox_close_all_servers m w :
  outbox (SSHConnection.close_all_servers m w) = outbox w.
Proof.
  unfold SSHConnection.close_all_servers.
  generalize (map_to_list m). intros l.
  revert w. induction l as [|kv l IH]; intros w; simpl; [done|].
  by rewrite IH.
Qed.

Lemma outbox_disconnect this w :
  outbox (SSHConnection.disconnect this w) = outbox w.
Proof.
  unfold SSHConnection.disconnect. destruct (conns w !! this) as [c|]; [|done].
  destruct (connected c); simpl;
    by rewrite outbox_close_all_servers; simpl;
       rewrite outbox_close_all_shells.
Qed.

Lemma disconnect_torn_down_self this w c :
  conns w !! this = Some c → torn_down this (SSHConnection.disconnect this w).
Proof.
  intros Hc. unfold torn_down. rewrite (conns_disconnect this w c Hc).
  rewrite list_lookup_insert_eq by by eapply lookup_lt_Some.
  by eexists.
Qed.

Lemma disconnect_keeps_torn_down this c w :
  torn_down c w → torn_down c (SSHConnection.disconnect this w).
Proof.
  intros Ht. destruct (decide (this = c)) as [->|Hne].
  - destruct Ht as (conn & Hconn & _). by eapply disconnect_torn_down_self.
  - destruct (conns w !! this) as [c0|] eqn:Hc0.
    + unfold torn_down. rewrite (conns_disconnect this w c0 Hc0).
      by rewrite list_lookup_insert_ne.
    + unfold SSHConnection.disconnect. by rewrite Hc0.
Qed.

(** [ssh_disconnect] tears the client's connection down (no shell, no
    forward, not connected), removes the client from the registry, leaves
    the other clients' entries, creates no instance, and answers with the
    one status "disconnected", also for a client that has no connection. *)
Theorem handleDisconnect_tears_down (ws : WsRef) (clientId : string)
    (w : World) :
  let w' := SSHHandler.handleDisconnect ws clientId w in
  SSHManager.hasConnection clientId w' = false ∧
  outbox w' = outbox w ++ [(ws, ssh_status "disconnected" "Disconnected")] ∧
  length (conns w') = length (conns w) ∧
  (∀ other, other ≠ clientId →
     connections w' !! other = connections w !! other) ∧
  (∀ connection c, connections w !! clientId = Some connection →
     conns w !! connection = Some c → torn_down connection w') ∧
  (connections w !! clientId = None →
     w' = sendFn ws (ssh_status "disconnected" "Disconnected") w).
Proof.
  intros w'. subst w'. unfold SSHHandler.handleDisconnect.
  unfold SSHManager.hasConnection. simpl.
  rewrite connections_removeConnection, length_conns_removeConnection.
  unfold SSHManager.removeConnection.
  destruct (connections w !! clientId) as [connection|] eqn:Hreg; simpl.
  - rewrite outbox_disconnect, connections_disconnect.
    repeat split; try done.
    + intros other Hne. by rewrite lookup_delete_ne.
    + intros connection' c [= <-] Hc. by eapply disconnect_torn_down_self.
  - repeat split; try done.
Qed.

Lemma cleanup_fold_facts (l : list (string * ConnRef)) w :
  let w' := foldl (λ w kv, SSHConnection.disconnect kv.2 w) w l in
  length (conns w') = length (conns w) ∧ outbox w' = outbox w ∧
  (∀ c, torn_down c w → torn_down c w') ∧
  (∀ cid c, (cid, c) ∈ l → c < length (conns w) → torn_down c w').
Proof.
  revert w. induction l as [|kv l IH]; intros w; simpl.
  - repeat split; try done. intros cid c Hin. by apply elem_of_nil in Hin.
  - destruct (IH (SSHConnection.disconnect kv.2 w)) as (Hlen & Hout & Hk & Hin).
    simpl in *. rewrite length_conns_disconnect in Hlen, Hin.
    rewrite outbox_disconnect in Hout.
    split; [done|]. split; [done|]. split.
    + intros c Ht. by apply Hk, disconnect_keeps_torn_down.
    + intros cid c Hel Hlt. apply elem_of_cons in Hel as [<-|Hel].
      * apply Hk. simpl.
        destruct (lookup_lt_is_Some_2 (conns w) c Hlt) as [conn Hconn].
        by eapply disconnect_torn_down_self.
      * by eapply Hin.
Qed.

(** [SSHManager.cleanup] empties the registry and tears down every
    connection that was registered; it creates no instance and sends
    nothing. *)
Theorem cleanup_tears_down_all (w : World) :
  let w' := SSHManager.cleanup w in
  connections w' = ∅ ∧
  length (conns w') = length (conns w) ∧
  outbox w' = outbox w ∧
  ∀ clientId connection,
    connections w !! clientId = Some connection →
    connection < length (conns w) →
    torn_down connection w' ∧ SSHManager.hasConnection clientId w' = false.
Proof.
  intros w'. subst w'. unfold SSHManager.cleanup.
  destruct (cleanup_fold_facts (map_to_list (connections w)) w)
    as (Hlen & Hout & _ & Hin).
  simpl in *. repeat split; try done.
  eapply Hin; [|done]. by apply elem_of_map_to_list.
Qed.

Lemma alter_idemp {A} (f : A → A) (i : nat) (l : list A) :
  (∀ x, f (f x) = f x) → alter f i (alter f i l) = alter f i l.
Proof.
  intros Hf. apply list_eq. intros j. destruct (decide (i = j)) as [<-|Hne].
  - rewrite !list_lookup_alter_eq. destruct (l !! i); simpl; [|done].
    by rewrite Hf.
  - by rewrite !list_lookup_alter_ne.
Qed.

Lemma emit_close_eq this l w :
  emit_close this l w =
    match l with [] => w | _ => upd_conn this (set_connected false) w end.
Proof.
  unfold emit_close. revert w. induction l as [|p l IH]; intros w; [done|].
  simpl. rewrite IH. destruct l; [done|].
  unfold SSHConnection.on_close, upd_conn, set_conns. simpl. f_equal.
  by apply alter_idemp.
Qed.

(** The client's 'close' event (the remote side or the network ended the
    connection) only clears the connected flag, and only once [connect]
    was called: shells and forwards stay registered, no channel and no
    server is closed, nothing is sent. [ssh_list_shells] then answers with
    the empty list although the shell map is unchanged. *)
Theorem client_close_event (c : ConnRef) (conn : SSHConnection) (w : World)
    (ws : WsRef) (clientId : string) :
  conns w !! c = Some conn →
  cl_listeners (client conn) ≠ [] →
  connections w !! clientId = Some c →
  let w' := step (ClientClose c) w in
  w' = upd_conn c (set_connected false) w ∧
  SSHConnection.isConnected c w' = false ∧
  SSHConnection.getActiveShells c w' = SSHConnection.getActiveShells c w ∧
  (∃ conn', conns w' !! c = Some conn' ∧ shells conn' = shells conn ∧
            portForwards conn' = portForwards conn) ∧
  streams w' = streams w ∧ servers w' = servers w ∧ outbox w' = outbox w ∧
  outbox (SSHHandler.handleListShells ws clientId w') =
    outbox w ++ [(ws, ssh_list_shells_response [])].
Proof.
  intros Hc Hl Hreg w'.
  assert (Hw' : w' = upd_conn c (set_connected false) w).
  { subst w'. simpl. rewrite emit_close_eq. unfold listeners_of. rewrite Hc.
    by destruct (cl_listeners (client conn)). }
  clearbody w'. subst w'.
  unfold SSHConnection.isConnected, SSHConnection.getActiveShells,
    SSHHandler.handleListShells, SSHManager.getConnection,
    SSHConnection.isConnected.
  simpl. rewrite Hreg. simpl. rewrite !list_lookup_alter_eq, Hc. simpl.
  repeat split; try done. by eexists.
Qed.

(** ** Port forwards, request to reply *)

(** On a connected connection an [ssh_port_forward] gets exactly one
    reply carrying the local port: at once a failure when the port is
    already forwarded; otherwise, for a port that [net] takes, nothing
    until the server reports, then success after 'listening', or failure
    with the bind error, which registers nothing. *)
Theorem handlePortForward_replies (ws : WsRef) (clientId : string)
    (data : PortForwardData) (w : World) (connection : ConnRef)
    (c : SSHConnection) :
  connections w !! clientId = Some connection →
  conns w !! connection = Some c →
  connected c = true →
  let w1 := SSHHandler.handlePortForward ws clientId data w in
  let server := length (servers w) in
  (is_Some (portForwards c !! pf_localPort data) →
     outbox w1 = outbox w ++
       [(ws, ssh_port_forward_response false (pf_localPort data)
               (Some ("Port " +:+ pretty (pf_localPort data) +:+
                      " is already forwarded")))] ∧
     conns w1 = conns w ∧ servers w1 = servers w) ∧
  (portForwards c !! pf_localPort data = None →
     valid_port (pf_localPort data) →
     outbox w1 = outbox w ∧
     outbox (step (ServerListening server) w1) =
       outbox w ++
       [(ws, ssh_port_forward_response true (pf_localPort data) None)] ∧
     ∀ err,
       outbox (step (ServerError server err) w1) =
         outbox w ++
         [(ws, ssh_port_forward_response false (pf_localPort data)
                 (Some err))] ∧
       conns (step (ServerError server err) w1) = conns w).
Proof.
  intros Hreg Hc Hcon w1 server. subst w1 server.
  unfold SSHHandler.handlePortForward.
  rewrite (getConnection_present _ _ _ Hreg).
  unfold SSHConnection.isConnected. rewrite Hc, Hcon. simpl. split.
  - intros Hdup. unfold SSHConnection.setupPortForward.
    pose proof (reject_new_promise
      ("Port " +:+ pretty (pf_localPort data) +:+ " is already forwarded")
      w) as Hd.
    unfold new_promise in *. simpl in *. rewrite Hc, Hcon. simpl.
    rewrite bool_decide_true by done. rewrite Hd.
    unfold await. simpl. by rewrite lookup_app_r, Nat.sub_diag by lia.
  - intros Hfree _.
    rewrite (setupPortForward_passes _ _ _ _ Hc Hcon Hfree).
    unfold await. simpl.
    rewrite lookup_app_r, Nat.sub_diag by lia. simpl.
    rewrite lookup_app_r, Nat.sub_diag by lia. simpl.
    unfold SSHConnection.server_on_listening, SSHConnection.server_on_error,
      resolve, reject. simpl.
    rewrite insert_app_r_alt, Nat.sub_diag by lia. simpl.
    rewrite lookup_app_r, Nat.sub_diag by lia. simpl.
    done.
Qed.

Lemma outbox_stopPortForward this localPort w :
  outbox (SSHConnection.stopPortForward this localPort w) = outbox w.
Proof.
  unfold SSHConnection.stopPortForward.
  destruct (conns w !! this) as [c|]; [|done].
  by destruct (portForwards c !! localPort).
Qed.

(** [ssh_stop_port_forward] is always answered with success, whether or
    not the port was forwarded; on a connection that is not connected the
    forward is not looked up at all, so a listener registered there stays
    open while success is reported. *)
Theorem handleStopPortForward_replies (ws : WsRef) (clientId : string)
    (localPort : Z) (w : World) :
  let g := SSHManager.getConnection clientId w in
  let w' := SSHHandler.handleStopPortForward ws clientId localPort w in
  outbox w' = outbox w ++
    [(ws, ssh_port_forward_response true localPort
            (Some "Port forward stopped"))] ∧
  (SSHConnection.isConnected g.1 g.2 = false →
     conns w' = conns g.2 ∧ servers w' = servers g.2) ∧
  (SSHConnection.isConnected g.1 g.2 = true →
     ∀ c, conns g.2 !! g.1 = Some c →
       conns w' !! g.1 = Some (set_portForwards (delete localPort) c)).
Proof.
  intros g w'. subst g w'. unfold SSHHandler.handleStopPortForward.
  pose proof (outbox_getConnection clientId w) as Ho.
  destruct (SSHManager.getConnection clientId w) as [connection w1].
  simpl in *. destruct (SSHConnection.isConnected connection w1); simpl.
  - rewrite outbox_stopPortForward, Ho. split; [done|]. split; [done|].
    intros _ c Hc. by apply conns_stopPortForward.
  - rewrite Ho. repeat split; done.
Qed.

(** ** Further invariants of reachable worlds *)

Lemma get_None_not_in_keys {K V} `{EqDecision K} (k : K) (m : list (K * V)) :
  JSMap.get k m = None → k ∉ JSMap.keys m.
Proof.
  unfold JSMap.keys. induction m as [|[k' v'] m IH]; simpl.
  - intros _ Hin. by apply elem_of_nil in Hin.
  - destruct (decide (k = k')) as [->|Hne]; [done|]. intros Hg Hin.
    apply elem_of_cons in Hin as [?|Hin]; [done|]. by apply IH.
Qed.

Lemma keys_set_present {K V} `{EqDecision K} (k : K) (v v0 : V) m :
  JSMap.get k m = Some v0 → JSMap.keys (JSMap.set k v m) = JSMap.keys m.
Proof.
  unfold JSMap.keys. induction m as [|[k' v'] m IH]; simpl; [done|].
  destruct (decide (k = k')) as [->|Hne]; simpl; [done|].
  intros Hg. f_equal. by apply IH.
Qed.

Lemma NoDup_keys_set {K V} `{EqDecision K} (k : K) (v : V) m :
  NoDup (JSMap.keys m) → NoDup (JSMap.keys (JSMap.set k v m)).
Proof.
  intros Hnd. destruct (JSMap.get k m) as [v0|] eqn:Hg.
  - by rewrite (keys_set_present _ _ _ _ Hg).
  - rewrite (set_absent _ _ _ Hg). unfold JSMap.keys. rewrite fmap_app.
    apply NoDup_app. split; [done|]. split.
    + intros x Hx Hin. simpl in Hin. apply list_elem_of_singleton in Hin.
      subst x. by apply (get_None_not_in_keys k m).
    + simpl. apply NoDup_singleton.
Qed.

Lemma NoDup_keys_delete {K V} `{EqDecision K} (k : K) (m : list (K * V)) :
  NoDup (JSMap.keys m) → NoDup (JSMap.keys (JSMap.delete k m)).
Proof.
  unfold JSMap.keys, JSMap.delete. induction m as [|[k' v'] m IH]; [done|].
  rewrite filter_cons. simpl. intros Hnd. inversion Hnd as [|? ? Hni Hnd']; subst.
  destruct (decide (k' ≠ k)); simpl; [|by apply IH].
  constructor; [|by apply IH]. intros Hin. apply Hni.
  apply list_elem_of_fmap in Hin as ([k0 v0] & -> & Hin).
  apply list_elem_of_filter in Hin as [_ Hin].
  apply list_elem_of_fmap. by exists (k0, v0).
Qed.

(** With unique keys, every pair of the list is what [get] finds. *)
Lemma elem_of_get {K V} `{EqDecision K} (k : K) (v : V) m :
  NoDup (JSMap.keys m) → (k, v) ∈ m → JSMap.get k m = Some v.
Proof.
  unfold JSMap.keys. induction m as [|[k' v'] m IH]; simpl.
  - intros _ Hin. by apply elem_of_nil in Hin.
  - intros Hnd Hin. inversion Hnd as [|? ? Hni Hnd']; subst.
    apply elem_of_cons in Hin as [[= <- <-]|Hin].
    + by rewrite decide_True.
    + destruct (decide (k = k')) as [->|Hne]; [|by apply IH].
      destruct Hni. apply list_elem_of_fmap. by exists (k', v).
Qed.

Lemma first_value_get {K V} `{EqDecision K} (v : V) (m : list (K * V)) :
  JSMap.first_value m = Some v → ∃ k, JSMap.get k m = Some v.
Proof.
  destruct m as [|[k' v'] m]; simpl; [done|]. intros [= ->].
  exists k'. by rewrite decide_True.
Qed.

(** Closing all channels of a list touches no other channel; likewise for
    servers. *)
Lemma close_all_shells_other (m : list (string * StreamRef)) s w :
  s ∉ m.*2 →
  streams (SSHConnection.close_all_shells m w) !! s = streams w !! s.
Proof.
  unfold SSHConnection.close_all_shells. revert w.
  induction m as [|kv m IH]; intros w Hni; simpl; [done|].
  rewrite fmap_cons in Hni. apply not_elem_of_cons in Hni as [Hne Hni].
  rewrite IH by done. simpl. by rewrite list_lookup_alter_ne.
Qed.

Lemma close_servers_other (l : list (Z * ServerRef)) s w :
  s ∉ l.*2 →
  servers (foldl (λ w kv, upd_server kv.2 server_close w) w l) !! s
    = servers w !! s.
Proof.
  revert w. induction l as [|kv l IH]; intros w Hni; simpl; [done|].
  rewrite fmap_cons in Hni. apply not_elem_of_cons in Hni as [Hne Hni].
  rewrite IH by done. simpl. by rewrite list_lookup_alter_ne.
Qed.

Lemma streams_close_all_servers m w :
  streams (SSHConnection.close_all_servers m w) = streams w.
Proof.
  unfold SSHConnection.close_all_servers.
  generalize (map_to_list m). intros l.
  revert w. induction l as [|kv l IH]; intros w; simpl; [done|].
  by rewrite IH.
Qed.

Lemma Inv2_initial : Inv2 initial.
Proof. split; done. Qed.

Lemma Inv2_frame w w' :
  conns w' = conns w → connections w' = connections w →
  streams w' = streams w → servers w' = servers w → Inv2 w → Inv2 w'.
Proof.
  intros H1 H2 H3 H4 [A B C D]. split.
  - intros c conn. rewrite H1. apply A.
  - intros a b c. rewrite H2. apply B.
  - intros c conn sessionId s. rewrite H1, H3. apply C.
  - intros c conn localPort s. rewrite H1, H4. apply D.
Qed.

Lemma Inv2_resolve p w : Inv2 w → Inv2 (resolve p w).
Proof.
  apply Inv2_frame; unfold resolve;
    destruct (promises w !! p) as [[[] [k|]]|]; try done; by destruct k.
Qed.

Lemma Inv2_reject p message w : Inv2 w → Inv2 (reject p message w).
Proof.
  apply Inv2_frame; unfold reject;
    destruct (promises w !! p) as [[[] [k|]]|]; try done; by destruct k.
Qed.

Lemma Inv2_await p k w : Inv2 w → Inv2 (await p k w).
Proof.
  apply Inv2_frame; unfold await;
    destruct (promises w !! p) as [[[] ?]|]; try done; by destruct k.
Qed.

Lemma lookup_upd_conn_inv this f w c conn :
  conns (upd_conn this f w) !! c = Some conn →
  (c ≠ this ∧ conns w !! c = Some conn) ∨
  (c = this ∧ ∃ conn0, conns w !! this = Some conn0 ∧ conn = f conn0).
Proof.
  simpl. destruct (decide (this = c)) as [<-|Hne].
  - rewrite list_lookup_alter_eq. intros Hc.
    apply fmap_Some in Hc as (c0 & Hc0 & ->). right. eauto.
  - rewrite list_lookup_alter_ne by done. intros Hc. left. eauto.
Qed.

Lemma Inv2_upd_conn_same this f w :
  (∀ c, shells (f c) = shells c ∧ portForwards (f c) = portForwards c) →
  Inv2 w → Inv2 (upd_conn this f w).
Proof.
  intros Hf [A B C D]. split; try done.
  - intros c conn Hc.
    apply lookup_upd_conn_inv in Hc as [[_ Hc]|[_ (c0 & Hc & ->)]];
      [|destruct (Hf c0) as [-> _]]; by eapply A.
  - intros c conn sessionId s Hc.
    apply lookup_upd_conn_inv in Hc as [[_ Hc]|[-> (c0 & Hc & ->)]];
      [|destruct (Hf c0) as [-> _]]; by eapply C.
  - intros c conn localPort s Hc.
    apply lookup_upd_conn_inv in Hc as [[_ Hc]|[-> (c0 & Hc & ->)]];
      [|destruct (Hf c0) as [_ ->]]; by eapply D.
Qed.

Lemma Inv2_upd_stream_same s g w :
  (∀ st, st_closed (g st) = st_closed st ∧
         st_closeCalls (g st) = st_closeCalls st) →
  Inv2 w → Inv2 (upd_stream s g w).
Proof.
  intros Hg [A B C D]. split; try done.
  intros c conn sessionId s0 Hc Hs. simpl.
  destruct (C c conn sessionId s0 Hc Hs) as (st & Hst & Hcl & Hcc).
  destruct (decide (s = s0)) as [->|Hne].
  - exists (g st). rewrite list_lookup_alter_eq, Hst.
    destruct (Hg st) as (-> & ->). done.
  - exists st. by rewrite list_lookup_alter_ne.
Qed.

Lemma Inv2_new_conn clientId w :
  manager_wf w → Inv2 w →
  Inv2 (set_connections (<[clientId := length (conns w)]>)
          (set_conns (λ cs, cs ++ [new_SSHConnection]) w)).
Proof.
  intros Hwf [A B C D].
  assert (Hnew : ∀ c conn, (conns w ++ [new_SSHConnection]) !! c = Some conn →
            conns w !! c = Some conn ∨ conn = new_SSHConnection).
  { intros c conn Hc. apply lookup_app_Some in Hc as [Hc|[_ Hc]]; [by left|].
    apply list_lookup_singleton_Some in Hc as [_ <-]. by right. }
  split.
  - intros c conn. simpl. intros Hc.
    apply Hnew in Hc as [Hc| ->]; [by eapply A|]. simpl. constructor.
  - intros a b c. simpl.
    destruct (decide (clientId = a)) as [<-|Ha],
             (decide (clientId = b)) as [<-|Hb]; try done.
    + rewrite lookup_insert_eq, lookup_insert_ne by done.
      intros [= <-] Hc. apply Hwf in Hc. lia.
    + rewrite lookup_insert_eq, lookup_insert_ne by done.
      intros Hc [= <-]. apply Hwf in Hc. lia.
    + rewrite !lookup_insert_ne by done. apply B.
  - intros c conn sessionId s. simpl. intros Hc.
    apply Hnew in Hc as [Hc| ->]; [by eapply C|done].
  - intros c conn localPort s. simpl. intros Hc.
    apply Hnew in Hc as [Hc| ->]; [by eapply D|done].
Qed.

Lemma Inv2_unregister clientId w :
  Inv2 w → Inv2 (set_connections (delete clientId) w).
Proof.
  intros [A B C D]. split; try done.
  intros a b c. simpl. intros Ha Hb.
  apply lookup_delete_Some in Ha as [_ Ha].
  apply lookup_delete_Some in Hb as [_ Hb]. by eapply B.
Qed.

Lemma Inv2_new_server sv w :
  Inv2 w → Inv2 (set_servers (λ ss, ss ++ [sv]) w).
Proof.
  intros [A B C D]. split; try done.
  intros c conn localPort s Hc Hs. simpl.
  destruct (D c conn localPort s Hc Hs) as (sv0 & Hsv & Hrest).
  exists sv0. split; [|done]. by apply lookup_app_l_Some.
Qed.

Lemma Inv2_server_failed s sv w :
  servers w !! s = Some sv → sv_state sv = Binding →
  Inv2 w → Inv2 (upd_server s (server_set_state Failed) w).
Proof.
  intros Hsv Hb [A B C D]. split; try done.
  intros c conn localPort s0 Hc Hs. simpl.
  destruct (D c conn localPort s0 Hc Hs) as (sv0 & Hsv0 & Ho & Hp & Hst).
  exists sv0. rewrite list_lookup_alter_ne; [done|]. intros ->. congruence.
Qed.

Lemma Inv2_listening s sv w :
  servers w !! s = Some sv →
  Inv2 w →
  Inv2 (upd_conn (sv_owner sv)
          (set_portForwards (<[pf_localPort (sv_config sv) := s]>))
          (upd_server s (server_set_state Listening) w)).
Proof.
  intros Hsv [A B C D]. split; try done.
  - intros c conn Hc.
    apply lookup_upd_conn_inv in Hc as [[_ Hc]|[_ (c0 & Hc & ->)]];
      simpl in *; by eapply A.
  - intros c conn sessionId s0 Hc.
    apply lookup_upd_conn_inv in Hc as [[_ Hc]|[-> (c0 & Hc & ->)]];
      simpl in *; intros Hs0;
      (destruct (C _ _ _ _ Hc Hs0) as (st0 & Hst0 & Hlive); by exists st0).
  - assert (Hold : ∀ c conn localPort s0, conns w !! c = Some conn →
      portForwards conn !! localPort = Some s0 →
      ∃ sv0, alter (server_set_state Listening) s (servers w) !! s0 = Some sv0 ∧
             sv_owner sv0 = c ∧ pf_localPort (sv_config sv0) = localPort ∧
             sv_state sv0 = Listening).
    { intros c conn localPort s0 Hc Hs.
      destruct (D c conn localPort s0 Hc Hs) as (sv0 & Hsv0 & Ho & Hp & Hst).
      destruct (decide (s = s0)) as [->|Hne].
      - exists (server_set_state Listening sv0).
        by rewrite list_lookup_alter_eq, Hsv0.
      - exists sv0. by rewrite list_lookup_alter_ne. }
    intros c conn localPort s0 Hc. simpl.
    apply lookup_upd_conn_inv in Hc as [[_ Hc]|[-> (c0 & Hc & ->)]];
      simpl in Hc; [by apply Hold|].
    simpl. destruct (decide (pf_localPort (sv_config sv) = localPort))
      as [<-|Hne].
    + rewrite lookup_insert_eq. intros [= <-].
      exists (server_set_state Listening sv).
      by rewrite list_lookup_alter_eq, Hsv.
    + rewrite lookup_insert_ne by done. by apply Hold.
Qed.

Lemma Inv2_stop this localPort server c w :
  conns w !! this = Some c → portForwards c !! localPort = Some server →
  Inv2 w →
  Inv2 (upd_conn this (set_portForwards (delete localPort))
          (upd_server server server_close w)).
Proof.
  intros Hthis Hserver [A B C D].
  destruct (D _ _ _ _ Hthis Hserver) as (svx & Hsvx & Hox & Hpx & _).
  split; try done.
  - intros c0 conn Hc.
    apply lookup_upd_conn_inv in Hc as [[_ Hc]|[_ (c1 & Hc & ->)]];
      simpl in *; by eapply A.
  - intros c0 conn sessionId s0 Hc.
    apply lookup_upd_conn_inv in Hc as [[_ Hc]|[-> (c1 & Hc & ->)]];
      simpl in *; intros Hs0;
      (destruct (C _ _ _ _ Hc Hs0) as (st0 & Hst0 & Hlive); by exists st0).
  - intros c0 conn lp s0 Hc Hs. simpl.
    assert (Hold : ∃ conn0, conns w !! c0 = Some conn0 ∧
              portForwards conn0 !! lp = Some s0 ∧ (c0, lp) ≠ (this, localPort)).
    { apply lookup_upd_conn_inv in Hc as [[Hne Hc]|[-> (c1 & Hc & ->)]];
        simpl in Hc.
      - exists conn. repeat split; try done. by intros [= ->].
      - simpl in Hs. apply lookup_delete_Some in Hs as [Hne Hs].
        exists c1. repeat split; try done. by intros [= ->]. }
    destruct Hold as (conn0 & Hc0 & Hs0 & Hne).
    destruct (D _ _ _ _ Hc0 Hs0) as (sv0 & Hsv0 & Ho & Hp & Hst).
    exists sv0. rewrite list_lookup_alter_ne; [done|].
    intros ->. apply Hne. congruence.
Qed.

Lemma Inv2_closeShell this sessionId s c w :
  shells_wf w →
  conns w !! this = Some c → JSMap.get sessionId (shells c) = Some s →
  Inv2 w →
  Inv2 (upd_conn this (set_shells (JSMap.delete sessionId))
          (upd_stream s stream_close w)).
Proof.
  intros Hwf Hthis Hs [A B C D].
  destruct (Hwf _ _ _ _ Hthis Hs) as (stx & Hstx & Hox & Hsx).
  split; try done.
  - intros c0 conn Hc.
    apply lookup_upd_conn_inv in Hc as [[_ Hc]|[_ (c1 & Hc & ->)]];
      simpl in *; [by eapply A|].
    apply NoDup_keys_delete. by eapply A.
  - intros c0 conn sid s0 Hc Hs0. simpl.
    assert (Hold : ∃ conn0, conns w !! c0 = Some conn0 ∧
              JSMap.get sid (shells conn0) = Some s0 ∧
              (c0, sid) ≠ (this, sessionId)).
    { apply lookup_upd_conn_inv in Hc as [[Hne Hc]|[-> (c1 & Hc & ->)]];
        simpl in Hc.
      - exists conn. repeat split; try done. by intros [= ->].
      - simpl in Hs0. exists c1.
        destruct (decide (sessionId = sid)) as [->|Hne].
        + by rewrite get_delete_eq in Hs0.
        + rewrite get_delete_ne in Hs0 by done.
          repeat split; try done. by intros [= ->]. }
    destruct Hold as (conn0 & Hc0 & Hg0 & Hne).
    destruct (C _ _ _ _ Hc0 Hg0) as (st0 & Hst0 & Hlive).
    destruct (Hwf _ _ _ _ Hc0 Hg0) as (st1 & Hst1 & Ho1 & Hs1).
    exists st0. rewrite list_lookup_alter_ne; [done|].
    intros ->. apply Hne. congruence.
  - intros c0 conn lp s0 Hc.
    apply lookup_upd_conn_inv in Hc as [[_ Hc]|[-> (c1 & Hc & ->)]];
      simpl in *; by eapply D.
Qed.

Lemma streams_disconnect this w c :
  conns w !! this = Some c →
  streams (SSHConnection.disconnect this w) =
    streams (SSHConnection.close_all_shells (shells c) w).
Proof.
  intros Hc. unfold SSHConnection.disconnect. rewrite Hc.
  destruct (connected c); simpl; by rewrite streams_close_all_servers.
Qed.

Lemma servers_disconnect this w c :
  conns w !! this = Some c →
  servers (SSHConnection.disconnect this w) =
    servers (foldl (λ w kv, upd_server kv.2 server_close w) w
               (map_to_list (portForwards c))).
Proof.
  intros Hc. unfold SSHConnection.disconnect. rewrite Hc.
  assert (Hgen : ∀ (l : list (Z * ServerRef)) w1 w2,
            servers w1 = servers w2 →
            servers (foldl (λ w kv, upd_server kv.2 server_close w) w1 l) =
            servers (foldl (λ w kv, upd_server kv.2 server_close w) w2 l)).
  { induction l as [|kv l IH]; intros w1 w2 Heq; simpl; [done|].
    apply IH. simpl. by rewrite Heq. }
  unfold SSHConnection.close_all_servers.
  destruct (connected c); simpl; apply Hgen; simpl;
    apply servers_close_all_shells.
Qed.

Lemma Inv2_disconnect this w :
  shells_wf w → Inv2 w → Inv2 (SSHConnection.disconnect this w).
Proof.
  intros Hwf [A B C D].
  destruct (conns w !! this) as [c|] eqn:Hthis;
    [|unfold SSHConnection.disconnect; by rewrite Hthis].
  assert (Hlt : this < length (conns w)) by by eapply lookup_lt_Some.
  assert (Hconns : ∀ c0 conn,
    conns (SSHConnection.disconnect this w) !! c0 = Some conn →
    (c0 ≠ this ∧ conns w !! c0 = Some conn) ∨
    (shells conn = [] ∧ portForwards conn = ∅)).
  { intros c0 conn. rewrite (conns_disconnect _ _ _ Hthis).
    destruct (decide (this = c0)) as [<-|Hne].
    - rewrite list_lookup_insert_eq by done. intros [= <-]. by right.
    - rewrite list_lookup_insert_ne by done. intros Hc. by left. }
  split.
  - intros c0 conn Hc. apply Hconns in Hc as [[_ Hc]|[-> _]];
      [by eapply A|constructor].
  - intros a b c0. rewrite connections_disconnect. apply B.
  - intros c0 conn sessionId s Hc Hs.
    apply Hconns in Hc as [[Hne Hc]|[Hnil _]];
      [|by rewrite Hnil in Hs].
    destruct (C _ _ _ _ Hc Hs) as (st & Hst & Hlive).
    destruct (Hwf _ _ _ _ Hc Hs) as (st' & Hst' & Ho & _).
    exists st. split; [|done].
    rewrite (streams_disconnect _ _ _ Hthis), close_all_shells_other; [done|].
    intros Hin. apply list_elem_of_fmap in Hin as ([k s'] & Hk & Hin).
    simpl in Hk. subst s'.
    apply (elem_of_get k s) in Hin; [|by eapply A].
    destruct (Hwf _ _ _ _ Hthis Hin) as (st2 & Hst2 & Ho2 & _). congruence.
  - intros c0 conn localPort s Hc Hs.
    apply Hconns in Hc as [[Hne Hc]|[_ Hnil]];
      [|by rewrite Hnil in Hs].
    destruct (D _ _ _ _ Hc Hs) as (sv & Hsv & Ho & Hrest).
    exists sv. split; [|done].
    rewrite (servers_disconnect _ _ _ Hthis), close_servers_other; [done|].
    intros Hin. apply list_elem_of_fmap in Hin as ([k s'] & Hk & Hin).
    simpl in Hk. subst s'. apply elem_of_map_to_list in Hin.
    destruct (D _ _ _ _ Hthis Hin) as (sv2 & Hsv2 & Ho2 & _). congruence.
Qed.

Lemma Inv2_shell_new rq w :
  Inv2 w →
  Inv2 (upd_conn (rq_this rq)
          (set_shells (JSMap.set (rq_sessionId rq) (length (streams w))))
          (set_streams (λ ss, ss ++
             [mkStream (rq_this rq) (rq_sessionId rq) (rq_onData rq)
                (rq_onClose rq) [] (Some (rq_rows rq, rq_cols rq)) 0 false])
             w)).
Proof.
  intros [A B C D]. split; try done.
  - intros c conn Hc.
    apply lookup_upd_conn_inv in Hc as [[_ Hc]|[_ (c1 & Hc & ->)]];
      simpl in *; [by eapply A|].
    apply NoDup_keys_set. by eapply A.
  - intros c conn sessionId s Hc Hs. simpl.
    assert (Hold : ∀ conn0, conns w !! c = Some conn0 →
      JSMap.get sessionId (shells conn0) = Some s →
      ∃ st, (streams w ++
        [mkStream (rq_this rq) (rq_sessionId rq) (rq_onData rq)
           (rq_onClose rq) [] (Some (rq_rows rq, rq_cols rq)) 0 false]) !! s
        = Some st ∧ st_closed st = false ∧ st_closeCalls st = 0).
    { intros conn0 Hc0 Hg.
      destruct (C _ _ _ _ Hc0 Hg) as (st & Hst & Hlive).
      exists st. split; [|done]. by apply lookup_app_l_Some. }
    apply lookup_upd_conn_inv in Hc as [[_ Hc]|[-> (c1 & Hc & ->)]];
      simpl in *; [by apply (Hold conn)|].
    apply get_set_Some in Hs as [[-> ->]|Hs]; [|by apply (Hold c1)].
    eexists. split; [by rewrite lookup_app_r, Nat.sub_diag by lia|done].
  - intros c conn localPort s Hc.
    apply lookup_upd_conn_inv in Hc as [[_ Hc]|[-> (c1 & Hc & ->)]];
      simpl in *; by eapply D.
Qed.

Lemma Inv2_stream_closed s st w :
  shells_wf w → streams w !! s = Some st →
  Inv2 w →
  Inv2 (upd_conn (st_owner st) (set_shells (JSMap.delete (st_sessionId st)))
          (upd_stream s stream_closed w)).
Proof.
  intros Hwf Hst [A B C D]. split; try done.
  - intros c0 conn Hc.
    apply lookup_upd_conn_inv in Hc as [[_ Hc]|[_ (c1 & Hc & ->)]];
      simpl in *; [by eapply A|].
    apply NoDup_keys_delete. by eapply A.
  - intros c0 conn sid s0 Hc Hs0. simpl.
    assert (Hold : ∃ conn0, conns w !! c0 = Some conn0 ∧
              JSMap.get sid (shells conn0) = Some s0 ∧
              (c0, sid) ≠ (st_owner st, st_sessionId st)).
    { apply lookup_upd_conn_inv in Hc as [[Hne Hc]|[-> (c1 & Hc & ->)]];
        simpl in Hc.
      - exists conn. repeat split; try done. by intros [= ->].
      - simpl in Hs0. exists c1.
        destruct (decide (st_sessionId st = sid)) as [<-|Hne].
        + by rewrite get_delete_eq in Hs0.
        + rewrite get_delete_ne in Hs0 by done.
          repeat split; try done. by intros [= ?]. }
    destruct Hold as (conn0 & Hc0 & Hg0 & Hne).
    destruct (C _ _ _ _ Hc0 Hg0) as (st0 & Hst0 & Hlive).
    destruct (Hwf _ _ _ _ Hc0 Hg0) as (st1 & Hst1 & Ho1 & Hs1).
    exists st0. rewrite list_lookup_alter_ne; [done|].
    intros ->. apply Hne. congruence.
  - intros c0 conn lp s0 Hc.
    apply lookup_upd_conn_inv in Hc as [[_ Hc]|[-> (c1 & Hc & ->)]];
      simpl in *; by eapply D.
Qed.

Lemma Inv2_set_promises f w : Inv2 w → Inv2 (set_promises f w).
Proof. by apply Inv2_frame. Qed.

Lemma Inv2_set_shellReqs f w : Inv2 w → Inv2 (set_shellReqs f w).
Proof. by apply Inv2_frame. Qed.

Lemma Inv2_sendFn ws m w : Inv2 w → Inv2 (sendFn ws m w).
Proof. by apply Inv2_frame. Qed.

Lemma Inv2_set_connected this b w :
  Inv2 w → Inv2 (upd_conn this (set_connected b) w).
Proof. by apply Inv2_upd_conn_same. Qed.

Lemma Inv2_set_client this f w : Inv2 w → Inv2 (upd_conn this (set_client f) w).
Proof. by apply Inv2_upd_conn_same. Qed.

Lemma Inv2_stream_write s data w :
  Inv2 w → Inv2 (upd_stream s (stream_write data) w).
Proof. by apply Inv2_upd_stream_same. Qed.

Lemma Inv2_stream_setWindow s rows cols w :
  Inv2 w → Inv2 (upd_stream s (stream_setWindow rows cols) w).
Proof. by apply Inv2_upd_stream_same. Qed.

Lemma Inv2_getConnection clientId w :
  Inv w → Inv2 w → Inv2 (SSHManager.getConnection clientId w).2.
Proof.
  intros H H2. unfold SSHManager.getConnection.
  destruct (connections w !! clientId) as [c|] eqn:Hc; [done|].
  simpl. apply Inv2_new_conn; [by destruct H|done].
Qed.

Lemma Inv2_connect this config w :
  Inv2 w → Inv2 (SSHConnection.connect this config w).2.
Proof.
  intros H. unfold SSHConnection.connect, new_promise. simpl.
  by apply Inv2_set_client, Inv2_set_promises.
Qed.

Lemma Inv2_startShell this sessionId onData onClose cols rows w :
  Inv2 w →
  Inv2 (SSHConnection.startShell this sessionId onData onClose cols rows w).2.
Proof.
  intros H. unfold SSHConnection.startShell, new_promise. simpl.
  destruct (conns w !! this) as [c|]; simpl; [|by apply Inv2_set_promises].
  destruct (connected c); simpl; [|by apply Inv2_reject, Inv2_set_promises].
  destruct (JSMap.has sessionId (shells c)); simpl.
  - by apply Inv2_reject, Inv2_set_promises.
  - by apply Inv2_set_shellReqs, Inv2_set_promises.
Qed.

Lemma Inv2_setupPortForward this config w :
  Inv2 w → Inv2 (SSHConnection.setupPortForward this config w).2.
Proof.
  intros H. unfold SSHConnection.setupPortForward, new_promise. simpl.
  destruct (conns w !! this) as [c|]; simpl; [|by apply Inv2_set_promises].
  destruct (connected c); simpl; [|by apply Inv2_reject, Inv2_set_promises].
  case_bool_decide; simpl.
  - by apply Inv2_reject, Inv2_set_promises.
  - by apply Inv2_new_server, Inv2_set_promises.
Qed.

Lemma Inv2_writeToShell this sessionId data w :
  Inv2 w → Inv2 (SSHConnection.writeToShell this sessionId data w).2.
Proof.
  intros H. unfold SSHConnection.writeToShell.
  destruct (conns w !! this) as [c|]; [|done].
  destruct (JSMap.get sessionId (shells c)); [|done].
  by apply Inv2_stream_write.
Qed.

Lemma Inv2_resizeShell this sessionId cols rows w :
  Inv2 w → Inv2 (SSHConnection.resizeShell this sessionId cols rows w).2.
Proof.
  intros H. unfold SSHConnection.resizeShell.
  destruct (conns w !! this) as [c|]; [|done].
  destruct (JSMap.get sessionId (shells c)); [|done].
  by apply Inv2_stream_setWindow.
Qed.

Lemma Inv2_closeShell_call this sessionId w :
  Inv w → Inv2 w → Inv2 (SSHConnection.closeShell this sessionId w).2.
Proof.
  intros H H2. unfold SSHConnection.closeShell.
  destruct (conns w !! this) as [c|] eqn:Hc; [|done].
  destruct (JSMap.get sessionId (shells c)) eqn:Hs; [|done].
  eapply Inv2_closeShell; try done. by destruct H.
Qed.

Lemma Inv2_write this data w : Inv2 w → Inv2 (SSHConnection.write this data w).
Proof.
  intros H. unfold SSHConnection.write.
  destruct (conns w !! this) as [c|]; [|done].
  destruct (JSMap.first_value (shells c)); [|done].
  by apply Inv2_stream_write.
Qed.

Lemma Inv2_resize this cols rows w :
  Inv2 w → Inv2 (SSHConnection.resize this cols rows w).
Proof.
  intros H. unfold SSHConnection.resize.
  destruct (conns w !! this) as [c|]; [|done].
  destruct (JSMap.first_value (shells c)); [|done].
  by apply Inv2_stream_setWindow.
Qed.

Lemma Inv2_stopPortForward this localPort w :
  Inv2 w → Inv2 (SSHConnection.stopPortForward this localPort w).
Proof.
  intros H. unfold SSHConnection.stopPortForward.
  destruct (conns w !! this) as [c|] eqn:Hc; [|done].
  destruct (portForwards c !! localPort) eqn:Hs; [|done].
  by eapply Inv2_stop.
Qed.

Lemma Inv2_removeConnection clientId w :
  Inv w → Inv2 w → Inv2 (SSHManager.removeConnection clientId w).
Proof.
  intros H H2. unfold SSHManager.removeConnection.
  destruct (connections w !! clientId) as [c|]; [|done].
  apply Inv2_unregister, Inv2_disconnect; [by destruct H|done].
Qed.

Lemma Inv2_handle ws clientId message w :
  Inv w → Inv2 w → Inv2 (SSHHandler.handle ws clientId message w).2.
Proof.
  intros H H2.
  pose proof (Inv_getConnection clientId w H) as Hg.
  pose proof (Inv2_getConnection clientId w H H2) as Hg2.
  destruct message; simpl; try done.
  - unfold SSHHandler.handleConnect.
    destruct (SSHManager.getConnection clientId w) as [connection w1].
    pose proof (Inv2_connect connection data w1 Hg2) as Hc.
    destruct (SSHConnection.connect connection data w1) as [p w2].
    by apply Inv2_await.
  - unfold SSHHandler.handleStartShell.
    destruct (SSHManager.getConnection clientId w) as [connection w1].
    simpl in *. destruct (SSHConnection.isConnected connection w1); simpl;
      [|by apply Inv2_sendFn].
    match goal with
    | |- context [SSHConnection.startShell ?a ?b ?c ?d ?e ?f ?g] =>
        pose proof (Inv2_startShell a b c d e f g Hg2) as Hs;
        destruct (SSHConnection.startShell a b c d e f g) as [p w2]
    end.
    by apply Inv2_await.
  - unfold SSHHandler.handleInput.
    destruct (SSHManager.getConnection clientId w) as [connection w1].
    simpl in *. destruct (SSHConnection.isConnected connection w1); [|done].
    destruct (SSHHandler.input_chunk _) as [chunk|]; [|done].
    match goal with
    | |- context [SSHConnection.writeToShell ?a ?b ?c ?d] =>
        pose proof (Inv2_writeToShell a b c d Hg2) as Hw;
        destruct (SSHConnection.writeToShell a b c d) as [written w2]
    end.
    destruct written; simpl; [done|]. by apply Inv2_write.
  - unfold SSHHandler.handleResize.
    destruct (SSHManager.getConnection clientId w) as [connection w1].
    simpl in *. destruct (SSHConnection.isConnected connection w1); [|done].
    destruct (truthy (rs_sessionId data)).
    + by apply Inv2_resizeShell.
    + by apply Inv2_resize.
  - unfold SSHHandler.handleDisconnect.
    by apply Inv2_sendFn, Inv2_removeConnection.
  - unfold SSHHandler.handleCloseShell.
    destruct (SSHManager.getConnection clientId w) as [connection w1].
    simpl in *.
    destruct (truthy sessionId && SSHConnection.isConnected connection w1);
      [|done].
    pose proof (Inv2_closeShell_call connection (default EmptyString sessionId)
                  w1 Hg Hg2) as Hc.
    destruct (SSHConnection.closeShell connection
                (default EmptyString sessionId) w1) as [closed w2].
    by apply Inv2_sendFn.
  - unfold SSHHandler.handleListShells.
    destruct (SSHManager.getConnection clientId w) as [connection w1].
    by apply Inv2_sendFn.
  - unfold SSHHandler.handlePortForward.
    destruct (SSHManager.getConnection clientId w) as [connection w1].
    simpl in *. destruct (SSHConnection.isConnected connection w1); simpl;
      [|by apply Inv2_sendFn].
    pose proof (Inv2_setupPortForward connection data w1 Hg2) as Hs.
    destruct (SSHConnection.setupPortForward connection data w1) as [p w2].
    by apply Inv2_await.
  - unfold SSHHandler.handleStopPortForward.
    destruct (SSHManager.getConnection clientId w) as [connection w1].
    simpl in *. apply Inv2_sendFn.
    destruct (SSHConnection.isConnected connection w1); [|done].
    by apply Inv2_stopPortForward.
Qed.

Lemma Inv2_emit_ready this l w : Inv2 w → Inv2 (emit_ready this l w).
Proof.
  unfold emit_ready. revert w.
  induction l as [|p l IH]; intros w H; simpl; [done|].
  by apply IH, Inv2_resolve, Inv2_set_connected.
Qed.

Lemma Inv2_emit_error this err l w : Inv2 w → Inv2 (emit_error this err l w).
Proof.
  unfold emit_error. revert w.
  induction l as [|p l IH]; intros w H; simpl; [done|].
  by apply IH, Inv2_reject, Inv2_set_connected.
Qed.

Lemma Inv2_emit_close this l w : Inv2 w → Inv2 (emit_close this l w).
Proof.
  unfold emit_close. revert w.
  induction l as [|p l IH]; intros w H; simpl; [done|].
  by apply IH, Inv2_set_connected.
Qed.

Lemma Inv2_step e w : Inv w → Inv2 w → Inv2 (step e w).
Proof.
  intros H H2. destruct e; simpl.
  - by apply Inv2_handle.
  - by apply Inv2_emit_ready.
  - by apply Inv2_emit_error.
  - by apply Inv2_emit_close.
  - destruct (shellReqs w !! r) as [rq|] eqn:Hrq; [|done].
    destruct (rq_answered rq); [done|].
    unfold SSHConnection.shell_callback.
    destruct err as [message|];
      [by apply Inv2_reject, Inv2_set_shellReqs|].
    apply Inv2_resolve.
    apply (Inv2_shell_new rq (set_shellReqs (alter mark_answered r) w)).
    by apply Inv2_set_shellReqs.
  - destruct (streams w !! s) as [st|]; [|done].
    destruct (st_closed st); [done|].
    unfold SSHConnection.stream_on_data, SSHConnection.run_onData.
    destruct (st_onData st). by apply Inv2_sendFn.
  - destruct (streams w !! s) as [st|] eqn:Hst; [|done].
    destruct (st_closed st) eqn:Hopen; [done|].
    unfold SSHConnection.stream_on_close, SSHConnection.run_onClose.
    destruct (st_onClose st). apply Inv2_sendFn.
    apply Inv2_stream_closed; try done. by destruct H.
  - destruct (servers w !! s) as [sv|] eqn:Hsv; [|done].
    destruct (sv_state sv); try done.
    unfold SSHConnection.server_on_listening. apply Inv2_resolve.
    by apply Inv2_listening.
  - destruct (servers w !! s) as [sv|] eqn:Hsv; [|done].
    unfold SSHConnection.server_on_error. apply Inv2_reject.
    destruct (sv_state sv) eqn:Hstate; try done.
    by eapply Inv2_server_failed.
  - by apply Inv2_removeConnection.
Qed.

Lemma Inv2_run es : Inv2 (run es initial).
Proof.
  unfold run. generalize Inv_initial Inv2_initial. generalize initial.
  induction es as [|e es IH]; intros w H H2; simpl; [done|].
  apply IH; [by apply Inv_step|by apply Inv2_step].
Qed.

(** ** What holds in every reachable world *)

(** In every reachable world [getActiveShells] lists no session id
    twice. *)
Theorem reachable_sessions_unique (es : list Event) (c : ConnRef) :
  NoDup (SSHConnection.getActiveShells c (run es initial)).
Proof.
  unfold SSHConnection.getActiveShells.
  destruct (conns (run es initial) !! c) as [conn|] eqn:Hc; [|constructor].
  by eapply (inv_unique _ (Inv2_run es)).
Qed.

(** In every reachable world a session that [hasShell] reports is backed
    by a live channel: one opened for this connection under this id, whose
    'close' has not been emitted and whose [close] has not been called;
    [writeToShell] hands data to exactly that channel. *)
Theorem reachable_shells_live (es : list Event) (c : ConnRef)
    (sessionId : string) (data : option string) :
  let w := run es initial in
  SSHConnection.hasShell c sessionId w = true →
  ∃ s st, streams w !! s = Some st ∧
          st_owner st = c ∧ st_sessionId st = sessionId ∧
          st_closed st = false ∧ st_closeCalls st = 0 ∧
          SSHConnection.writeToShell c sessionId data w =
            (true, upd_stream s (stream_write data) w).
Proof.
  intros w. unfold SSHConnection.hasShell, SSHConnection.writeToShell,
    JSMap.has.
  destruct (conns w !! c) as [conn|] eqn:Hc; [|done].
  destruct (JSMap.get sessionId (shells conn)) as [s|] eqn:Hs; [|done].
  intros _.
  destruct (inv_shells _ (Inv_run es) _ _ _ _ Hc Hs) as (st & Hst & Ho & Hsid).
  destruct (inv_live _ (Inv2_run es) _ _ _ _ Hc Hs) as (st' & Hst' & Hcl & Hcc).
  exists s, st. repeat split; try done; congruence.
Qed.

Lemma reachable_shells_live_witness :
  SSHConnection.hasShell 0 "b" (run two_shells initial) = true ∧
  ∃ s st, streams (run two_shells initial) !! s = Some st ∧
          st_owner st = 0 ∧ st_sessionId st = "b" ∧
          st_closed st = false ∧ st_closeCalls st = 0 ∧
          SSHConnection.writeToShell 0 "b" (Some "ls")
            (run two_shells initial) =
            (true, upd_stream s (stream_write (Some "ls"))
                     (run two_shells initial)).
Proof.
  assert (H : SSHConnection.hasShell 0 "b" (run two_shells initial) = true)
    by (vm_compute; reflexivity).
  split; [exact H|].
  exact (reachable_shells_live two_shells 0 "b" (Some "ls") H).
Defined.

(** In every reachable world each entry of a forward map is a server
    that is listening, created for this connection and this local port:
    no entry outlives its listener. *)
Theorem reachable_forwards_listening (es : list Event) (c : ConnRef)
    (conn : SSHConnection) (localPort : Z) (server : ServerRef) :
  let w := run es initial in
  conns w !! c = Some conn →
  portForwards conn !! localPort = Some server →
  ∃ sv, servers w !! server = Some sv ∧ sv_state sv = Listening ∧
        sv_owner sv = c ∧ pf_localPort (sv_config sv) = localPort.
Proof.
  intros w Hc Hs.
  destruct (inv_forwards _ (Inv2_run es) _ _ _ _ Hc Hs)
    as (sv & Hsv & Ho & Hp & Hst).
  by exists sv.
Qed.

Lemma reachable_forwards_listening_witness :
  conns (run forwarding initial) !! 0 = Some forwarding_conn ∧
  portForwards forwarding_conn !! 9000%Z = Some 0 ∧
  ∃ sv, servers (run forwarding initial) !! 0 = Some sv ∧
        sv_state sv = Listening ∧
        sv_owner sv = 0 ∧ pf_localPort (sv_config sv) = 9000%Z.
Proof.
  assert (Hc : conns (run forwarding initial) !! 0 = Some forwarding_conn)
    by (vm_compute; reflexivity).
  assert (Hs : portForwards forwarding_conn !! 9000%Z = Some 0)
    by (vm_compute; reflexivity).
  split; [exact Hc|]. split; [exact Hs|].
  exact (reachable_forwards_listening forwarding 0 forwarding_conn 9000 0
           Hc Hs).
Defined.

(** ** What a request leaves alone *)

Lemma untouched_refl this w : untouched_by this w w.
Proof. by repeat split. Qed.

Lemma untouched_trans this w1 w2 w3 :
  untouched_by this w1 w2 → untouched_by this w2 w3 → untouched_by this w1 w3.
Proof.
  intros (A1 & B1 & C1 & D1) (A2 & B2 & C2 & D2). repeat split.
  - congruence.
  - intros c Hne. rewrite B2, B1; done.
  - intros s st Hst Ho. apply C2; [|done]. by apply C1.
  - intros s sv Hsv Ho. apply D2; [|done]. by apply D1.
Qed.

Lemma untouched_core this w w' :
  connections w' = connections w → conns w' = conns w →
  streams w' = streams w → servers w' = servers w → untouched_by this w w'.
Proof.
  intros H1 H2 H3 H4. repeat split; try done.
  - intros. by rewrite H2.
  - intros. by rewrite H3.
  - intros. by rewrite H4.
Qed.

Lemma untouched_resolve this p w : untouched_by this w (resolve p w).
Proof.
  apply untouched_core; unfold resolve;
    destruct (promises w !! p) as [[[] [k|]]|]; try done; by destruct k.
Qed.

Lemma untouched_reject this p message w :
  untouched_by this w (reject p message w).
Proof.
  apply untouched_core; unfold reject;
    destruct (promises w !! p) as [[[] [k|]]|]; try done; by destruct k.
Qed.

Lemma untouched_await this p k w : untouched_by this w (await p k w).
Proof.
  apply untouched_core; unfold await;
    destruct (promises w !! p) as [[[] ?]|]; try done; by destruct k.
Qed.

Lemma untouched_upd_conn this f w : untouched_by this w (upd_conn this f w).
Proof.
  repeat split; try done. intros c Hne. simpl.
  by rewrite list_lookup_alter_ne.
Qed.

Lemma untouched_upd_stream this s f w :
  (∀ st, streams w !! s = Some st → st_owner st = this) →
  untouched_by this w (upd_stream s f w).
Proof.
  intros Ho. repeat split; try done. intros s0 st Hst Hne. simpl.
  rewrite list_lookup_alter_ne; [done|]. intros ->. by apply Hne, Ho.
Qed.

Lemma untouched_upd_server this s f w :
  (∀ sv, servers w !! s = Some sv → sv_owner sv = this) →
  untouched_by this w (upd_server s f w).
Proof.
  intros Ho. repeat split; try done. intros s0 sv Hsv Hne. simpl.
  rewrite list_lookup_alter_ne; [done|]. intros ->. by apply Hne, Ho.
Qed.

Lemma untouched_new_server this sv w :
  untouched_by this w (set_servers (λ ss, ss ++ [sv]) w).
Proof.
  repeat split; try done. intros s sv0 Hsv Hne. simpl.
  by apply lookup_app_l_Some.
Qed.

Section untouched_methods.
Variables (this : ConnRef) (w : World).
Hypothesis Hwf : shells_wf w.
Hypothesis Hwf2 : Inv2 w.

Lemma owner_of_shell c sessionId shell st :
  conns w !! this = Some c → JSMap.get sessionId (shells c) = Some shell →
  streams w !! shell = Some st → st_owner st = this.
Proof.
  intros Hc Hs Hst. destruct (Hwf _ _ _ _ Hc Hs) as (st' & Hst' & Ho & _).
  congruence.
Qed.

Lemma owner_of_forward c localPort server sv :
  conns w !! this = Some c → portForwards c !! localPort = Some server →
  servers w !! server = Some sv → sv_owner sv = this.
Proof.
  intros Hc Hs Hsv.
  destruct (inv_forwards _ Hwf2 _ _ _ _ Hc Hs) as (sv' & Hsv' & Ho & _).
  congruence.
Qed.

Lemma untouched_connect config :
  untouched_by this w (SSHConnection.connect this config w).2.
Proof.
  unfold SSHConnection.connect, new_promise. simpl.
  eapply untouched_trans; [|apply untouched_upd_conn].
  by apply untouched_core.
Qed.

Lemma untouched_startShell sessionId onData onClose cols rows :
  untouched_by this w
    (SSHConnection.startShell this sessionId onData onClose cols rows w).2.
Proof.
  unfold SSHConnection.startShell, new_promise. simpl.
  destruct (conns w !! this) as [c|]; simpl; [|by apply untouched_core].
  destruct (connected c); simpl.
  - destruct (JSMap.has sessionId (shells c)); simpl.
    + eapply untouched_trans; [|apply untouched_reject].
      by apply untouched_core.
    + by apply untouched_core.
  - eapply untouched_trans; [|apply untouched_reject]. by apply untouched_core.
Qed.

Lemma untouched_setupPortForward config :
  untouched_by this w (SSHConnection.setupPortForward this config w).2.
Proof.
  unfold SSHConnection.setupPortForward, new_promise. simpl.
  destruct (conns w !! this) as [c|]; simpl; [|by apply untouched_core].
  destruct (connected c); simpl.
  - case_bool_decide; simpl.
    + eapply untouched_trans; [|apply untouched_reject].
      by apply untouched_core.
    + eapply untouched_trans; [|apply untouched_new_server].
      by apply untouched_core.
  - eapply untouched_trans; [|apply untouched_reject]. by apply untouched_core.
Qed.

Lemma untouched_writeToShell sessionId data :
  untouched_by this w (SSHConnection.writeToShell this sessionId data w).2.
Proof.
  unfold SSHConnection.writeToShell.
  destruct (conns w !! this) as [c|] eqn:Hc; [|apply untouched_refl].
  destruct (JSMap.get sessionId (shells c)) eqn:Hs; [|apply untouched_refl].
  apply untouched_upd_stream. intros st. by eapply owner_of_shell.
Qed.

Lemma untouched_resizeShell sessionId cols rows :
  untouched_by this w (SSHConnection.resizeShell this sessionId cols rows w).2.
Proof.
  unfold SSHConnection.resizeShell.
  destruct (conns w !! this) as [c|] eqn:Hc; [|apply untouched_refl].
  destruct (JSMap.get sessionId (shells c)) eqn:Hs; [|apply untouched_refl].
  apply untouched_upd_stream. intros st. by eapply owner_of_shell.
Qed.

Lemma untouched_closeShell sessionId :
  untouched_by this w (SSHConnection.closeShell this sessionId w).2.
Proof.
  unfold SSHConnection.closeShell.
  destruct (conns w !! this) as [c|] eqn:Hc; [|apply untouched_refl].
  destruct (JSMap.get sessionId (shells c)) eqn:Hs; [|apply untouched_refl].
  eapply untouched_trans; [|apply untouched_upd_conn].
  apply untouched_upd_stream. intros st. by eapply owner_of_shell.
Qed.

Lemma untouched_write data :
  untouched_by this w (SSHConnection.write this data w).
Proof.
  unfold SSHConnection.write.
  destruct (conns w !! this) as [c|] eqn:Hc; [|apply untouched_refl].
  destruct (JSMap.first_value (shells c)) eqn:Hs; [|apply untouched_refl].
  apply first_value_get in Hs as [k Hs].
  apply untouched_upd_stream. intros st. by eapply owner_of_shell.
Qed.

Lemma untouched_resize cols rows :
  untouched_by this w (SSHConnection.resize this cols rows w).
Proof.
  unfold SSHConnection.resize.
  destruct (conns w !! this) as [c|] eqn:Hc; [|apply untouched_refl].
  destruct (JSMap.first_value (shells c)) eqn:Hs; [|apply untouched_refl].
  apply first_value_get in Hs as [k Hs].
  apply untouched_upd_stream. intros st. by eapply owner_of_shell.
Qed.

Lemma untouched_stopPortForward localPort :
  untouched_by this w (SSHConnection.stopPortForward this localPort w).
Proof.
  unfold SSHConnection.stopPortForward.
  destruct (conns w !! this) as [c|] eqn:Hc; [|apply untouched_refl].
  destruct (portForwards c !! localPort) eqn:Hs; [|apply untouched_refl].
  eapply untouched_trans; [|apply untouched_upd_conn].
  apply untouched_upd_server. intros sv. by eapply owner_of_forward.
Qed.

Lemma untouched_disconnect :
  untouched_by this w (SSHConnection.disconnect this w).
Proof.
  destruct (conns w !! this) as [c|] eqn:Hc;
    [|unfold SSHConnection.disconnect; rewrite Hc; apply untouched_refl].
  repeat split.
  - apply connections_disconnect.
  - intros c0 Hne. rewrite (conns_disconnect _ _ _ Hc).
    by rewrite list_lookup_insert_ne.
  - intros s st Hst Hne.
    rewrite (streams_disconnect _ _ _ Hc), close_all_shells_other; [done|].
    intros Hin. apply list_elem_of_fmap in Hin as ([k s'] & Hk & Hin).
    simpl in Hk. subst s'.
    apply (elem_of_get k s) in Hin; [|by eapply (inv_unique _ Hwf2)].
    apply Hne. by eapply owner_of_shell.
  - intros s sv Hsv Hne.
    rewrite (servers_disconnect _ _ _ Hc), close_servers_other; [done|].
    intros Hin. apply list_elem_of_fmap in Hin as ([k s'] & Hk & Hin).
    simpl in Hk. subst s'. apply elem_of_map_to_list in Hin.
    apply Hne. by eapply owner_of_forward.
Qed.
End untouched_methods.

Lemma untouched_sendFn this ws m w : untouched_by this w (sendFn ws m w).
Proof. by apply untouched_core. Qed.

(** Every handler but [handleDisconnect] works on the instance that
    [getConnection] returns and on nothing else; an unknown type is
    dropped before any instance is looked up. *)
Lemma untouched_handle ws clientId message w :
  let g := SSHManager.getConnection clientId w in
  message ≠ ssh_disconnect → (∀ type, message ≠ ssh_unknown type) →
  shells_wf g.2 → Inv2 g.2 →
  untouched_by g.1 g.2 (SSHHandler.handle ws clientId message w).2.
Proof.
  intros g Hm Hu Hwf Hwf2. subst g. destruct message; simpl; try done.
  - unfold SSHHandler.handleConnect.
    destruct (SSHManager.getConnection clientId w) as [c w1]. cbn [fst snd] in *.
    pose proof (untouched_connect c w1 data) as Hc.
    destruct (SSHConnection.connect c data w1) as [p w2].
    eapply untouched_trans; [exact Hc|apply untouched_await].
  - unfold SSHHandler.handleStartShell.
    destruct (SSHManager.getConnection clientId w) as [c w1]. cbn [fst snd] in *.
    destruct (SSHConnection.isConnected c w1); simpl;
      [|apply untouched_sendFn].
    match goal with
    | |- context [SSHConnection.startShell ?a ?b ?c ?d ?e ?f ?g] =>
        pose proof (untouched_startShell a g b c d e f) as Hs;
        destruct (SSHConnection.startShell a b c d e f g) as [p w2]
    end.
    eapply untouched_trans; [exact Hs|apply untouched_await].
  - unfold SSHHandler.handleInput.
    destruct (SSHManager.getConnection clientId w) as [c w1]. cbn [fst snd] in *.
    destruct (SSHConnection.isConnected c w1); [|apply untouched_refl].
    destruct (SSHHandler.input_chunk _) as [chunk|]; [|apply untouched_refl].
    match goal with
    | |- context [SSHConnection.writeToShell ?a ?b ?c ?d] =>
        pose proof (untouched_writeToShell a d Hwf b c) as Hw;
        assert (Hsame : (SSHConnection.writeToShell a b c d).1 = false →
                        (SSHConnection.writeToShell a b c d).2 = d);
        [|destruct (SSHConnection.writeToShell a b c d) as [written w2]]
    end.
    { unfold SSHConnection.writeToShell.
      destruct (conns w1 !! c) as [conn|]; [|done].
      by destruct (JSMap.get _ (shells conn)). }
    destruct written; cbn [fst snd negb] in *; [done|]. rewrite Hsame by done.
    by apply untouched_write.
  - unfold SSHHandler.handleResize.
    destruct (SSHManager.getConnection clientId w) as [c w1]. cbn [fst snd] in *.
    destruct (SSHConnection.isConnected c w1); [|apply untouched_refl].
    destruct (truthy (rs_sessionId data)).
    + by apply untouched_resizeShell.
    + by apply untouched_resize.
  - unfold SSHHandler.handleCloseShell.
    destruct (SSHManager.getConnection clientId w) as [c w1]. cbn [fst snd] in *.
    destruct (truthy sessionId && SSHConnection.isConnected c w1);
      [|apply untouched_refl].
    pose proof (untouched_closeShell c w1 Hwf (default EmptyString sessionId))
      as Hc.
    destruct (SSHConnection.closeShell c (default EmptyString sessionId) w1)
      as [closed w2].
    eapply untouched_trans; [exact Hc|apply untouched_sendFn].
  - unfold SSHHandler.handleListShells.
    destruct (SSHManager.getConnection clientId w) as [c w1].
    apply untouched_sendFn.
  - unfold SSHHandler.handlePortForward.
    destruct (SSHManager.getConnection clientId w) as [c w1]. cbn [fst snd] in *.
    destruct (SSHConnection.isConnected c w1); simpl;
      [|apply untouched_sendFn].
    pose proof (untouched_setupPortForward c w1 data) as Hs.
    destruct (SSHConnection.setupPortForward c data w1) as [p w2].
    eapply untouched_trans; [exact Hs|apply untouched_await].
  - unfold SSHHandler.handleStopPortForward.
    destruct (SSHManager.getConnection clientId w) as [c w1]. cbn [fst snd] in *.
    eapply untouched_trans; [|apply untouched_sendFn].
    destruct (SSHConnection.isConnected c w1); [|apply untouched_refl].
    by apply untouched_stopPortForward.
  - by destruct (Hu type).
Qed.

(** What [getConnection] for one client means for another client. *)
Lemma getConnection_other clientId other w cB :
  Inv w → Inv2 w → clientId ≠ other →
  connections w !! other = Some cB →
  let g := SSHManager.getConnection clientId w in
  g.1 ≠ cB ∧ connections g.2 !! other = Some cB ∧
  conns g.2 !! cB = conns w !! cB ∧
  streams g.2 = streams w ∧ servers g.2 = servers w.
Proof.
  intros H H2 Hne HB g. subst g. unfold SSHManager.getConnection.
  destruct (connections w !! clientId) as [cA|] eqn:HA; simpl.
  - repeat split; try done. intros ->.
    by apply Hne, (inv_injective _ H2 clientId other cB).
  - pose proof (inv_manager _ H _ _ HB) as Hlt.
    repeat split; try done.
    + lia.
    + by rewrite lookup_insert_ne.
    + by rewrite lookup_app_l.
Qed.

(** In every reachable world a request of one client leaves every other
    client alone: the other client's registry entry and connection (its
    shell map, forward map and connected flag), and every channel and
    server of that connection, are exactly as before. *)
Theorem client_isolation (es : list Event) (ws : WsRef)
    (clientId other : string) (message : ClientMessage) (cB : ConnRef) :
  let w := run es initial in
  let w' := (SSHHandler.handle ws clientId message w).2 in
  clientId ≠ other →
  connections w !! other = Some cB →
  connections w' !! other = Some cB ∧
  conns w' !! cB = conns w !! cB ∧
  (∀ s st, streams w !! s = Some st → st_owner st = cB →
           streams w' !! s = Some st) ∧
  (∀ s sv, servers w !! s = Some sv → sv_owner sv = cB →
           servers w' !! s = Some sv).
Proof.
  intros w w' Hne HB.
  pose proof (Inv_run es) as H. pose proof (Inv2_run es) as H2.
  fold w in H, H2.
  assert (Hcases : message = ssh_disconnect ∨
            (∃ type, message = ssh_unknown type) ∨
            (message ≠ ssh_disconnect ∧ ∀ type, message ≠ ssh_unknown type)).
  { destruct message; eauto; right; right; split; intros; discriminate. }
  destruct Hcases as [->|[[type ->]|[Hm Hu]]]; [|by subst w'|].
  - subst w'. simpl. unfold SSHHandler.handleDisconnect,
      SSHManager.removeConnection.
    destruct (connections w !! clientId) as [cA|] eqn:HA; simpl; [|done].
    assert (HAB : cA ≠ cB).
    { intros ->. by apply Hne, (inv_injective _ H2 clientId other cB). }
    destruct (untouched_disconnect cA w (inv_shells _ H) H2)
      as (Hreg & Hconns & Hstreams & Hservers).
    repeat split.
    + by rewrite lookup_delete_ne, Hreg.
    + by apply Hconns.
    + intros s st Hst Ho. apply Hstreams; [done|]. congruence.
    + intros s sv Hsv Ho. apply Hservers; [done|]. congruence.
  - destruct (getConnection_other clientId other w cB H H2 Hne HB)
      as (HAB & Hreg1 & Hconn1 & Hstr1 & Hsrv1).
    pose proof (Inv_getConnection clientId w H) as Hg.
    pose proof (Inv2_getConnection clientId w H H2) as Hg2.
    destruct (untouched_handle ws clientId message w Hm Hu (inv_shells _ Hg)
                Hg2) as (Hreg & Hconns & Hstreams & Hservers).
    fold w' in Hreg, Hconns, Hstreams, Hservers.
    repeat split.
    + by rewrite Hreg.
    + rewrite Hconns by done. done.
    + intros s st Hst Ho. apply Hstreams; [by rewrite Hstr1|]. congruence.
    + intros s sv Hsv Ho. apply Hservers; [by rewrite Hsrv1|]. congruence.
Qed.

(** ** More on teardown and on requests in flight *)

Lemma get_elem_of {K V} `{EqDecision K} (k : K) (v : V) (m : list (K * V)) :
  JSMap.get k m = Some v → (k, v) ∈ m.
Proof.
  induction m as [|[k' v'] m IH]; simpl; [done|].
  destruct (decide (k = k')) as [->|Hne].
  - intros [= ->]. apply list_elem_of_here.
  - intros Hg. apply list_elem_of_further. by apply IH.
Qed.

(** A channel of the list has its [close] called; a channel only ever
    gains [close] calls, and nothing else of it changes. *)
Lemma close_all_shells_calls (m : list (string * StreamRef)) s st w :
  streams w !! s = Some st →
  ∃ st', streams (SSHConnection.close_all_shells m w) !! s = Some st' ∧
         (st_closeCalls st ≤ st_closeCalls st')%nat ∧
         (s ∈ m.*2 → (st_closeCalls st < st_closeCalls st')%nat) ∧
         (st_owner st', st_sessionId st', st_closed st', st_written st') =
         (st_owner st, st_sessionId st, st_closed st, st_written st).
Proof.
  unfold SSHConnection.close_all_shells. revert w st.
  induction m as [|[k s0] m IH]; intros w st Hst; simpl.
  - exists st. repeat split; try done. intros Hin. by apply elem_of_nil in Hin.
  - destruct (decide (s0 = s)) as [->|Hne].
    + destruct (IH (upd_stream s stream_close w) (stream_close st))
        as (st' & Hst' & Hle & _ & Heq).
      { simpl. by rewrite list_lookup_alter_eq, Hst. }
      exists st'. simpl in *. repeat split; try done; lia.
    + destruct (IH (upd_stream s0 stream_close w) st)
        as (st' & Hst' & Hle & Hin & Heq).
      { simpl. by rewrite list_lookup_alter_ne. }
      exists st'. repeat split; try done.
      intros Hel. apply elem_of_cons in Hel as [?|Hel]; [done|]. by apply Hin.
Qed.

(** [disconnect] calls [close] on the channel of every shell of the
    connection; the channel is not marked closed by that, its 'close'
    event is still to come. *)
Theorem disconnect_closes_shells (this : ConnRef) (w : World)
    (c : SSHConnection) (sessionId : string) (shell : StreamRef) (st : Stream) :
  conns w !! this = Some c →
  JSMap.get sessionId (shells c) = Some shell →
  streams w !! shell = Some st →
  ∃ st', streams (SSHConnection.disconnect this w) !! shell = Some st' ∧
         (st_closeCalls st < st_closeCalls st')%nat ∧
         st_closed st' = st_closed st ∧
         st_written st' = st_written st ∧
         SSHConnection.hasShell this sessionId
           (SSHConnection.disconnect this w) = false.
Proof.
  intros Hc Hs Hst.
  destruct (close_all_shells_calls (shells c) shell st w Hst)
    as (st' & Hst' & _ & Hlt & Heq).
  exists st'. rewrite (streams_disconnect _ _ _ Hc).
  injection Heq as _ _ Hcl Hwr. repeat split; try done.
  - apply Hlt. apply list_elem_of_fmap. exists (sessionId, shell).
    split; [done|]. by apply get_elem_of.
  - unfold SSHConnection.hasShell, JSMap.has.
    rewrite (conns_disconnect _ _ _ Hc).
    rewrite list_lookup_insert_eq by by eapply lookup_lt_Some. done.
Qed.

(** The loss of a client's transport ([SSHHandler.cleanup]) tears its
    connection down and removes it from the registry like
    [ssh_disconnect], but sends nothing; for a client without a connection
    it does nothing. *)
Theorem transport_close_cleanup (clientId : string) (w : World) :
  let w' := step (TransportClose clientId) w in
  w' = SSHHandler.cleanup clientId w ∧
  SSHManager.hasConnection clientId w' = false ∧
  outbox w' = outbox w ∧
  (∀ connection c, connections w !! clientId = Some connection →
     conns w !! connection = Some c →
     torn_down connection w' ∧
     w' = set_connections (delete clientId)
            (SSHConnection.disconnect connection w)) ∧
  (connections w !! clientId = None → w' = w).
Proof.
  intros w'. subst w'. simpl.
  unfold SSHHandler.cleanup, SSHManager.hasConnection.
  rewrite connections_removeConnection.
  unfold SSHManager.removeConnection.
  destruct (connections w !! clientId) as [connection|] eqn:Hreg; simpl.
  - rewrite outbox_disconnect. split; [done|]. split; [done|].
    split; [done|]. split; [|done].
    intros connection' c [= <-] Hc. split; [|done].
    by eapply disconnect_torn_down_self.
  - repeat split; try done.
Qed.

Lemma shell_answer_granted r rq w :
  shellReqs w !! r = Some rq → rq_answered rq = false →
  step (ShellAnswer r None) w =
    resolve (rq_promise rq)
      (upd_conn (rq_this rq)
         (set_shells (JSMap.set (rq_sessionId rq) (length (streams w))))
         (set_streams (λ ss, ss ++
            [mkStream (rq_this rq) (rq_sessionId rq) (rq_onData rq)
               (rq_onClose rq) [] (Some (rq_rows rq, rq_cols rq)) 0 false])
            (set_shellReqs (alter mark_answered r) w))).
Proof. intros Hr Ha. simpl. by rewrite Hr, Ha. Qed.

Lemma streams_resolve p w : streams (resolve p w) = streams w.
Proof.
  unfold resolve. destruct (promises w !! p) as [[[] [k|]]|]; try done;
    by destruct k.
Qed.

Lemma shellReqs_resolve p w : shellReqs (resolve p w) = shellReqs w.
Proof.
  unfold resolve. destruct (promises w !! p) as [[[] [k|]]|]; try done;
    by destruct k.
Qed.

(** [resolve q] settles [q] if it is pending and no other promise. *)
Lemma promise_state_resolve p q w :
  promise_state p (resolve q w) =
    match promise_state p w with
    | Some Pending => if decide (q = p) then Some Fulfilled else Some Pending
    | st => st
    end.
Proof.
  unfold resolve, promise_state.
  destruct (promises w !! q) as [[st k]|] eqn:Hq.
  - assert (Hlt : q < length (promises w)) by by eapply lookup_lt_Some.
    destruct st.
    + assert (Hins : promises (match k with
          | Some k0 => on_fulfilled k0
                         (set_promises <[q:=mkPromise Fulfilled k]> w)
          | None => set_promises <[q:=mkPromise Fulfilled k]> w
          end) = <[q:=mkPromise Fulfilled k]> (promises w)).
      { destruct k; [by rewrite promises_on_fulfilled|done]. }
      rewrite Hins. destruct (decide (q = p)) as [->|Hne].
      * rewrite list_lookup_insert_eq by done. rewrite Hq. simpl.
        by rewrite ?decide_True.
      * rewrite list_lookup_insert_ne by done.
        destruct (promises w !! p) as [[[] ?]|]; simpl; try done.
    + destruct (promises w !! p) as [[[] ?]|] eqn:Hp; simpl; try done.
      destruct (decide (q = p)) as [->|]; [congruence|done].
    + destruct (promises w !! p) as [[[] ?]|] eqn:Hp; simpl; try done.
      destruct (decide (q = p)) as [->|]; [congruence|done].
  - destruct (promises w !! p) as [[[] ?]|] eqn:Hp; simpl; try done.
    destruct (decide (q = p)) as [->|]; [congruence|done].
Qed.

(** The duplicate check of [startShell] sees granted shells only: two
    requests for the same new session id, both made before the remote side
    answers, are both accepted and both fulfilled. The session is listed
    once, under the channel granted last; the channel granted first is in
    no shell map, stays open, and [disconnect] does not close it. *)
Theorem startShell_in_flight (this : ConnRef) (sessionId : string)
    (onData : DataCallback) (onClose : CloseCallback) (cols rows : Z)
    (w : World) (c : SSHConnection) :
  shells_wf w →
  sessions_unique w →
  conns w !! this = Some c →
  connected c = true →
  JSMap.get sessionId (shells c) = None →
  let r1 := SSHConnection.startShell this sessionId onData onClose cols rows w in
  let r2 := SSHConnection.startShell this sessionId onData onClose cols rows
              r1.2 in
  let q := length (shellReqs w) in
  let w' := step (ShellAnswer (S q) None) (step (ShellAnswer q None) r2.2) in
  let first := length (streams w) in
  let opened :=
    mkStream this sessionId onData onClose [] (Some (rows, cols)) 0 false in
  promise_state r2.1 r2.2 = Some Pending ∧
  promise_state r1.1 w' = Some Fulfilled ∧
  promise_state r2.1 w' = Some Fulfilled ∧
  streams w' = streams w ++ [opened; opened] ∧
  conns w' !! this =
    Some (set_shells (λ m, m ++ [(sessionId, S first)]) c) ∧
  SSHConnection.getActiveShells this w' =
    SSHConnection.getActiveShells this w ++ [sessionId] ∧
  streams (SSHConnection.disconnect this w') !! first = Some opened.
Proof.
  intros Hwf Hun Hc Hcon Hs r1 r2 q w' first opened.
  assert (Hr1 : r1 = (length (promises w),
     set_shellReqs (λ rs, rs ++
         [mkShellReq this sessionId onData onClose cols rows
            (length (promises w)) false])
       (set_promises (λ ps, ps ++ [mkPromise Pending None]) w)))
    by by apply (startShell_passes _ _ _ _ _ _ _ c).
  clearbody r1.
  assert (Hr2 : r2 = (S (length (promises w)),
     set_shellReqs (λ rs, rs ++
         [mkShellReq this sessionId onData onClose cols rows
            (S (length (promises w))) false])
       (set_promises (λ ps, ps ++ [mkPromise Pending None]) r1.2))).
  { subst r2 r1. simpl. rewrite (startShell_passes _ _ _ _ _ _ _ c);
      simpl; try done.
    rewrite length_app. simpl. by rewrite Nat.add_1_r. }
  clearbody r2.
  set (rq1 := mkShellReq this sessionId onData onClose cols rows
                (length (promises w)) false) in *.
  set (rq2 := mkShellReq this sessionId onData onClose cols rows
                (S (length (promises w))) false) in *.
  assert (Hq1 : shellReqs r2.2 !! q = Some rq1).
  { rewrite Hr2, Hr1. simpl. rewrite lookup_app_l
      by (rewrite length_app; simpl; lia).
    by rewrite lookup_app_r, Nat.sub_diag by lia. }
  pose proof (shell_answer_granted q rq1 r2.2 Hq1 eq_refl) as Hstep1.
  set (w1 := step (ShellAnswer q None) r2.2) in *.
  assert (Hstreams2 : streams r2.2 = streams w) by by rewrite Hr2, Hr1.
  assert (Hconns2 : conns r2.2 = conns w) by by rewrite Hr2, Hr1.
  assert (Hstreams1 : streams w1 = streams w ++ [opened]).
  { rewrite Hstep1, streams_resolve. simpl. by rewrite Hstreams2. }
  assert (Hconns1 : conns w1 !! this =
            Some (set_shells (λ m, m ++ [(sessionId, first)]) c)).
  { rewrite Hstep1, conns_resolve. simpl.
    rewrite Hconns2, Hstreams2, list_lookup_alter_eq, Hc. simpl.
    unfold set_shells. simpl. by rewrite (set_absent _ _ _ Hs). }
  assert (Hq2 : shellReqs w1 !! S q = Some rq2).
  { rewrite Hstep1, shellReqs_resolve. simpl.
    rewrite list_lookup_alter_ne by lia. rewrite Hr2, Hr1. simpl.
    rewrite lookup_app_r by (rewrite length_app; simpl; lia).
    rewrite length_app. simpl.
    by replace (S q - (length (shellReqs w) + 1)) with 0 by (subst q; lia). }
  pose proof (shell_answer_granted (S q) rq2 w1 Hq2 eq_refl) as Hstep2.
  fold w' in Hstep2.
  assert (Hstreams' : streams w' = streams w ++ [opened; opened]).
  { rewrite Hstep2, streams_resolve. simpl. rewrite Hstreams1.
    by rewrite <- app_assoc. }
  assert (Hconns' : conns w' !! this =
            Some (set_shells (λ m, m ++ [(sessionId, S first)]) c)).
  { rewrite Hstep2, conns_resolve. simpl.
    rewrite list_lookup_alter_eq, Hconns1. simpl.
    unfold set_shells. simpl. f_equal. f_equal.
    rewrite Hstreams1, length_app. simpl. fold first.
    rewrite Nat.add_1_r. clear -Hs.
    induction (shells c) as [|[k v] m IH]; simpl in *.
    - by rewrite decide_True.
    - destruct (decide (sessionId = k)); [done|]. by rewrite IH. }
  assert (Hp2 : promise_state r2.1 r2.2 = Some Pending).
  { rewrite Hr2, Hr1. unfold promise_state. simpl.
    rewrite lookup_app_r by (rewrite length_app; simpl; lia).
    rewrite length_app. simpl.
    by replace (S (length (promises w)) - (length (promises w) + 1)) with 0
      by lia. }
  assert (Hp1 : promise_state r1.1 r2.2 = Some Pending).
  { rewrite Hr2, Hr1. unfold promise_state. simpl.
    rewrite lookup_app_l by (rewrite length_app; simpl; lia).
    by rewrite lookup_app_r, Nat.sub_diag by lia. }
  assert (Hdiff : r1.1 ≠ r2.1) by (rewrite Hr1, Hr2; simpl; lia).
  assert (Hf1 : promise_state r1.1 w1 = Some Fulfilled ∧
                promise_state r2.1 w1 = Some Pending).
  { rewrite Hstep1, !promise_state_resolve.
    change (promise_state r1.1 (upd_conn _ _ _)) with (promise_state r1.1 r2.2).
    change (promise_state r2.1 (upd_conn _ _ _)) with (promise_state r2.1 r2.2).
    rewrite Hp1, Hp2. subst rq1. simpl.
    replace (length (promises w)) with r1.1 by by rewrite Hr1.
    rewrite decide_True by done. by rewrite decide_False. }
  destruct Hf1 as [Hf1 Hf2].
  split; [done|]. split; [|split; [|split; [done|split; [done|split]]]].
  - rewrite Hstep2, promise_state_resolve.
    change (promise_state r1.1 (upd_conn _ _ _)) with (promise_state r1.1 w1).
    by rewrite Hf1.
  - rewrite Hstep2, promise_state_resolve.
    change (promise_state r2.1 (upd_conn _ _ _)) with (promise_state r2.1 w1).
    rewrite Hf2. subst rq2. simpl.
    replace (S (length (promises w))) with r2.1 by by rewrite Hr2.
    by rewrite decide_True.
  - unfold SSHConnection.getActiveShells. rewrite Hconns', Hc. simpl.
    unfold JSMap.keys. by rewrite fmap_app.
  - rewrite (streams_disconnect _ _ _ Hconns'), close_all_shells_other.
    + rewrite Hstreams'. subst first.
      by rewrite lookup_app_r, Nat.sub_diag by lia.
    + simpl. rewrite fmap_app. simpl. intros Hin.
      apply elem_of_app in Hin as [Hin|Hin].
      * apply list_elem_of_fmap in Hin as ([k s] & Hk & Hin).
        simpl in Hk. subst s.
        assert (Hk' : JSMap.get k (shells c) = Some first)
          by (apply elem_of_get; [by eapply Hun|done]).
        destruct (Hwf _ _ _ _ Hc Hk') as (st & Hst & _).
        apply lookup_lt_Some in Hst. subst first. lia.
      * apply list_elem_of_singleton in Hin. lia.
Qed.

(** ** Connection attempts *)

Lemma emit_ready_state this p l w :
  promise_state p w = Some Pending ∨ promise_state p w = Some Fulfilled →
  promise_state p (emit_ready this l w) = Some Pending ∨
  promise_state p (emit_ready this l w) = Some Fulfilled.
Proof.
  unfold emit_ready.
  revert w. induction l as [|q l IH]; intros w Hw; simpl; [done|].
  apply IH. unfold SSHConnection.on_ready. rewrite promise_state_resolve.
  replace (promise_state p (upd_conn this (set_connected true) w))
    with (promise_state p w) by done.
  destruct Hw as [-> | ->]; [|by right].
  destruct (decide (q = p)); [by right|by left].
Qed.

Lemma emit_ready_fulfils this p l w :
  promise_state p w = Some Pending →
  promise_state p (emit_ready this (l ++ [p]) w) = Some Fulfilled.
Proof.
  intros Hw. unfold emit_ready. rewrite foldl_app. simpl.
  unfold SSHConnection.on_ready. rewrite promise_state_resolve.
  match goal with
  | |- context [promise_state p (upd_conn ?a ?b ?w')] =>
      replace (promise_state p (upd_conn a b w')) with (promise_state p w')
        by done
  end.
  destruct (emit_ready_state this p l w (or_introl Hw)) as [H|H];
    unfold emit_ready, SSHConnection.on_ready in H; rewrite H;
    [by rewrite ?decide_True|done].
Qed.

Lemma emit_ready_length this l w :
  length (conns (emit_ready this l w)) = length (conns w).
Proof.
  unfold emit_ready.
  revert w. induction l as [|q l IH]; intros w; simpl; [done|].
  rewrite IH. unfold SSHConnection.on_ready.
  by rewrite conns_resolve, conns_upd_conn, length_alter.
Qed.

Lemma emit_ready_connected this p l w :
  this < length (conns w) →
  SSHConnection.isConnected this (emit_ready this (l ++ [p]) w) = true.
Proof.
  intros Hlt. pose proof (emit_ready_length this l w) as Hlen.
  unfold emit_ready in *. rewrite foldl_app. simpl.
  unfold SSHConnection.isConnected.
  unfold SSHConnection.on_ready at 1.
  rewrite conns_resolve, conns_upd_conn, list_lookup_alter_eq.
  destruct (lookup_lt_is_Some_2 (conns (foldl
    (λ w q, SSHConnection.on_ready this q w) w l)) this) as [c Hc];
    [lia|].
  by rewrite Hc.
Qed.

(** [connect] with a configuration on which [client.connect] returns
    makes one [client.connect] call, with the configuration built from
    the request and [readyTimeout: 30000], and returns a pending promise.
    The promise is settled by the client's next 'ready' (fulfilled, the
    connection connected) or 'error' (rejected with the error's message,
    the connection not connected); a 'close' alone marks the connection
    not connected and leaves the promise pending. *)
Theorem connect_settles (this : ConnRef) (config : ConnectData) (w : World)
    (c : SSHConnection) :
  conns w !! this = Some c →
  connect_returns config →
  let r := SSHConnection.connect this config w in
  (∃ c', conns r.2 !! this = Some c' ∧
         cl_connectCalls (client c') =
           cl_connectCalls (client c) ++ [SSHConnection.connectionConfig config] ∧
         connected c' = connected c ∧ shells c' = shells c) ∧
  cc_readyTimeout (SSHConnection.connectionConfig config) = 30000%Z ∧
  promise_state r.1 r.2 = Some Pending ∧
  (promise_state r.1 (step (ClientReady this) r.2) = Some Fulfilled ∧
   SSHConnection.isConnected this (step (ClientReady this) r.2) = true) ∧
  (∀ err : string,
     promise_state r.1 (step (ClientError this err) r.2) =
       Some (Rejected err) ∧
     SSHConnection.isConnected this (step (ClientError this err) r.2) = false) ∧
  promise_state r.1 (step (ClientClose this) r.2) = Some Pending ∧
  SSHConnection.isConnected this (step (ClientClose this) r.2) = false.
Proof.
  intros Hc _ r.
  assert (Hlt : this < length (conns w)) by by eapply lookup_lt_Some.
  assert (Hc' : conns r.2 !! this = Some (set_client (λ cl,
      mkClient (cl_listeners cl ++ [r.1])
        (cl_connectCalls cl ++ [SSHConnection.connectionConfig config])
        (cl_endCalls cl)) c)).
  { subst r. unfold SSHConnection.connect, new_promise. simpl.
    by rewrite list_lookup_alter_eq, Hc. }
  assert (Hp : promise_state r.1 r.2 = Some Pending).
  { subst r. unfold SSHConnection.connect, new_promise, promise_state. simpl.
    by rewrite lookup_app_r, Nat.sub_diag by lia. }
  clearbody r. destruct r as [p w1]. simpl in *.
  assert (Hlt' : this < length (conns w1)) by by eapply lookup_lt_Some.
  split; [by eexists|]. split; [done|]. split; [done|].
  unfold listeners_of. rewrite Hc'. simpl.
  split; [|split].
  - split; [by apply emit_ready_fulfils|by apply emit_ready_connected].
  - intros err. split.
    + by apply (emit_error_rejects this err p).
    + by apply (emit_error_disconnected this err p).
  - rewrite emit_close_eq.
    destruct (cl_listeners (client c) ++ [p]) eqn:Hl;
      [by destruct (cl_listeners (client c))|].
    split; [done|].
    unfold SSHConnection.isConnected. simpl.
    by rewrite list_lookup_alter_eq, Hc'.
Qed.

(** ** Where the output of a channel goes *)

Lemma Inv3_frame w w' :
  streams w' = streams w → shellReqs w' = shellReqs w → Inv3 w → Inv3 w'.
Proof. intros H1 H2 [A B]. split; by rewrite ?H1, ?H2. Qed.

Lemma Inv3_upd_stream s g w :
  (∀ st, st_sessionId (g st) = st_sessionId st ∧
         st_onData (g st) = st_onData st ∧ st_onClose (g st) = st_onClose st) →
  Inv3 w → Inv3 (upd_stream s g w).
Proof.
  intros Hg [A B]. split; [done|]. simpl.
  apply Forall_alter; [done|]. intros st _ (ws & Hd & Hc).
  destruct (Hg st) as (Hs & Hgd & Hgc). exists ws. by rewrite Hs, Hgd, Hgc.
Qed.

Lemma Inv3_resolve p w : Inv3 w → Inv3 (resolve p w).
Proof.
  apply Inv3_frame; unfold resolve;
    destruct (promises w !! p) as [[[] [k|]]|]; try done; by destruct k.
Qed.

Lemma Inv3_reject p message w : Inv3 w → Inv3 (reject p message w).
Proof.
  apply Inv3_frame; unfold reject;
    destruct (promises w !! p) as [[[] [k|]]|]; try done; by destruct k.
Qed.

Lemma Inv3_await p k w : Inv3 w → Inv3 (await p k w).
Proof.
  apply Inv3_frame; unfold await;
    destruct (promises w !! p) as [[[] ?]|]; try done; by destruct k.
Qed.

Lemma Inv3_getConnection clientId w :
  Inv3 w → Inv3 (SSHManager.getConnection clientId w).2.
Proof.
  apply Inv3_frame; unfold SSHManager.getConnection;
    by destruct (connections w !! clientId).
Qed.

Lemma Inv3_startShell this sessionId ws cols rows w :
  Inv3 w →
  Inv3 (SSHConnection.startShell this sessionId (OutputTo ws sessionId)
          (ClosedTo ws sessionId) cols rows w).2.
Proof.
  intros H. unfold SSHConnection.startShell, new_promise. simpl.
  destruct (conns w !! this) as [c|]; simpl; [|by eapply Inv3_frame].
  destruct (connected c); simpl;
    [|apply Inv3_reject; by eapply Inv3_frame].
  destruct (JSMap.has sessionId (shells c)); simpl;
    [apply Inv3_reject; by eapply Inv3_frame|].
  destruct H as [A B]. split; [|done]. simpl.
  apply Forall_app. split; [done|]. constructor; [|done]. by exists ws.
Qed.

Lemma Inv3_setupPortForward this config w :
  Inv3 w → Inv3 (SSHConnection.setupPortForward this config w).2.
Proof.
  intros H. unfold SSHConnection.setupPortForward, new_promise. simpl.
  destruct (conns w !! this) as [c|]; simpl; [|by eapply Inv3_frame].
  destruct (connected c); simpl;
    [|apply Inv3_reject; by eapply Inv3_frame].
  case_bool_decide; simpl;
    [apply Inv3_reject; by eapply Inv3_frame|by eapply Inv3_frame].
Qed.

Lemma Inv3_writeToShell this sessionId data w :
  Inv3 w → Inv3 (SSHConnection.writeToShell this sessionId data w).2.
Proof.
  intros H. unfold SSHConnection.writeToShell.
  destruct (conns w !! this) as [c|]; [|done].
  destruct (JSMap.get sessionId (shells c)); [|done].
  by apply Inv3_upd_stream.
Qed.

Lemma Inv3_write this data w : Inv3 w → Inv3 (SSHConnection.write this data w).
Proof.
  intros H. unfold SSHConnection.write.
  destruct (conns w !! this) as [c|]; [|done].
  destruct (JSMap.first_value (shells c)); [|done].
  by apply Inv3_upd_stream.
Qed.

Lemma Inv3_resizeShell this sessionId cols rows w :
  Inv3 w → Inv3 (SSHConnection.resizeShell this sessionId cols rows w).2.
Proof.
  intros H. unfold SSHConnection.resizeShell.
  destruct (conns w !! this) as [c|]; [|done].
  destruct (JSMap.get sessionId (shells c)); [|done].
  by apply Inv3_upd_stream.
Qed.

Lemma Inv3_resize this cols rows w :
  Inv3 w → Inv3 (SSHConnection.resize this cols rows w).
Proof.
  intros H. unfold SSHConnection.resize.
  destruct (conns w !! this) as [c|]; [|done].
  destruct (JSMap.first_value (shells c)); [|done].
  by apply Inv3_upd_stream.
Qed.

Lemma Inv3_closeShell this sessionId w :
  Inv3 w → Inv3 (SSHConnection.closeShell this sessionId w).2.
Proof.
  intros H. unfold SSHConnection.closeShell.
  destruct (conns w !! this) as [c|]; [|done].
  destruct (JSMap.get sessionId (shells c)) as [shell|]; [|done].
  apply (Inv3_frame (upd_stream shell stream_close w)); try done.
  by apply Inv3_upd_stream.
Qed.

Lemma Inv3_stopPortForward this localPort w :
  Inv3 w → Inv3 (SSHConnection.stopPortForward this localPort w).
Proof.
  apply Inv3_frame; unfold SSHConnection.stopPortForward;
    (destruct (conns w !! this) as [c|]; [|done]);
    by destruct (portForwards c !! localPort).
Qed.

Lemma Inv3_close_all_shells m w :
  Inv3 w → Inv3 (SSHConnection.close_all_shells m w).
Proof.
  unfold SSHConnection.close_all_shells. revert w.
  induction m as [|kv m IH]; intros w H; simpl; [done|].
  by apply IH, Inv3_upd_stream.
Qed.

Lemma shellReqs_close_all_servers m w :
  shellReqs (SSHConnection.close_all_servers m w) = shellReqs w.
Proof.
  unfold SSHConnection.close_all_servers.
  generalize (map_to_list m). intros l.
  revert w. induction l as [|kv l IH]; intros w; simpl; [done|].
  by rewrite IH.
Qed.

Lemma Inv3_disconnect this w : Inv3 w → Inv3 (SSHConnection.disconnect this w).
Proof.
  intros H. unfold SSHConnection.disconnect.
  destruct (conns w !! this) as [c|]; [|done].
  apply (Inv3_close_all_shells (shells c)) in H.
  destruct (connected c); revert H; apply Inv3_frame; simpl;
    by rewrite ?streams_close_all_servers, ?shellReqs_close_all_servers.
Qed.

Lemma Inv3_removeConnection clientId w :
  Inv3 w → Inv3 (SSHManager.removeConnection clientId w).
Proof.
  intros H. unfold SSHManager.removeConnection.
  destruct (connections w !! clientId) as [c|]; [|done].
  apply (Inv3_disconnect c) in H. revert H. by apply Inv3_frame.
Qed.

Lemma Inv3_handle ws clientId message w :
  Inv3 w → Inv3 (SSHHandler.handle ws clientId message w).2.
Proof.
  intros H. pose proof (Inv3_getConnection clientId w H) as Hg.
  destruct message; simpl; try done.
  - unfold SSHHandler.handleConnect.
    destruct (SSHManager.getConnection clientId w) as [c w1].
    apply Inv3_await. revert Hg. by apply Inv3_frame.
  - unfold SSHHandler.handleStartShell.
    destruct (SSHManager.getConnection clientId w) as [c w1].
    cbn [fst snd] in *. destruct (SSHConnection.isConnected c w1); simpl;
      [|revert Hg; by apply Inv3_frame].
    match goal with
    | |- context [SSHConnection.startShell ?a ?b (OutputTo ?x ?b)
                    (ClosedTo ?x ?b) ?e ?f ?g] =>
        pose proof (Inv3_startShell a b x e f g Hg) as Hs;
        destruct (SSHConnection.startShell a b (OutputTo x b) (ClosedTo x b)
                    e f g) as [p w2]
    end.
    by apply Inv3_await.
  - unfold SSHHandler.handleInput.
    destruct (SSHManager.getConnection clientId w) as [c w1].
    cbn [fst snd] in *. destruct (SSHConnection.isConnected c w1); [|done].
    destruct (SSHHandler.input_chunk _) as [chunk|]; [|done].
    match goal with
    | |- context [SSHConnection.writeToShell ?a ?b ?c ?d] =>
        pose proof (Inv3_writeToShell a b c d Hg) as Hw;
        destruct (SSHConnection.writeToShell a b c d) as [written w2]
    end.
    destruct written; simpl; [done|]. by apply Inv3_write.
  - unfold SSHHandler.handleResize.
    destruct (SSHManager.getConnection clientId w) as [c w1].
    cbn [fst snd] in *. destruct (SSHConnection.isConnected c w1); [|done].
    destruct (truthy (rs_sessionId data)).
    + by apply Inv3_resizeShell.
    + by apply Inv3_resize.
  - unfold SSHHandler.handleDisconnect.
    apply (Inv3_removeConnection clientId) in H. revert H.
    by apply Inv3_frame.
  - unfold SSHHandler.handleCloseShell.
    destruct (SSHManager.getConnection clientId w) as [c w1].
    cbn [fst snd] in *.
    destruct (truthy sessionId && SSHConnection.isConnected c w1); [|done].
    pose proof (Inv3_closeShell c (default EmptyString sessionId) w1 Hg) as Hc.
    destruct (SSHConnection.closeShell c (default EmptyString sessionId) w1)
      as [closed w2].
    revert Hc. by apply Inv3_frame.
  - unfold SSHHandler.handleListShells.
    destruct (SSHManager.getConnection clientId w) as [c w1].
    revert Hg. by apply Inv3_frame.
  - unfold SSHHandler.handlePortForward.
    destruct (SSHManager.getConnection clientId w) as [c w1].
    cbn [fst snd] in *. destruct (SSHConnection.isConnected c w1); simpl;
      [|revert Hg; by apply Inv3_frame].
    pose proof (Inv3_setupPortForward c data w1 Hg) as Hs.
    destruct (SSHConnection.setupPortForward c data w1) as [p w2].
    by apply Inv3_await.
  - unfold SSHHandler.handleStopPortForward.
    destruct (SSHManager.getConnection clientId w) as [c w1].
    cbn [fst snd] in *.
    apply (Inv3_frame (if SSHConnection.isConnected c w1
                       then SSHConnection.stopPortForward c localPort w1
                       else w1)); try done.
    destruct (SSHConnection.isConnected c w1); [|done].
    by apply Inv3_stopPortForward.
Qed.

Lemma Inv3_step e w : Inv3 w → Inv3 (step e w).
Proof.
  intros H. destruct e; simpl.
  - by apply Inv3_handle.
  - unfold emit_ready. generalize (listeners_of c w). intros l.
    revert w H. induction l as [|p l IH]; intros w H; simpl; [done|].
    apply IH, Inv3_resolve. revert H. by apply Inv3_frame.
  - unfold emit_error. generalize (listeners_of c w). intros l.
    revert w H. induction l as [|p l IH]; intros w H; simpl; [done|].
    apply IH, Inv3_reject. revert H. by apply Inv3_frame.
  - unfold emit_close. generalize (listeners_of c w). intros l.
    revert w H. induction l as [|p l IH]; intros w H; simpl; [done|].
    apply IH. revert H. by apply Inv3_frame.
  - destruct (shellReqs w !! r) as [rq|] eqn:Hrq; [|done].
    destruct (rq_answered rq); [done|].
    assert (Hrq' : req_routes rq).
    { destruct H as [A _]. rewrite Forall_lookup in A. by eapply A. }
    assert (Hm : Inv3 (set_shellReqs (alter mark_answered r) w)).
    { destruct H as [A B]. split; [|done]. simpl.
      apply Forall_alter; [done|]. by intros x _ (ws & ? & ?); exists ws. }
    unfold SSHConnection.shell_callback.
    destruct err as [message|]; [by apply Inv3_reject|].
    apply Inv3_resolve. destruct Hm as [A B]. split; [done|]. simpl.
    apply Forall_app. split; [done|]. constructor; [|done].
    destruct Hrq' as (ws & Hd & Hc). by exists ws.
  - destruct (streams w !! s) as [st|]; [|done].
    destruct (st_closed st); [done|].
    unfold SSHConnection.stream_on_data, SSHConnection.run_onData.
    destruct (st_onData st). revert H. by apply Inv3_frame.
  - destruct (streams w !! s) as [st|] eqn:Hst; [|done].
    destruct (st_closed st) eqn:Hopen; [done|].
    unfold SSHConnection.stream_on_close, SSHConnection.run_onClose.
    destruct (st_onClose st).
    apply (Inv3_frame (upd_stream s stream_closed w)); try done.
    by apply Inv3_upd_stream.
  - destruct (servers w !! s) as [sv|] eqn:Hsv; [|done].
    destruct (sv_state sv); try done.
    unfold SSHConnection.server_on_listening. apply Inv3_resolve.
    revert H. by apply Inv3_frame.
  - destruct (servers w !! s) as [sv|] eqn:Hsv; [|done].
    unfold SSHConnection.server_on_error. apply Inv3_reject.
    by destruct (sv_state sv).
  - by apply Inv3_removeConnection.
Qed.

Lemma Inv3_run es : Inv3 (run es initial).
Proof.
  unfold run. assert (H : Inv3 initial) by (split; constructor).
  revert H. generalize initial.
  induction es as [|e es IH]; intros w H; simpl; [done|].
  by apply IH, Inv3_step.
Qed.

(** In every reachable world the data of the channel registered under a
    session id is sent as one [ssh_output] tagged with that very session
    id, to the socket that will also get the channel's closure
    notification; nothing else is sent and no state changes. *)
Theorem output_routing (es : list Event) (c : ConnRef) (conn : SSHConnection)
    (sessionId data : string) (s : StreamRef) :
  let w := run es initial in
  conns w !! c = Some conn →
  JSMap.get sessionId (shells conn) = Some s →
  ∃ ws st,
    streams w !! s = Some st ∧
    st_onClose st = ClosedTo ws sessionId ∧
    step (StreamData s data) w = sendFn ws (ssh_output sessionId data) w.
Proof.
  intros w Hc Hs.
  destruct (inv_shells _ (Inv_run es) _ _ _ _ Hc Hs) as (st & Hst & Ho & Hsid).
  destruct (inv_live _ (Inv2_run es) _ _ _ _ Hc Hs) as (st' & Hst' & Hcl & _).
  assert (st' = st) by congruence. subst st'.
  destruct (Inv3_run es) as [_ B]. rewrite Forall_lookup in B.
  destruct (B s st Hst) as (ws & Hd & Hclose).
  exists ws, st. rewrite <- Hsid. split; [done|]. split; [done|].
  fold w in Hst. clearbody w. simpl. rewrite Hst, Hcl.
  unfold SSHConnection.stream_on_data. by rewrite Hd.
Qed.

(** ** The properties on the example runs *)

Lemma two_shells_registry :
  connections (run two_shells initial) !! "client_1" = Some 0.
Proof. vm_compute. reflexivity. Defined.

Lemma two_shells_connected : connected two_shells_conn = true.
Proof. reflexivity. Defined.

Lemma two_shells_no_c : JSMap.get "c" (shells two_shells_conn) = None.
Proof. vm_compute. reflexivity. Defined.

Lemma two_shells_no_forward :
  portForwards two_shells_conn !! pf_localPort example_forward = None.
Proof. vm_compute. reflexivity. Defined.

Lemma example_login_returns : connect_returns example_login.
Proof.
  split; [reflexivity|]. split; [discriminate|].
  unfold valid_port. simpl. lia.
Defined.

Lemma example_forward_valid : valid_port (pf_localPort example_forward).
Proof. unfold valid_port. simpl. lia. Defined.

Lemma forwarding_conn_lookup :
  conns (run forwarding initial) !! 0 = Some forwarding_conn.
Proof. vm_compute. reflexivity. Defined.

Lemma refused_conn_lookup :
  conns (SSHManager.getConnection "client_1" (run refused initial)).2
    !! (SSHManager.getConnection "client_1" (run refused initial)).1
  = Some refused_conn.
Proof. vm_compute. reflexivity. Defined.

Lemma unknown_session_noop_witness :
  conns (run two_shells initial) !! 0 = Some two_shells_conn ∧
  JSMap.get "c" (shells two_shells_conn) = None ∧
  SSHConnection.closeShell 0 "c" (run two_shells initial) =
    (false, run two_shells initial).
Proof.
  split; [exact two_shells_conn_lookup|]. split; [exact two_shells_no_c|].
  exact (proj1 (proj2 (proj2
    (unknown_session_noop 0 "c" None 80 24 (run two_shells initial)
       two_shells_conn two_shells_conn_lookup two_shells_no_c)))).
Defined.

Lemma startShell_granted_witness :
  let w := run two_shells initial in
  let r := SSHConnection.startShell 0 "c" (OutputTo 1 "c") (ClosedTo 1 "c")
             80 24 w in
  let w' := step (ShellAnswer (length (shellReqs w)) None) r.2 in
  conns w !! 0 = Some two_shells_conn ∧
  connected two_shells_conn = true ∧
  JSMap.get "c" (shells two_shells_conn) = None ∧
  SSHConnection.getActiveShells 0 w' =
    SSHConnection.getActiveShells 0 w ++ ["c"].
Proof.
  split; [exact two_shells_conn_lookup|].
  split; [exact two_shells_connected|]. split; [exact two_shells_no_c|].
  exact (proj1 (proj2 (proj2 (proj2
    (startShell_granted 0 "c" (OutputTo 1 "c") (ClosedTo 1 "c") 80 24 None
       (run two_shells initial) two_shells_conn two_shells_conn_lookup
       two_shells_connected two_shells_no_c))))).
Defined.

Lemma startShell_refused_witness :
  let w := run two_shells initial in
  let r := SSHConnection.startShell 0 "c" (OutputTo 1 "c") (ClosedTo 1 "c")
             80 24 w in
  let w' := step (ShellAnswer (length (shellReqs w)) (Some "denied")) r.2 in
  conns w !! 0 = Some two_shells_conn ∧
  connected two_shells_conn = true ∧
  JSMap.get "c" (shells two_shells_conn) = None ∧
  promise_state r.1 w' = Some (Rejected "denied").
Proof.
  split; [exact two_shells_conn_lookup|].
  split; [exact two_shells_connected|]. split; [exact two_shells_no_c|].
  exact (proj1
    (startShell_refused 0 "c" (OutputTo 1 "c") (ClosedTo 1 "c") 80 24 "denied"
       (run two_shells initial) two_shells_conn two_shells_conn_lookup
       two_shells_connected two_shells_no_c)).
Defined.

Lemma closeShell_removes_witness :
  let w := run two_shells initial in
  conns w !! 0 = Some two_shells_conn ∧
  SSHConnection.hasShell 0 "a" (SSHConnection.closeShell 0 "a" w).2 = false.
Proof.
  split; [exact two_shells_conn_lookup|].
  exact (proj1 (proj2
    (closeShell_removes 0 "a" (run two_shells initial) two_shells_conn
       two_shells_conn_lookup))).
Defined.

Lemma setupPortForward_listening_witness :
  let w := run two_shells initial in
  let r := SSHConnection.setupPortForward 0 example_forward w in
  let w' := step (ServerListening (length (servers w))) r.2 in
  conns w !! 0 = Some two_shells_conn ∧
  connected two_shells_conn = true ∧
  portForwards two_shells_conn !! pf_localPort example_forward = None ∧
  valid_port (pf_localPort example_forward) ∧
  promise_state r.1 w' = Some Fulfilled.
Proof.
  split; [exact two_shells_conn_lookup|].
  split; [exact two_shells_connected|]. split; [exact two_shells_no_forward|].
  split; [exact example_forward_valid|].
  exact (proj1 (proj2 (proj2
    (setupPortForward_listening 0 example_forward (run two_shells initial)
       two_shells_conn two_shells_conn_lookup two_shells_connected
       two_shells_no_forward example_forward_valid)))).
Defined.

Lemma stopPortForward_stops_witness :
  let w := run forwarding initial in
  conns w !! 0 = Some forwarding_conn ∧
  conns (SSHConnection.stopPortForward 0 9000 w) !! 0 =
    Some (set_portForwards (delete 9000%Z) forwarding_conn).
Proof.
  split; [exact forwarding_conn_lookup|].
  exact (proj1
    (stopPortForward_stops 0 9000 (run forwarding initial) forwarding_conn
       forwarding_conn_lookup)).
Defined.

Lemma forward_round_trip_witness :
  let w := run two_shells initial in
  let w1 := step (ServerListening (length (servers w)))
              (SSHConnection.setupPortForward 0 example_forward w).2 in
  let w2 := SSHConnection.stopPortForward 0 (pf_localPort example_forward) w1 in
  conns w !! 0 = Some two_shells_conn ∧
  connected two_shells_conn = true ∧
  portForwards two_shells_conn !! pf_localPort example_forward = None ∧
  conns w2 = conns w.
Proof.
  split; [exact two_shells_conn_lookup|].
  split; [exact two_shells_connected|]. split; [exact two_shells_no_forward|].
  exact (proj1
    (forward_round_trip 0 example_forward (run two_shells initial)
       two_shells_conn two_shells_conn_lookup two_shells_connected
       two_shells_no_forward)).
Defined.

Lemma handleResize_sessions_witness :
  let w := run two_shells initial in
  connections w !! "client_1" = Some 0 ∧
  conns w !! 0 = Some two_shells_conn ∧
  connected two_shells_conn = true ∧
  SSHHandler.handleResize "client_1"
    {| rs_sessionId := Some "c"; rs_cols := 120; rs_rows := 40 |} w = w.
Proof.
  split; [exact two_shells_registry|].
  split; [exact two_shells_conn_lookup|]. split; [exact two_shells_connected|].
  refine (proj1
    (handleResize_sessions "client_1" "c" 120 40 (run two_shells initial) 0
       two_shells_conn two_shells_registry two_shells_conn_lookup
       two_shells_connected) _ two_shells_no_c).
  discriminate.
Defined.

Lemma handleStartShell_replies_witness :
  let w := run two_shells initial in
  let data := Some {| ss_sessionId := Some "c"; ss_cols := None;
                      ss_rows := None |} in
  let w1 := SSHHandler.handleStartShell 1 "client_1" data w in
  connections w !! "client_1" = Some 0 ∧
  conns w !! 0 = Some two_shells_conn ∧
  connected two_shells_conn = true ∧
  outbox w1 = outbox w.
Proof.
  split; [exact two_shells_registry|].
  split; [exact two_shells_conn_lookup|]. split; [exact two_shells_connected|].
  refine (proj1 (proj2
    (handleStartShell_replies 1 "client_1"
       (Some {| ss_sessionId := Some "c"; ss_cols := None; ss_rows := None |})
       (run two_shells initial) 0
       two_shells_conn two_shells_registry two_shells_conn_lookup
       two_shells_connected) _)).
  vm_compute. reflexivity.
Defined.

Lemma handleConnect_replies_witness :
  let w := run refused initial in
  let g := SSHManager.getConnection "client_1" w in
  let w1 := SSHHandler.handleConnect 1 "client_1" example_login w in
  connect_returns example_login ∧
  conns g.2 !! g.1 = Some refused_conn ∧
  Forall (λ p, settled p w) (cl_listeners (client refused_conn)) ∧
  outbox (step (ClientReady g.1) w1) =
    outbox w ++ [(1, ssh_connect_response true None)].
Proof.
  assert (Hs : Forall (λ p, settled p (run refused initial))
                 (cl_listeners (client refused_conn))).
  { repeat constructor. exists (Rejected "ECONNREFUSED").
    split; [vm_compute; reflexivity|discriminate]. }
  split; [exact example_login_returns|].
  split; [exact refused_conn_lookup|]. split; [exact Hs|].
  exact (proj1 (proj2 (proj2
    (handleConnect_replies 1 "client_1" example_login (run refused initial)
       refused_conn example_login_returns refused_conn_lookup Hs)))).
Defined.

Lemma client_close_event_witness :
  let w := run two_shells initial in
  conns w !! 0 = Some two_shells_conn ∧
  cl_listeners (client two_shells_conn) ≠ [] ∧
  connections w !! "client_1" = Some 0 ∧
  outbox (SSHHandler.handleListShells 1 "client_1" (step (ClientClose 0) w)) =
    outbox w ++ [(1, ssh_list_shells_response [])].
Proof.
  assert (Hl : cl_listeners (client two_shells_conn) ≠ [])
    by (vm_compute; discriminate).
  split; [exact two_shells_conn_lookup|]. split; [exact Hl|].
  split; [exact two_shells_registry|].
  exact (proj2 (proj2 (proj2 (proj2 (proj2 (proj2 (proj2
    (client_close_event 0 two_shells_conn (run two_shells initial) 1
       "client_1" two_shells_conn_lookup Hl two_shells_registry)))))))).
Defined.

Lemma handlePortForward_replies_witness :
  let w := run two_shells initial in
  let w1 := SSHHandler.handlePortForward 1 "client_1" example_forward w in
  connections w !! "client_1" = Some 0 ∧
  conns w !! 0 = Some two_shells_conn ∧
  connected two_shells_conn = true ∧
  outbox (step (ServerListening (length (servers w))) w1) =
    outbox w ++
    [(1, ssh_port_forward_response true (pf_localPort example_forward) None)].
Proof.
  split; [exact two_shells_registry|].
  split; [exact two_shells_conn_lookup|]. split; [exact two_shells_connected|].
  exact (proj1 (proj2 (proj2
    (handlePortForward_replies 1 "client_1" example_forward
       (run two_shells initial) 0 two_shells_conn two_shells_registry
       two_shells_conn_lookup two_shells_connected) two_shells_no_forward
    example_forward_valid))).
Defined.

Lemma client_isolation_witness :
  let w := run two_clients initial in
  let w' := (SSHHandler.handle 1 "client_1" ssh_disconnect w).2 in
  "client_1" ≠ "client_2" ∧
  connections w !! "client_2" = Some 1 ∧
  conns w' !! 1 = conns w !! 1.
Proof.
  assert (Hne : "client_1" ≠ "client_2") by discriminate.
  assert (Hr : connections (run two_clients initial) !! "client_2" = Some 1)
    by (vm_compute; reflexivity).
  split; [exact Hne|]. split; [exact Hr|].
  exact (proj1 (proj2
    (client_isolation two_clients 1 "client_1" "client_2" ssh_disconnect 1
       Hne Hr))).
Defined.

Lemma disconnect_closes_shells_witness :
  let w := run two_shells initial in
  let st := mkStream 0 "a" (OutputTo 1 "a") (ClosedTo 1 "a") []
              (Some (24, 80)%Z) 0 false in
  conns w !! 0 = Some two_shells_conn ∧
  JSMap.get "a" (shells two_shells_conn) = Some 0 ∧
  streams w !! 0 = Some st ∧
  ∃ st', streams (SSHConnection.disconnect 0 w) !! 0 = Some st' ∧
         (st_closeCalls st < st_closeCalls st')%nat ∧
         st_closed st' = st_closed st ∧
         st_written st' = st_written st ∧
         SSHConnection.hasShell 0 "a" (SSHConnection.disconnect 0 w) = false.
Proof.
  assert (Hg : JSMap.get "a" (shells two_shells_conn) = Some 0)
    by (vm_compute; reflexivity).
  assert (Hst : streams (run two_shells initial) !! 0 =
            Some (mkStream 0 "a" (OutputTo 1 "a") (ClosedTo 1 "a") []
                    (Some (24, 80)%Z) 0 false))
    by (vm_compute; reflexivity).
  split; [exact two_shells_conn_lookup|]. split; [exact Hg|].
  split; [exact Hst|].
  exact (disconnect_closes_shells 0 (run two_shells initial) two_shells_conn
           "a" 0 _ two_shells_conn_lookup Hg Hst).
Defined.

Lemma startShell_in_flight_witness :
  let w := run two_shells initial in
  let r1 := SSHConnection.startShell 0 "c" (OutputTo 1 "c") (ClosedTo 1 "c")
              80 24 w in
  let r2 := SSHConnection.startShell 0 "c" (OutputTo 1 "c") (ClosedTo 1 "c")
              80 24 r1.2 in
  let q := length (shellReqs w) in
  let w' := step (ShellAnswer (S q) None) (step (ShellAnswer q None) r2.2) in
  shells_wf w ∧ sessions_unique w ∧
  conns w !! 0 = Some two_shells_conn ∧
  connected two_shells_conn = true ∧
  JSMap.get "c" (shells two_shells_conn) = None ∧
  streams (SSHConnection.disconnect 0 w') !! length (streams w) =
    Some (mkStream 0 "c" (OutputTo 1 "c") (ClosedTo 1 "c") []
            (Some (24, 80)%Z) 0 false).
Proof.
  pose proof (inv_shells _ (Inv_run two_shells)) as Hwf.
  pose proof (inv_unique _ (Inv2_run two_shells)) as Hu.
  split; [exact Hwf|]. split; [exact Hu|].
  split; [exact two_shells_conn_lookup|].
  split; [exact two_shells_connected|]. split; [exact two_shells_no_c|].
  exact (proj2 (proj2 (proj2 (proj2 (proj2 (proj2
    (startShell_in_flight 0 "c" (OutputTo 1 "c") (ClosedTo 1 "c") 80 24
       (run two_shells initial) two_shells_conn Hwf Hu two_shells_conn_lookup
       two_shells_connected two_shells_no_c))))))).
Defined.

Lemma output_routing_witness :
  let w := run two_shells initial in
  conns w !! 0 = Some two_shells_conn ∧
  JSMap.get "b" (shells two_shells_conn) = Some 1 ∧
  ∃ ws st,
    streams w !! 1 = Some st ∧
    st_onClose st = ClosedTo ws "b" ∧
    step (StreamData 1 "hello") w = sendFn ws (ssh_output "b" "hello") w.
Proof.
  assert (Hg : JSMap.get "b" (shells two_shells_conn) = Some 1)
    by (vm_compute; reflexivity).
  split; [exact two_shells_conn_lookup|]. split; [exact Hg|].
  exact (output_routing two_shells 0 two_shells_conn "b" "hello" 1
           two_shells_conn_lookup Hg).
Defined.

Lemma connect_settles_witness :
  let w := run two_shells initial in
  let r := SSHConnection.connect 0 example_login w in
  conns w !! 0 = Some two_shells_conn ∧
  connect_returns example_login ∧
  promise_state r.1 (step (ClientClose 0) r.2) = Some Pending.
Proof.
  split; [exact two_shells_conn_lookup|].
  split; [exact example_login_returns|].
  exact (proj1 (proj2 (proj2 (proj2 (proj2 (proj2
    (connect_settles 0 example_login (run two_shells initial)
       two_shells_conn two_shells_conn_lookup example_login_returns))))))).
Defined.

Lemma handleInput_throws_witness :
  let w := run two_shells initial in
  has_input None ∧ (SSHHandler.handleInput "client_1" None w).1 = Threw.
Proof.
  assert (Hin : has_input None) by (intros sessionId; discriminate).
  assert (Hcon : SSHConnection.isConnected
            (SSHManager.getConnection "client_1" (run two_shells initial)).1
            (SSHManager.getConnection "client_1" (run two_shells initial)).2
          = true) by (vm_compute; reflexivity).
  split; [exact Hin|].
  exact (proj2 (proj1
    (handleInput_throws "client_1" None (run two_shells initial) Hin))
    (conj eq_refl Hcon)).
Defined.
